(** * Academic paper summarizer: chunking, retrieval and answer cache

    A shallow embedding of
      - [app/services/chunking_service.py]   (section detection, sentence
        splitting, token-budgeted chunking),
      - [app/services/embedding_service.py]  (text cleaning, the empty
        query guard, retries, and batches with their fallback),
      - [app/services/retrieval_service.py]  (the cosine-similarity SQL
        statement and its wrapper),
      - [app/services/generation_service.py] (the question prompt and the
        confidence label),
      - [app/pages/1_..._Upload_Papers.py]   (chunks and their embeddings),
      - [app/pages/2_..._Ask_Questions.py]   (the answer cache gate),
      - [app/pages/3_..._View_Summaries.py]  (the summary cache),
    together with the properties stated about them.

    Text is a list of characters.  A character is a code point below 256
    (the Latin-1 range), which is where Python's [str.isspace], [\s], [\d]
    and case-insensitive [[A-Z]] are decided by the tables written out
    below. *)

From Stdlib Require Import List Arith Lia Bool Ascii String PeanoNat.
From Stdlib Require Import Permutation Sorted.
From Stdlib Require Import ZArith Floats.
Import ListNotations.

Set Implicit Arguments.

(** [length] is the length of a list throughout, never [String.length]. *)
Abbreviation length := List.length (only parsing).

(* ================================================================== *)
(** * Python strings *)
(* ================================================================== *)

Module PyStr.

Definition str := list ascii.

(** A string literal of the source. *)
Definition s (x : string) : str := list_ascii_of_string x.

Arguments s : simpl never.

Definition code (c : ascii) : nat := nat_of_ascii c.

(** ["\n"] *)
Definition nl : ascii := ascii_of_nat 10.

Definition in_range (lo hi : nat) (c : ascii) : bool :=
  (lo <=? code c) && (code c <=? hi).

(** [str.isspace] on one character, which is also the class [\s] of [re]
    for [str] patterns: TAB..CR, FS..US, SPACE, NEL and NBSP. *)
Definition is_space (c : ascii) : bool :=
  in_range 9 13 c || in_range 28 32 c
  || (code c =? 133) || (code c =? 160).

(** [\d]: in the Latin-1 range only the ASCII digits are decimal digits. *)
Definition is_digit (c : ascii) : bool := in_range 48 57 c.

(** [[A-Z]] *)
Definition is_upper (c : ascii) : bool := in_range 65 90 c.

(** [[a-z]] *)
Definition is_lower (c : ascii) : bool := in_range 97 122 c.

(** [[A-Z]] under [re.IGNORECASE]. *)
Definition is_alpha (c : ascii) : bool := is_upper c || is_lower c.

(** ASCII case folding, enough for the literals of the heading patterns. *)
Definition lower (c : ascii) : ascii :=
  if is_upper c then ascii_of_nat (code c + 32) else c.

(** A literal character under [re.IGNORECASE]. *)
Definition eq_nocase (a c : ascii) : bool := Ascii.eqb (lower a) (lower c).

(** [s.lstrip()] *)
Fixpoint lstrip (x : str) : str :=
  match x with
  | [] => []
  | c :: x' => if is_space c then lstrip x' else x
  end.

(** [s.rstrip()] *)
Definition rstrip (x : str) : str := rev (lstrip (rev x)).

(** [s.strip()] *)
Definition strip (x : str) : str := rstrip (lstrip x).

(** [sep.join(parts)] *)
Fixpoint join (sep : str) (parts : list str) : str :=
  match parts with
  | [] => []
  | [p] => p
  | p :: rest => p ++ sep ++ join sep rest
  end.

(** [s.split()] with no argument: the maximal runs of non-space
    characters.  [w] is the run being read, most recent character first. *)
Fixpoint split_from (w : str) (x : str) : list str :=
  match x with
  | [] => match w with [] => [] | _ => [rev w] end
  | c :: x' =>
      if is_space c
      then match w with
           | [] => split_from [] x'
           | _ => rev w :: split_from [] x'
           end
      else split_from (c :: w) x'
  end.

Definition split (x : str) : list str := split_from [] x.

(** [s[a:b]] for [0 <= a], [0 <= b] (Python clamps both to [len(s)]). *)
Definition slice (x : str) (a b : nat) : str := firstn (b - a) (skipn a x).

(** Truthiness of a string: [bool(s)]. *)
Definition truthy (x : str) : bool :=
  match x with [] => false | _ => true end.

(** Stripped: no whitespace at either end. *)
Definition stripped (x : str) : Prop := strip x = x.

End PyStr.
Import PyStr.

(* ================================================================== *)
(** * The fragment of Python's [re] that the two patterns use *)
(* ================================================================== *)

Module Re.

(** Regular expressions.  Repetition is only ever applied to a character
    class in the source patterns ([\s*], [\s+], [\d+], [[A-Z\s]{2,}]), so
    [Star] carries a class.  Case-insensitivity is compiled into the
    classes, see [ilit]. *)
Inductive regex : Type :=
| Eps : regex
| Cls : (ascii -> bool) -> regex           (* one character of a class *)
| Seq : regex -> regex -> regex
| Alt : regex -> regex -> regex            (* r1|r2, r1 tried first *)
| Opt : regex -> regex                     (* (r)?, greedy *)
| Star : (ascii -> bool) -> regex          (* [class]*, greedy *)
| Bol : regex                              (* ^ under re.MULTILINE *)
| Eol : regex                              (* $ under re.MULTILINE *)
| Behind : (ascii -> bool) -> regex        (* (?<=[class]) *)
| Ahead : (ascii -> bool) -> regex.        (* (?=[class]) *)

(** [^] under MULTILINE: at the start of the text or just after a newline. *)
Definition at_bol (prev : option ascii) : bool :=
  match prev with
  | None => true
  | Some c => Ascii.eqb c nl
  end.

(** [$] under MULTILINE: at the end of the text or just before a newline. *)
Definition at_eol (rest : str) : bool :=
  match rest with
  | [] => true
  | c :: _ => Ascii.eqb c nl
  end.

(** Greedy repetition of a class with backtracking: take as many characters
    as possible, and give one back each time the continuation [k] fails. *)
Fixpoint star (p : ascii -> bool) (prev : option ascii) (rest : str)
         (k : option ascii -> str -> option str) : option str :=
  match rest with
  | c :: rest' =>
      if p c
      then match star p (Some c) rest' k with
           | Some r => Some r
           | None => k prev rest
           end
      else k prev rest
  | [] => k prev rest
  end.

(** The backtracking matcher, in continuation-passing style.  [prev] is
    the character before the current position ([None] at the start of the
    text), [rest] the text from the current position on.  The result is
    the text left after the first match in Python's priority order. *)
Fixpoint rmatch (r : regex) (prev : option ascii) (rest : str)
         (k : option ascii -> str -> option str) : option str :=
  match r with
  | Eps => k prev rest
  | Cls p =>
      match rest with
      | c :: rest' => if p c then k (Some c) rest' else None
      | [] => None
      end
  | Seq r1 r2 => rmatch r1 prev rest (fun prev' rest' => rmatch r2 prev' rest' k)
  | Alt r1 r2 =>
      match rmatch r1 prev rest k with
      | Some x => Some x
      | None => rmatch r2 prev rest k
      end
  | Opt r1 =>
      match rmatch r1 prev rest k with
      | Some x => Some x
      | None => k prev rest
      end
  | Star p => star p prev rest k
  | Bol => if at_bol prev then k prev rest else None
  | Eol => if at_eol rest then k prev rest else None
  | Behind p =>
      match prev with
      | Some c => if p c then k prev rest else None
      | None => None
      end
  | Ahead p =>
      match rest with
      | c :: _ => if p c then k prev rest else None
      | [] => None
      end
  end.

(** [pattern.match] at one position: the number of characters matched. *)
Definition match_len (r : regex) (prev : option ascii) (rest : str) : option nat :=
  match rmatch r prev rest (fun _ rest' => Some rest') with
  | Some rest' => Some (length rest - length rest')
  | None => None
  end.

(** [pattern.finditer(text)]: the spans [(start, end)] of the
    non-overlapping matches, scanning left to right.  [skip] counts the
    characters of the current match still to be passed over.  (A pattern of
    the source never matches the empty string, see [header_match_nonempty]
    and [sentence_match_nonempty]; an empty match is recorded and the scan
    moves on by one character.) *)
Fixpoint scan (r : regex) (prev : option ascii) (rest : str)
         (pos skip : nat) : list (nat * nat) :=
  match skip with
  | S skip' =>
      match rest with
      | [] => []
      | c :: rest' => scan r (Some c) rest' (S pos) skip'
      end
  | O =>
      match match_len r prev rest with
      | Some n =>
          (pos, pos + n) ::
          match rest with
          | [] => []
          | c :: rest' => scan r (Some c) rest' (S pos) (pred n)
          end
      | None =>
          match rest with
          | [] => []
          | c :: rest' => scan r (Some c) rest' (S pos) O
          end
      end
  end.

Definition finditer (r : regex) (text : str) : list (nat * nat) :=
  scan r None text 0 0.

(** The pieces of [text] outside the given spans, from position [from]:
    before the first span, between consecutive spans, after the last. *)
Fixpoint pieces (text : str) (from : nat) (spans : list (nat * nat)) : list str :=
  match spans with
  | [] => [slice text from (length text)]
  | (a, b) :: spans' => slice text from a :: pieces text b spans'
  end.

(** [pattern.split(text)] for a pattern without capture groups. *)
Definition split (r : regex) (text : str) : list str :=
  pieces text 0 (finditer r text).

(** ** Pattern combinators *)

(** A literal character under IGNORECASE. *)
Definition ilit (c : ascii) : regex := Cls (eq_nocase c).

(** A literal word under IGNORECASE. *)
Fixpoint iword (w : str) : regex :=
  match w with
  | [] => Eps
  | c :: w' => Seq (ilit c) (iword w')
  end.

(** [[class]+] *)
Definition plus (p : ascii -> bool) : regex := Seq (Cls p) (Star p).

Definition seqs (rs : list regex) : regex := fold_right Seq Eps rs.

Fixpoint alts (rs : list regex) : regex :=
  match rs with
  | [] => Cls (fun _ => false)
  | [r] => r
  | r :: rs' => Alt r (alts rs')
  end.

End Re.

(* ================================================================== *)
(** * app/services/chunking_service.py *)
(* ================================================================== *)

Module Chunking.
Import Re.

(** [ChunkData] *)
Record ChunkData : Type := mkChunkData {
  content : str;
  section_title : option str;
  chunk_index : nat;
  token_count : nat
}.

(** The part of [Settings] (app/config.py) the chunker reads.  The values
    come from the environment; 512 and 50 are the declared defaults. *)
Record Settings : Type := mkSettings {
  cfg_chunk_size : nat;
  cfg_chunk_overlap : nat
}.

Definition default_settings : Settings := mkSettings 512 50.

(** [x or d] for an [Optional[int]] argument: [None] and [0] are falsy. *)
Definition int_or (x : option nat) (d : nat) : nat :=
  match x with
  | Some (S n) => S n
  | _ => d
  end.

(** ** The heading patterns of [_detect_sections] *)

(** [(\d+\.?\s+)?] *)
Definition numbering : regex :=
  Opt (seqs [plus is_digit; Opt (Cls (Ascii.eqb ".")); plus is_space]).

(** [^(\d+\.?\s+)?NAME\s*$] *)
Definition named (name : string) : regex :=
  seqs [Bol; numbering; iword (s name); Star is_space; Eol].

(** [^(\d+\.?\s+)?NAMEs?\s*$] *)
Definition named_s (name : string) : regex :=
  seqs [Bol; numbering; iword (s name); Opt (ilit "s"); Star is_space; Eol].

(** [section_patterns], in the order of the source.  The flags
    [re.MULTILINE | re.IGNORECASE] are built in: [Bol] and [Eol] are the
    multi-line anchors, literals are [iword] and [[A-Z]] is [is_alpha]. *)
Definition section_patterns : list regex :=
  [ (* ^(Abstract|ABSTRACT)\s*$ *)
    seqs [Bol; Alt (iword (s "Abstract")) (iword (s "ABSTRACT")); Star is_space; Eol];
    named "Introduction";
    named "Background";
    named "Related Work";
    (* ^(\d+\.?\s+)?Methodology|Methods?\s*$ : the bar splits the whole pattern *)
    Alt (seqs [Bol; numbering; iword (s "Methodology")])
        (seqs [iword (s "Method"); Opt (ilit "s"); Star is_space; Eol]);
    named_s "Experiment";
    named_s "Result";
    named "Discussion";
    named "Conclusion";
    named_s "Reference";
    named "Appendix";
    (* ^[A-Z][A-Z\s]{2,}$ *)
    seqs [Bol; Cls is_alpha;
          Cls (fun c => is_alpha c || is_space c);
          Cls (fun c => is_alpha c || is_space c);
          Star (fun c => is_alpha c || is_space c); Eol];
    (* ^\d+\.\s+[A-Z] *)
    seqs [Bol; plus is_digit; Cls (Ascii.eqb "."); plus is_space; Cls is_alpha]
  ].

(** [header_regex]: ["|".join(f"({p})" for p in section_patterns)] *)
Definition header_regex : regex := alts section_patterns.

(** [sentence_endings]: [(?<=[.!?])\s+(?=[A-Z])] (no flags). *)
Definition sentence_endings : regex :=
  seqs [Behind (fun c => Ascii.eqb c "." || Ascii.eqb c "!" || Ascii.eqb c "?");
        plus is_space;
        Ahead is_upper].

(** ** [_detect_sections] *)

(** The loop [for i, match in enumerate(matches)], over the matches that
    remain: the body of a match ends where the next match starts, or at
    the end of the text. *)
Fixpoint sections_of (text : str) (matches : list (nat * nat))
  : list (option str * str) :=
  match matches with
  | [] => []
  | (m_start, m_end) :: rest =>
      let title := strip (slice text m_start m_end) in
      let start := m_end in
      let stop := match rest with
                  | (next_start, _) :: _ => next_start
                  | [] => length text
                  end in
      let body := strip (slice text start stop) in
      (if truthy body then [(Some title, body)] else [])
      ++ sections_of text rest
  end.

Definition _detect_sections (text : str) : list (option str * str) :=
  let matches := finditer header_regex text in
  match matches with
  | [] => [(None, text)]
  | (first_start, _) :: _ =>
      (if 0 <? first_start
       then let pre_content := strip (slice text 0 first_start) in
            if truthy pre_content then [(None, pre_content)] else []
       else [])
      ++ sections_of text matches
  end.

(** ** [_split_sentences] *)

Definition _split_sentences (text : str) : list str :=
  map strip (filter (fun x => truthy (strip x)) (Re.split sentence_endings text)).

(** ** [count_tokens], [_split_by_tokens] and [chunk_text]

    [count_tokens] is [len(tiktoken.get_encoding("cl100k_base").encode(text))]:
    the encoder is a third-party table of about 100 000 merges, so it is a
    parameter here, and so are the settings read from the environment. *)

Section Service.

Variable count_tokens : str -> nat.
Variable settings : Settings.

(** The block that the source repeats at each flush:
    [chunk_text = " ".join(buffer)] and the [ChunkData] built from it. *)
Definition make_chunk (title : option str) (index : nat) (buffer : list str)
  : ChunkData :=
  let chunk_text := join (s " ") buffer in
  mkChunkData (strip chunk_text) title index (count_tokens chunk_text).

(** The local variables of the word loop. *)
Record WordLoop : Type := mkWordLoop {
  w_chunks : list ChunkData;
  w_index : nat;
  word_chunk : list str;
  word_tokens : nat
}.

(** One iteration of [for word in words]. *)
Definition word_step (title : option str) (chunk_size : nat)
           (st : WordLoop) (word : str) : WordLoop :=
  let word_token_count := count_tokens (word ++ s " ") in
  let st1 :=
    if (chunk_size <? word_tokens st + word_token_count)
       && negb (Nat.eqb (length (word_chunk st)) 0)
    then mkWordLoop
           (w_chunks st ++ [make_chunk title (w_index st) (word_chunk st)])
           (w_index st + 1) [] 0
    else st in
  mkWordLoop (w_chunks st1) (w_index st1)
             (word_chunk st1 ++ [word])
             (word_tokens st1 + word_token_count).

(** [for s in reversed(current_chunk)] with its [break]; [todo] is the
    reversed buffer still to visit. *)
Fixpoint overlap_loop (chunk_overlap : nat) (todo : list str)
         (overlap_chunk : list str) (overlap_tokens : nat) : list str * nat :=
  match todo with
  | [] => (overlap_chunk, overlap_tokens)
  | x :: todo' =>
      let s_tokens := count_tokens x in
      if overlap_tokens + s_tokens <=? chunk_overlap
      then overlap_loop chunk_overlap todo' (x :: overlap_chunk)
                        (overlap_tokens + s_tokens)
      else (overlap_chunk, overlap_tokens)
  end.

(** The local variables of the sentence loop. *)
Record SentenceLoop : Type := mkSentenceLoop {
  chunks : list ChunkData;
  next_index : nat;                 (* chunk_index *)
  current_chunk : list str;
  current_tokens : nat
}.

(** [if current_chunk:] flush it, at the head of the branch for a sentence
    that alone exceeds the chunk size. *)
Definition flush_pending (title : option str) (st : SentenceLoop) : SentenceLoop :=
  match current_chunk st with
  | [] => st
  | _ => mkSentenceLoop
           (chunks st ++ [make_chunk title (next_index st) (current_chunk st)])
           (next_index st + 1) [] 0
  end.

(** The rest of that branch: split the sentence by words, and leave the
    last group of words as the pending buffer. *)
Definition split_by_words (title : option str) (chunk_size : nat)
           (st : SentenceLoop) (sentence : str) : SentenceLoop :=
  let words := PyStr.split sentence in
  let w := fold_left (word_step title chunk_size) words
                     (mkWordLoop (chunks st) (next_index st) [] 0) in
  match word_chunk w with
  | [] => mkSentenceLoop (w_chunks w) (w_index w)
                         (current_chunk st) (current_tokens st)
  | _ => mkSentenceLoop (w_chunks w) (w_index w)
                        (word_chunk w) (word_tokens w)
  end.

(** One iteration of [for sentence in sentences]. *)
Definition sentence_step (title : option str) (chunk_size chunk_overlap : nat)
           (st : SentenceLoop) (sentence : str) : SentenceLoop :=
  let sentence_tokens := count_tokens sentence in
  if chunk_size <? sentence_tokens then
    split_by_words title chunk_size (flush_pending title st) sentence
  else
    let st1 :=
      if (chunk_size <? current_tokens st + sentence_tokens)
         && negb (Nat.eqb (length (current_chunk st)) 0)
      then
        let '(overlap_chunk, overlap_tokens) :=
          overlap_loop chunk_overlap (rev (current_chunk st)) [] 0 in
        mkSentenceLoop
          (chunks st ++ [make_chunk title (next_index st) (current_chunk st)])
          (next_index st + 1) overlap_chunk overlap_tokens
      else st in
    mkSentenceLoop (chunks st1) (next_index st1)
                   (current_chunk st1 ++ [sentence])
                   (current_tokens st1 + sentence_tokens).

Definition _split_by_tokens (text : str) (title : option str)
           (chunk_size chunk_overlap start_index : nat) : list ChunkData :=
  let sentences := _split_sentences text in
  let st := fold_left (sentence_step title chunk_size chunk_overlap) sentences
                      (mkSentenceLoop [] start_index [] 0) in
  match current_chunk st with
  | [] => chunks st
  | _ => chunks st ++ [make_chunk title (next_index st) (current_chunk st)]
  end.

(** One iteration of [for section_title, section_content in sections];
    the state is [(chunks, chunk_index)]. *)
Definition section_step (chunk_size chunk_overlap : nat)
           (st : list ChunkData * nat) (sec : option str * str)
  : list ChunkData * nat :=
  let '(acc, index) := st in
  let '(title, section_content) := sec in
  let section_tokens := count_tokens section_content in
  if section_tokens <=? chunk_size
  then (acc ++ [mkChunkData (strip section_content) title index section_tokens],
        index + 1)
  else
    let section_chunks :=
      _split_by_tokens section_content title chunk_size chunk_overlap index in
    (acc ++ section_chunks, index + length section_chunks).

Definition chunk_text (text : str) (chunk_size chunk_overlap : option nat)
  : list ChunkData :=
  let size := int_or chunk_size (cfg_chunk_size settings) in
  let overlap := int_or chunk_overlap (cfg_chunk_overlap settings) in
  let sections := _detect_sections text in
  fst (fold_left (section_step size overlap) sections ([], 0)).

End Service.

End Chunking.

(* ================================================================== *)
(** * Exceptions *)
(* ================================================================== *)

Module Py.

(** The exceptions that the modelled code raises or lets through. *)
Inductive exn : Type :=
| ValueError            (* raise ValueError("Query cannot be empty") *)
| RuntimeError          (* embedding failed after the retries *)
| MultipleResultsFound  (* sqlalchemy: scalar_one_or_none() on two or more rows *)
| IntegrityError.       (* sqlalchemy: NOT NULL violated at commit *)

(** The outcome of a call: a value or a raised exception. *)
Inductive result (A : Type) : Type :=
| Return : A -> result A
| Raise : exn -> result A.

Arguments Return {A} _.
Arguments Raise {A} _.

End Py.
Import Py.

(* ================================================================== *)
(** * app/services/embedding_service.py *)
(* ================================================================== *)

Module Embedding.

(** [max_chars = 25000] *)
Definition max_chars : nat := 25 * 1000.

(** [_clean_text] *)
Definition _clean_text (text : str) : str :=
  if negb (truthy text) then []
  else
    let cleaned := join (s " ") (PyStr.split text) in
    if max_chars <? length cleaned then firstn max_chars cleaned else cleaned.

Section Service.

(** [genai.embed_content(model=..., content=..., task_type="retrieval_query")]
    at the given attempt (0, 1, 2): the embedding, or [None] when the call
    (or the lookup of ["embedding"] in its reply) raises. *)
Variable embed_content : nat -> str -> option (list float).

(** [self._max_retries = 3] *)
Definition _max_retries : nat := 3.

(** [for attempt in range(self._max_retries)], with [remaining] attempts
    left; when they are used up the function raises [RuntimeError]. *)
Fixpoint query_attempts (remaining attempt : nat) (cleaned_query : str)
  : result (list float) :=
  match remaining with
  | O => Raise RuntimeError
  | S remaining' =>
      match embed_content attempt cleaned_query with
      | Some embedding => Return embedding
      | None => query_attempts remaining' (S attempt) cleaned_query
      end
  end.

(** [embed_query] *)
Definition embed_query (query : str) : result (list float) :=
  let cleaned_query := _clean_text query in
  if negb (truthy cleaned_query) then Raise ValueError
  else query_attempts _max_retries 0 cleaned_query.

End Service.

End Embedding.

(* ================================================================== *)
(** * app/services/retrieval_service.py *)
(* ================================================================== *)

Module Retrieval.

(** [RetrievedChunk] *)
Record RetrievedChunk : Type := mkRetrievedChunk {
  chunk_id : str;
  r_content : str;
  r_section_title : option str;
  r_chunk_index : nat;
  similarity_score : float;
  paper_id : option str;
  paper_filename : option str
}.

(** One row of [chunks c JOIN embeddings e ON e.chunk_id = c.id
    JOIN papers p ON p.id = c.paper_id]: the columns the statement reads.
    [embedding] is a [float8[]] column, so its elements are IEEE binary64
    numbers, which is what [float] is. *)
Record Candidate : Type := mkCandidate {
  c_id : str;
  c_content : str;
  c_section_title : option str;
  c_chunk_index : nat;
  c_paper_id : str;
  c_filename : str;
  embedding : list float
}.

(** ** The SQL expression [similarity]

    SQL's NULL is [None].  The model describes the rows the statement
    returns when it completes; PostgreSQL aborts a statement whose float
    arithmetic overflows or underflows instead of returning rows. *)

(** [SUM(x)] over a set of rows: NULL over no rows, otherwise the running
    sum started from the first value. *)
Definition sql_sum (xs : list float) : option float :=
  match xs with
  | [] => None
  | x :: xs' => Some (fold_left PrimFloat.add xs' x)
  end.

(** [SELECT SUM(a * b) FROM unnest(e.embedding, vec) AS t(a, b)]:
    [unnest] pads the shorter array with NULLs, [a * b] is then NULL and
    [SUM] skips it, so only the common prefix counts. *)
Definition dot_product (e q : list float) : option float :=
  sql_sum (map (fun p => PrimFloat.mul (fst p) (snd p)) (combine e q)).

(** [SELECT SUM(a * a) FROM unnest(v) AS t(a)] *)
Definition sum_squares (v : list float) : option float :=
  sql_sum (map (fun a => PrimFloat.mul a a) v).

(** [sqrt(SUM(a * a)) * sqrt(SUM(b * b))], the denominator. *)
Definition magnitude_product (e q : list float) : option float :=
  match sum_squares e, sum_squares q with
  | Some x, Some y => Some (PrimFloat.mul (PrimFloat.sqrt x) (PrimFloat.sqrt y))
  | _, _ => None
  end.

(** [NULLIF(x, 0)] *)
Definition nullif_zero (x : option float) : option float :=
  match x with
  | Some m => if PrimFloat.eqb m 0%float then None else Some m
  | None => None
  end.

(** The column [similarity]: division is NULL when either side is. *)
Definition similarity (e q : list float) : option float :=
  match dot_product e q, nullif_zero (magnitude_product e q) with
  | Some d, Some m => Some (PrimFloat.div d m)
  | _, _ => None
  end.

(** [{paper_filter}]: ["WHERE c.paper_id = :paper_id" if paper_id else ""];
    an empty string is falsy. *)
Definition paper_filter (paper : option str) (c : Candidate) : bool :=
  match paper with
  | Some (x :: p) => if list_eq_dec ascii_dec (c_paper_id c) (x :: p) then true else false
  | _ => true
  end.

(** The rows of the CTE [similarities] that pass
    [WHERE similarity IS NOT NULL], in table order. *)
Fixpoint not_null (q : list float) (cs : list Candidate)
  : list (Candidate * float) :=
  match cs with
  | [] => []
  | c :: cs' =>
      match similarity (embedding c) q with
      | Some sim => (c, sim) :: not_null q cs'
      | None => not_null q cs'
      end
  end.

Definition valid_rows (table : list Candidate) (q : list float)
           (paper : option str) : list (Candidate * float) :=
  not_null q (filter (paper_filter paper) table).

(** PostgreSQL's order on [float8]: the IEEE order, with NaN equal to
    itself and above every other value.  [float_ge x y] is [x >= y]. *)
Definition float_ge (x y : float) : bool :=
  if PrimFloat.is_nan x then true
  else if PrimFloat.is_nan y then false
  else PrimFloat.leb y x.

(** [ORDER BY similarity DESC]: each row is at least every later row. *)
Definition ordered_desc (rows : list (Candidate * float)) : Prop :=
  StronglySorted (fun a b => float_ge (snd a) (snd b) = true) rows.

(** What the statement may return: the valid rows in some order that
    [ORDER BY similarity DESC] allows, cut by [LIMIT :top_k].  The
    statement names no second sort key, so rows of equal similarity may
    come in any order. *)
Definition sql_rows (table : list Candidate) (q : list float) (top_k : nat)
           (paper : option str) (rows : list (Candidate * float)) : Prop :=
  exists sorted,
    Permutation sorted (valid_rows table q paper)
    /\ ordered_desc sorted
    /\ rows = firstn top_k sorted.

(** One order that the statement allows, the one in which an earlier row
    stays before a later row of equal similarity: insertion from the
    right, a row going in front of the first row it is at least equal to. *)
Fixpoint insert_desc (row : Candidate * float) (sorted : list (Candidate * float))
  : list (Candidate * float) :=
  match sorted with
  | [] => [row]
  | r :: rest =>
      if float_ge (snd row) (snd r) then row :: sorted
      else r :: insert_desc row rest
  end.

Definition order_by_desc (rows : list (Candidate * float))
  : list (Candidate * float) :=
  fold_right insert_desc [] rows.

(** The rows returned under that order. *)
Definition stable_rows (table : list Candidate) (q : list float) (top_k : nat)
           (paper : option str) : list (Candidate * float) :=
  firstn top_k (order_by_desc (valid_rows table q paper)).

(** The loop [for row in result] building [RetrievedChunk]s. *)
Definition to_chunk (row : Candidate * float) : RetrievedChunk :=
  let '(c, sim) := row in
  mkRetrievedChunk (c_id c) (c_content c) (c_section_title c)
                   (c_chunk_index c) sim
                   (Some (c_paper_id c)) (Some (c_filename c)).

(** [_vector_search]: [chunks] is a list the method may return. *)
Definition _vector_search (table : list Candidate) (query_vector : list float)
           (top_k : nat) (paper : option str)
           (chunks : list RetrievedChunk) : Prop :=
  exists rows, sql_rows table query_vector top_k paper rows
               /\ chunks = map to_chunk rows.

(** [settings.top_k_chunks], 5 unless the environment says otherwise. *)
Definition default_top_k : nat := 5.

(** [retrieve_chunks]: [out] is an outcome the method may have.  The
    query is embedded first; an exception of [embed_query] is not caught. *)
Definition retrieve_chunks (embed_content : nat -> str -> option (list float))
           (top_k_chunks : nat) (table : list Candidate)
           (query : str) (paper : option str) (top_k : option nat)
           (out : result (list RetrievedChunk)) : Prop :=
  let k := Chunking.int_or top_k top_k_chunks in
  match Embedding.embed_query embed_content query with
  | Raise e => out = Raise e
  | Return query_embedding =>
      exists chunks, _vector_search table query_embedding k paper chunks
                     /\ out = Return chunks
  end.

End Retrieval.

(* ================================================================== *)
(** * app/services/embedding_service.py: embedding documents *)
(* ================================================================== *)

Module EmbeddingDocs.
Import Embedding.

(** [range(0, stop, step)] for a positive [step]. *)
Definition range_step (stop step : nat) : list nat :=
  map (fun j => j * step) (seq 0 ((stop + step - 1) / step)).

(** [batch_size = 10] *)
Definition batch_size : nat := 10.

Section Service.

(** [self._embedding_dim], from [settings.embedding_dimensions]. *)
Variable embedding_dim : nat.

(** [genai.embed_content(model=..., content=..., task_type="retrieval_document")].
    The first argument is the number of calls made to the API so far.
    With a list as content the reply's ["embedding"] is a list of
    vectors, with a string it is one vector; [None] stands for a call
    that raises or a reply without ["embedding"]. *)
Variable embed_documents : nat -> list str -> option (list (list float)).
Variable embed_document : nat -> str -> option (list float).

(** [[0.0] * self._embedding_dim] *)
Definition zero_vector : list float := repeat 0%float embedding_dim.

(** [_embed_with_retry]: [for attempt in range(self._max_retries)], with
    [remaining] attempts left and [calls] API calls made so far.  The
    result comes with the number of calls made afterwards. *)
Fixpoint retry_from (remaining calls : nat) (text : str)
  : result (list float) * nat :=
  match remaining with
  | O => (Raise RuntimeError, calls)
  | S remaining' =>
      match embed_document calls text with
      | Some embedding => (Return embedding, S calls)
      | None => retry_from remaining' (S calls) text
      end
  end.

Definition _embed_with_retry (calls : nat) (text : str)
  : result (list float) * nat :=
  retry_from _max_retries calls text.

(** One iteration of the fallback loop [for text in batch]; the state is
    [(all_embeddings, calls)]. *)
Definition fallback_step (st : list (list float) * nat) (text : str)
  : list (list float) * nat :=
  let '(all_embeddings, calls) := st in
  if negb (truthy text) then (all_embeddings ++ [zero_vector], calls)
  else
    match _embed_with_retry calls text with
    | (Return emb, calls') => (all_embeddings ++ [emb], calls')
    | (Raise _, calls') => (all_embeddings ++ [zero_vector], calls')
    end.

(** One iteration of [for i in range(0, len(cleaned_texts), batch_size)]:
    the batch call, and on its failure the fallback, text by text. *)
Definition batch_step (cleaned_texts : list str)
           (st : list (list float) * nat) (i : nat)
  : list (list float) * nat :=
  let '(all_embeddings, calls) := st in
  (* cleaned_texts[i : i + batch_size] *)
  let batch := firstn batch_size (skipn i cleaned_texts) in
  let valid_batch := map (fun t => if truthy t then t else s " ") batch in
  match embed_documents calls valid_batch with
  | Some batch_embeddings => (all_embeddings ++ batch_embeddings, S calls)
  | None => fold_left fallback_step batch (all_embeddings, S calls)
  end.

(** [embed_batch], started after [calls] API calls: the embeddings and
    the number of calls made afterwards.  Every exception is caught
    inside the loop, so the method returns. *)
Definition embed_batch (calls : nat) (texts : list str)
  : list (list float) * nat :=
  match texts with
  | [] => ([], calls)
  | _ =>
      let cleaned_texts := map _clean_text texts in
      fold_left (batch_step cleaned_texts)
                (range_step (length cleaned_texts) batch_size)
                ([], calls)
  end.

(** [embed_text]: [embed_batch([text])[0]]; [None] is the [IndexError]
    of indexing an empty list. *)
Definition embed_text (calls : nat) (text : str) : option (list float) * nat :=
  let '(embeddings, calls') := embed_batch calls [text] in
  (nth_error embeddings 0, calls').

End Service.

End EmbeddingDocs.

(* ================================================================== *)
(** * app/pages/2_..._Ask_Questions.py: the answer cache gate *)
(* ================================================================== *)

Module AskQuestions.
Import Retrieval.

(** A row of the table [query_cache] (the [id] is a fresh [uuid4()] and
    [created_at] a time stamp; neither is read back). *)
Record QueryCache : Type := mkQueryCache {
  qc_paper_id : str;
  question : str;
  answer : str;
  chunk_refs : list str * list str      (* {"chunk_ids": ..., "paper_ids": ...} *)
}.

(** [generation_service.Answer] *)
Record Answer : Type := mkAnswer {
  text : str;
  a_chunk_ids : list str;
  confidence : str
}.

(** An element of the list under ["chunks"] in the reply. *)
Record Source : Type := mkSource {
  src_section : option str;
  src_content : str;
  src_score : float;
  src_paper : option str
}.

(** The dict that [answer_question] returns. *)
Record Reply : Type := mkReply {
  reply_answer : str;
  cached : bool;
  reply_confidence : str;
  reply_chunks : list Source
}.

(** The state the page works on: the table, and how many times each of
    the three services has been invoked so far. *)
Record World : Type := mkWorld {
  query_cache : list QueryCache;
  retrievals : nat;          (* calls of retrieval_service.retrieve_chunks *)
  compressions : nat;        (* calls of compression_service.compress_context *)
  generations : nat          (* calls of generation_service.answer_question *)
}.

(** Computations on the world that may raise. *)
Definition M (A : Type) : Type := World -> result A * World.

Definition ret {A} (a : A) : M A := fun w => (Return a, w).

Definition throw {A} (e : exn) : M A := fun w => (Raise e, w).

Definition bind {A B} (m : M A) (k : A -> M B) : M B :=
  fun w =>
    match m w with
    | (Return a, w') => k a w'
    | (Raise e, w') => (Raise e, w')
    end.

Notation "x <- m ;; k" := (bind m (fun x => k))
  (at level 61, m at next level, right associativity).
Notation "m ;;; k" := (bind m (fun _ => k))
  (at level 61, right associativity).

Definition str_eqb (a b : str) : bool :=
  if list_eq_dec ascii_dec a b then true else false.

(** [select(QueryCache).where(QueryCache.question == question)] *)
Definition rows_for (q : str) (table : list QueryCache) : list QueryCache :=
  filter (fun r => str_eqb (question r) q) table.

(** [get_cached_answer]: [scalar_one_or_none()] gives the row when exactly
    one matches, [None] when none does, and raises [MultipleResultsFound]
    when several do.  The result is the dict's [(answer, paper_id)]. *)
Definition get_cached_answer (q : str) : M (option (str * str)) :=
  fun w =>
    match rows_for q (query_cache w) with
    | [] => (Return None, w)
    | [row] => (Return (Some (answer row, qc_paper_id row)), w)
    | _ :: _ :: _ => (Raise MultipleResultsFound, w)
    end.

(** [cache_answer]: one more row, always added (there is no look-up
    first).  [paper_id] is declared [nullable=False], so the commit fails
    when there is no paper id to store. *)
Definition cache_answer (q ans : str) (chunk_ids paper_ids : list str) : M unit :=
  fun w =>
    match paper_ids with
    | [] => (Raise IntegrityError, w)
    | primary :: _ =>
        (Return tt,
         mkWorld (query_cache w ++ [mkQueryCache primary q ans (chunk_ids, paper_ids)])
                 (retrievals w) (compressions w) (generations w))
    end.

Section Page.

(** The services, as the page sees them.  The first argument is the
    number of earlier invocations, so that a service may answer the same
    request differently each time. *)

(** [retrieval_service.retrieve_chunks(question)] *)
Variable retrieve : nat -> str -> result (list RetrievedChunk).

(** [compression_service.compress_context(chunk_contents, question)]:
    it catches every exception and falls back to the plain context. *)
Variable compress : nat -> list str -> str -> str.

(** [generation_service.answer_question(context, question, chunk_ids)]:
    it catches every exception and answers with an apology. *)
Variable generate : nat -> str -> str -> list str -> Answer.

Definition call_retrieve (q : str) : M (list RetrievedChunk) :=
  fun w =>
    (retrieve (retrievals w) q,
     mkWorld (query_cache w) (S (retrievals w)) (compressions w) (generations w)).

Definition call_compress (chunks : list str) (q : str) : M str :=
  fun w =>
    (Return (compress (compressions w) chunks q),
     mkWorld (query_cache w) (retrievals w) (S (compressions w)) (generations w)).

Definition call_generate (context q : str) (chunk_ids : list str) : M Answer :=
  fun w =>
    (Return (generate (generations w) context q chunk_ids),
     mkWorld (query_cache w) (retrievals w) (compressions w) (S (generations w))).

Definition not_found_answer : str :=
  s "I couldn't find relevant information in any of your uploaded papers to answer this question. Please make sure you have uploaded relevant documents.".

(** [c.paper_id for c in retrieved_chunks if c.paper_id] *)
Fixpoint truthy_paper_ids (cs : list RetrievedChunk) : list str :=
  match cs with
  | [] => []
  | c :: cs' =>
      match paper_id c with
      | Some (x :: p) => (x :: p) :: truthy_paper_ids cs'
      | _ => truthy_paper_ids cs'
      end
  end.

(** [answer_question].  [list(set(...))] is modelled by [nodup]: Python
    leaves the order of a set open, and only the first element, stored as
    the row's [paper_id], depends on it. *)
Definition answer_question (q : str) : M Reply :=
  hit <- get_cached_answer q ;;
  match hit with
  | Some (ans, _) => ret (mkReply ans true (s "high") [])
  | None =>
      retrieved_chunks <- call_retrieve q ;;
      match retrieved_chunks with
      | [] => ret (mkReply not_found_answer false (s "low") [])
      | _ =>
          let chunk_contents := map r_content retrieved_chunks in
          let chunk_ids := map chunk_id retrieved_chunks in
          let paper_ids :=
            nodup (list_eq_dec ascii_dec) (truthy_paper_ids retrieved_chunks) in
          compressed_context <- call_compress chunk_contents q ;;
          ans <- call_generate compressed_context q chunk_ids ;;
          cache_answer q (text ans) chunk_ids paper_ids ;;;
          ret (mkReply (text ans) false (confidence ans)
                       (map (fun c => mkSource (r_section_title c) (r_content c)
                                               (similarity_score c) (paper_filename c))
                            retrieved_chunks))
      end
  end.

End Page.

(** An empty table and no invocation yet. *)
Definition fresh : World := mkWorld [] 0 0 0.

End AskQuestions.

(* ================================================================== *)
(** * app/services/generation_service.py *)
(* ================================================================== *)

Module Generation.
Import AskQuestions.

(** [c.lower()] for one character: in the Latin-1 range the upper-case
    letters are A-Z and the accented capitals 192-214 and 216-222, each
    32 below its lower-case form. *)
Definition lower_char (c : ascii) : ascii :=
  if in_range 65 90 c || in_range 192 214 c || in_range 216 222 c
  then ascii_of_nat (code c + 32)
  else c.

(** [s.lower()] *)
Definition lower_str (x : str) : str := map lower_char x.

(** [x.startswith(p)] *)
Fixpoint starts_with (p x : str) : bool :=
  match p, x with
  | [], _ => true
  | a :: p', b :: x' => Ascii.eqb a b && starts_with p' x'
  | _ :: _, [] => false
  end.

(** [p in x] for strings. *)
Fixpoint contains (p x : str) : bool :=
  starts_with p x
  || match x with
     | [] => false
     | _ :: x' => contains p x'
     end.

Definition not_found_phrases : list str :=
  [ s "not present"; s "not found"; s "not mentioned"; s "does not contain";
    s "no information"; s "cannot find"; s "not explicitly"; s "not stated" ].

Definition uncertain_phrases : list str :=
  [ s "may"; s "might"; s "possibly"; s "it seems"; s "appears to";
    s "unclear"; s "not certain" ].

(** [_assess_confidence] *)
Definition _assess_confidence (answer : str) : str :=
  let lower_answer := lower_str answer in
  if existsb (fun phrase => contains phrase lower_answer) not_found_phrases
  then s "not_found"
  else if existsb (fun phrase => contains phrase lower_answer) uncertain_phrases
  then s "medium"
  else s "high".

(** The double quote character. *)
Definition dq : ascii := ascii_of_nat 34.

(** [_build_qa_prompt]: the template with the context and the question
    put in. *)
Definition _build_qa_prompt (context question : str) : str :=
  s "You are an expert academic paper analyst. Answer the following question based ONLY on the provided context from an academic paper."
  ++ [nl; nl]
  ++ s "IMPORTANT INSTRUCTIONS:" ++ [nl]
  ++ s "1. Only use information explicitly stated in the context" ++ [nl]
  ++ s "2. If the answer is not found in the context, clearly state "
  ++ [dq] ++ s "This information is not present in the provided paper sections."
  ++ [dq] ++ [nl]
  ++ s "3. Be precise and technically accurate" ++ [nl]
  ++ s "4. Cite specific parts of the context when relevant" ++ [nl]
  ++ s "5. Do not make up or hallucinate any information" ++ [nl; nl]
  ++ s "CONTEXT FROM PAPER:" ++ [nl]
  ++ context ++ [nl; nl]
  ++ s "QUESTION: " ++ question ++ [nl; nl]
  ++ s "ANSWER:".

Definition apology : str :=
  s "I apologize, but I encountered an error generating a response: ".

(** [answer_question].  [generate_content] stands for
    [self._model.generate_content(prompt, ...)] followed by
    [response.text]: the text, or the message of the exception raised. *)
Definition answer_question (generate_content : str -> str + str)
           (context question : str) (chunk_ids : list str) : Answer :=
  let prompt := _build_qa_prompt context question in
  match generate_content prompt with
  | inl response_text =>
      let answer_text := strip response_text in
      mkAnswer answer_text chunk_ids (_assess_confidence answer_text)
  | inr e => mkAnswer (apology ++ e) chunk_ids (s "not_found")
  end.

End Generation.

(* ================================================================== *)
(** * app/pages/3_..._View_Summaries.py: the summary cache *)
(* ================================================================== *)

Module Summaries.
Import AskQuestions.

(** A row of the table [summaries] (without [id] and [created_at]). *)
Record Summary : Type := mkSummary {
  sm_paper_id : str;
  summary_type : str;
  sm_content : str
}.

(** [Summary.paper_id == paper_id, Summary.summary_type == summary_type] *)
Definition is_for (paper type : str) (r : Summary) : bool :=
  str_eqb (sm_paper_id r) paper && str_eqb (summary_type r) type.

(** [get_cached_summary]: like the look-up of the answer cache, through
    [scalar_one_or_none()]. *)
Definition get_cached_summary (paper type : str) (table : list Summary)
  : result (option str) :=
  match filter (is_for paper type) table with
  | [] => Return None
  | [cached] => Return (Some (sm_content cached))
  | _ :: _ :: _ => Raise MultipleResultsFound
  end.

(** [save_summary]: the row found is given the new content in place;
    without a row, one is added.  The result comes with the table after
    the commit.  The page calls it with the id of a paper read from the
    table of papers and with one of its three types, so the foreign key
    and the [String(50)] of the two columns hold and are not modelled. *)
Definition save_summary (paper type content : str) (table : list Summary)
  : result unit * list Summary :=
  match filter (is_for paper type) table with
  | [] => (Return tt, table ++ [mkSummary paper type content])
  | [_] =>
      (Return tt,
       map (fun r => if is_for paper type r
                     then mkSummary (sm_paper_id r) (summary_type r) content
                     else r)
           table)
  | _ :: _ :: _ => (Raise MultipleResultsFound, table)
  end.

End Summaries.

(* ================================================================== *)
(** * app/pages/1_..._Upload_Papers.py: chunks and their embeddings *)
(* ================================================================== *)

Module Upload.
Import Chunking EmbeddingDocs.

(** The part of [process_pdf] between the text extraction and the
    commit: the text is chunked with the default sizes, the contents are
    embedded in one [embed_batch], and the loop over
    [zip(chunks, embeddings)] adds a chunk row and an embedding row for
    each pair.  The result is the list of pairs added. *)
Definition process_pdf (count_tokens : str -> nat) (settings : Settings)
           (embedding_dim : nat)
           (embed_documents : nat -> list str -> option (list (list float)))
           (embed_document : nat -> str -> option (list float))
           (raw_text : str) : list (ChunkData * list float) :=
  let chunks := chunk_text count_tokens settings raw_text None None in
  let chunk_texts := map content chunks in
  let embeddings :=
    fst (embed_batch embedding_dim embed_documents embed_document 0 chunk_texts) in
  combine chunks embeddings.

End Upload.

(* ================================================================== *)
(** * The vocabulary of the statements *)
(* ================================================================== *)

Module Terms.
Import Re Chunking Retrieval AskQuestions.

(** No white space at the left end. *)
Definition starts_ink (x : str) : Prop :=
  match x with
  | [] => True
  | c :: _ => is_space c = false
  end.

(** No white space at the right end. *)
Definition ends_ink (x : str) : Prop := starts_ink (rev x).

(** The least number of characters a match of [r] takes. *)
Fixpoint min_len (r : regex) : nat :=
  match r with
  | Cls _ => 1
  | Seq r1 r2 => min_len r1 + min_len r2
  | Alt r1 r2 => Nat.min (min_len r1) (min_len r2)
  | Eps | Opt _ | Star _ | Bol | Eol | Behind _ | Ahead _ => 0
  end.

(** A word of [split]: non-empty, no white space. *)
Definition is_word (w : str) : Prop :=
  w <> [] /\ forallb (fun c => negb (is_space c)) w = true.

(** A sentence of [_split_sentences]: non-empty and stripped. *)
Definition is_piece (x : str) : Prop := x <> [] /\ strip x = x.

(** The sum of the token counts of the pieces of a buffer, each counted
    on its own. *)
Definition counted (count_tokens : str -> nat) (buf : list str) : nat :=
  list_sum (map count_tokens buf).

(** The invariants of the two loops of [_split_by_tokens]: [Q] holds of
    every chunk made so far and [B] of the buffer with its token total. *)
Definition word_inv (Q : ChunkData -> Prop) (B : list str -> nat -> Prop)
           (st : WordLoop) : Prop :=
  Forall Q (w_chunks st) /\ B (word_chunk st) (word_tokens st).

Definition sentence_inv (Q : ChunkData -> Prop) (B : list str -> nat -> Prop)
           (st : SentenceLoop) : Prop :=
  Forall Q (chunks st) /\ B (current_chunk st) (current_tokens st).

(** A chunk made of one word that the word-level fallback could not
    divide: the word, followed by a space as the fallback counts it, is
    already over the chunk size. *)
Definition word_overflow (count_tokens : str -> nat) (chunk_size : nat)
           (c : ChunkData) : Prop :=
  exists w, is_word w
            /\ chunk_size < count_tokens (w ++ s " ")
            /\ content c = w
            /\ token_count c = count_tokens w.

(** The budget as the specification words it. *)
Definition within_budget (count_tokens : str -> nat) (chunk_size : nat)
           (c : ChunkData) : Prop :=
  token_count c <= chunk_size \/ word_overflow count_tokens chunk_size c.

(** A piece of a buffer and the count that the loop adds for it to its
    running total: a sentence, or a piece kept as overlap, is counted on
    its own, a word of the word-level fallback followed by a space. *)
Definition priced (count_tokens : str -> nat) (p : str) (k : nat) : Prop :=
  is_piece p
  /\ (k = count_tokens p \/ k = count_tokens (p ++ s " ")).

(** What the buffer and its running total [tok] satisfy throughout
    [_split_by_tokens]: the total is the sum of the counts made for the
    pieces one by one, and it is within [chunk_size + chunk_overlap]
    unless the buffer is a single word that, counted with its space, is
    over the chunk size. *)
Definition billed (count_tokens : str -> nat) (chunk_size chunk_overlap : nat)
           (buf : list str) (tok : nat) : Prop :=
  (exists costs, Forall2 (priced count_tokens) buf costs /\ tok = list_sum costs)
  /\ (tok <= chunk_size + chunk_overlap
      \/ exists w, buf = [w] /\ is_word w
                   /\ chunk_size < count_tokens (w ++ s " ")).

(** The budget that the code keeps.  A chunk is a section that fits, with
    its count within the chunk size; or it is a flushed buffer: its
    content and its count are those of the pieces joined by single
    spaces, and what is within [chunk_size + chunk_overlap] is the running
    total of the pieces. *)
Definition budgeted (count_tokens : str -> nat) (chunk_size chunk_overlap : nat)
           (c : ChunkData) : Prop :=
  token_count c <= chunk_size
  \/ exists buf tok,
       buf <> []
       /\ content c = strip (join (s " ") buf)
       /\ token_count c = count_tokens (join (s " ") buf)
       /\ billed count_tokens chunk_size chunk_overlap buf tok.

(** Each span starts at or after [from] and at or after the end of the
    span before it. *)
Fixpoint chained (from : nat) (spans : list (nat * nat)) : Prop :=
  match spans with
  | [] => True
  | (a, b) :: spans' => from <= a /\ a <= b /\ chained b spans'
  end.

(** The matched substrings. *)
Definition matched (text : str) (spans : list (nat * nat)) : list str :=
  map (fun ab => slice text (fst ab) (snd ab)) spans.

(** [gap0 ++ match0 ++ gap1 ++ match1 ++ ... ++ gapN] *)
Fixpoint weave (gaps matches : list str) : str :=
  match gaps with
  | [] => []
  | g :: gaps' =>
      g ++ match matches with
           | [] => List.concat gaps'
           | m :: matches' => m ++ weave gaps' matches'
           end
  end.

(** The text outside the headings. *)
Definition non_heading_content (text : str) : str :=
  List.concat (pieces text 0 (finditer header_regex text)).

(** The bodies that the detector returns, concatenated in order. *)
Definition bodies (text : str) : str :=
  List.concat (map snd (_detect_sections text)).

(** [float_ge] on the specification floats behind the primitive ones. *)
Definition sf_ge (a b : spec_float) : bool :=
  if negb (SFeqb a a) then true
  else if negb (SFeqb b b) then false
  else SFleb b a.

End Terms.

(* ================================================================== *)
(** * Example data *)
(* ================================================================== *)

Module Examples.
Import Re Chunking Retrieval AskQuestions.

(** A small stand-in tokenizer.

    Used only to run the chunker on concrete inputs: one token per
    character that is not white space.  It is additive over
    concatenation, gives 0 on the empty string, and never counts the
    spaces that [join] inserts. *)
Definition ink_count (x : str) : nat :=
  length (filter (fun c => negb (is_space c)) x).

(** Three sentences of 3 tokens each, chunk size 5, overlap 4. *)
Definition three_sentences : str := s "A b. C d. E f.".

(** The example document of the specification. *)
Definition two_sections : str :=
  s "Abstract" ++ [nl] ++ s "Short summary." ++ [nl; nl]
  ++ s "1. Introduction" ++ [nl]
  ++ s "Long intro sentence one. Long intro sentence two.".

(** The two candidates of the specification's example. *)
Definition cand_A : Candidate :=
  mkCandidate (s "A") (s "first chunk") None 0 (s "paper") (s "paper.pdf")
              [1%float; 0%float].
Definition cand_B : Candidate :=
  mkCandidate (s "B") (s "second chunk") None 1 (s "paper") (s "paper.pdf")
              [0%float; 0%float].

(** Two candidates with the same embedding, so the same similarity. *)
Definition cand_A' : Candidate :=
  mkCandidate (s "A2") (s "third chunk") None 2 (s "paper") (s "paper.pdf")
              [1%float; 0%float].

(** A retrieved chunk and the two services used in the examples. *)
Definition one_chunk : RetrievedChunk :=
  mkRetrievedChunk (s "c1") (s "Some content.") None 0 1%float
                   (Some (s "p1")) (Some (s "paper.pdf")).

Definition echo_compress (_ : nat) (chunks : list str) (_ : str) : str :=
  join (s " ") chunks.

Definition echo_generate (_ : nat) (context _ : str) (ids : list str) : Answer :=
  mkAnswer context ids (s "high").

(** Two rows for the same question, as two concurrent misses leave them. *)
Definition twice_cached : World :=
  mkWorld [ mkQueryCache (s "p1") (s "What?") (s "First answer.") ([s "c1"], [s "p1"]);
            mkQueryCache (s "p1") (s "What?") (s "Second answer.") ([s "c1"], [s "p1"]) ]
          2 2 2.

End Examples.
Import Terms Examples.

(* ================================================================== *)
(** * More vocabulary: chunk numbering, coverage, overlap *)
(* ================================================================== *)

Module MoreTerms.
Import Re Chunking Retrieval AskQuestions Terms.

(** [x in y] for strings: [x] occurs in [y] as a contiguous run. *)
Definition infix (x y : str) : Prop := exists p q, y = p ++ x ++ q.

(** The chunks are numbered [start], [start + 1], ... in order, and
    [next] is the number the next chunk will get. *)
Definition numbered (start : nat) (cs : list ChunkData) (next : nat) : Prop :=
  map chunk_index cs = seq start (length cs) /\ next = start + length cs.

(** One chunk per section, whole: what [chunk_text] returns when no
    section needs splitting. *)
Fixpoint whole_chunks (count_tokens : str -> nat) (start : nat)
         (sections : list (option str * str)) : list ChunkData :=
  match sections with
  | [] => []
  | (title, body) :: rest =>
      mkChunkData (strip body) title start (count_tokens body)
      :: whole_chunks count_tokens (S start) rest
  end.

(** The titles of the sections, the title of the i-th repeated as many
    times as the i-th count says. *)
Fixpoint titles_repeated (sections : list (option str * str)) (counts : list nat)
  : list (option str) :=
  match sections, counts with
  | (title, _) :: sections', n :: counts' =>
      repeat title n ++ titles_repeated sections' counts'
  | _, _ => []
  end.

(** The characters of a text that are not white space, in order. *)
Definition ink (x : str) : str := filter (fun c => negb (is_space c)) x.

(** Some chunk of [cs] contains [x]. *)
Definition covered (cs : list ChunkData) (x : str) : Prop :=
  exists c, In c cs /\ infix x (content c).

(** [x] is in a chunk already, or waits in the buffer. *)
Definition held_w (st : WordLoop) (x : str) : Prop :=
  covered (w_chunks st) x \/ In x (word_chunk st).

Definition held (st : SentenceLoop) (x : str) : Prop :=
  covered (chunks st) x \/ In x (current_chunk st).

(** What a sentence asks for: [H] of the sentence, or, for a sentence
    over the chunk size, [H] of each of its words. *)
Definition wanted (count_tokens : str -> nat) (chunk_size : nat)
           (H : str -> Prop) (x : str) : Prop :=
  if chunk_size <? count_tokens x then Forall H (PyStr.split x) else H x.

(** Every character that a match of [r] takes is in the class [P]. *)
Fixpoint classes_within (P : ascii -> bool) (r : regex) : Prop :=
  match r with
  | Cls p | Star p => forall c, p c = true -> P c = true
  | Seq r1 r2 | Alt r1 r2 => classes_within P r1 /\ classes_within P r2
  | Opt r1 => classes_within P r1
  | Eps | Bol | Eol | Behind _ | Ahead _ => True
  end.

(** No question has two rows in the table. *)
Definition unique_questions (table : list QueryCache) : Prop :=
  forall q, length (rows_for q table) <= 1.

(** The questions asked one after the other; only the world is kept. *)
Fixpoint ask_all (retrieve : nat -> str -> result (list RetrievedChunk))
         (compress : nat -> list str -> str -> str)
         (generate : nat -> str -> str -> list str -> Answer)
         (questions : list str) (w : World) : World :=
  match questions with
  | [] => w
  | q :: rest =>
      ask_all retrieve compress generate rest
              (snd (answer_question retrieve compress generate q w))
  end.

(** A float that is neither an infinity nor a NaN. *)
Definition finite_float (z : float) : bool :=
  match Prim2SF z with
  | S754_zero _ | S754_finite _ _ _ => true
  | S754_infinity _ | S754_nan => false
  end.

(** A candidate without an embedding, for the examples. *)
Definition cand_empty : Candidate :=
  mkCandidate (s "E") (s "no vector") None 3 (s "other") (s "other.pdf") [].

(** How much doubt a confidence label of [_assess_confidence]
    expresses: "not_found" most, "high" none. *)
Definition doubt (label : str) : nat :=
  if str_eqb label (s "not_found") then 2
  else if str_eqb label (s "medium") then 1
  else 0.

(** The sentence the question prompt tells the model to answer with when
    the context has no answer. *)
Definition instructed_sentence : str :=
  s "This information is not present in the provided paper sections.".

(** No paper has two summaries of one type in the table. *)
Definition unique_summaries (table : list Summaries.Summary) : Prop :=
  forall paper type, length (filter (Summaries.is_for paper type) table) <= 1.

(** Summaries saved one after the other, each given as
    [(paper_id, summary_type, content)]; only the table is kept. *)
Fixpoint save_all (saves : list (str * str * str))
         (table : list Summaries.Summary) : list Summaries.Summary :=
  match saves with
  | [] => table
  | (paper, type, content) :: rest =>
      save_all rest (snd (Summaries.save_summary paper type content table))
  end.

(** The content of the last save for the paper and the type, if any. *)
Fixpoint last_saved (paper type : str) (saves : list (str * str * str))
  : option str :=
  match saves with
  | [] => None
  | (paper', type', content) :: rest =>
      match last_saved paper type rest with
      | Some later => Some later
      | None =>
          if str_eqb paper' paper && str_eqb type' type then Some content
          else None
      end
  end.

(** An API for the examples that answers every batch with one vector
    per text. *)
Definition unit_batch_api (_ : nat) (batch : list str)
  : option (list (list float)) :=
  Some (map (fun _ => [1%float]) batch).

End MoreTerms.
Import MoreTerms.

(* ================================================================== *)
(** * Facts about Python strings *)
(* ================================================================== *)

Module PyStrFacts.

Lemma lstrip_split (x : str) :
  exists p, x = p ++ lstrip x /\ forallb is_space p = true.
Proof.
  induction x as [|c x IH]; simpl.
  - exists []. split; reflexivity.
  - destruct (is_space c) eqn:E.
    + destruct IH as [p [Hx Hp]]. exists (c :: p). simpl.
      rewrite E, Hp. split; [now f_equal | reflexivity].
    + exists []. split; reflexivity.
Qed.

Lemma lstrip_starts (x : str) : starts_ink (lstrip x).
Proof.
  induction x as [|c x IH]; simpl; [exact I|].
  destruct (is_space c) eqn:E; [exact IH | exact E].
Qed.

Lemma starts_lstrip (x : str) : starts_ink x -> lstrip x = x.
Proof.
  destruct x as [|c x]; simpl; [reflexivity|]. intros ->. reflexivity.
Qed.

Lemma lstrip_idem (x : str) : lstrip (lstrip x) = lstrip x.
Proof. apply starts_lstrip, lstrip_starts. Qed.

Lemma lstrip_spaces (p : str) : forallb is_space p = true -> lstrip p = [].
Proof.
  induction p as [|c p IH]; simpl; [reflexivity|].
  intros H. apply andb_true_iff in H as [-> Hp]. auto.
Qed.

Lemma rstrip_split (x : str) :
  exists q, x = rstrip x ++ q /\ forallb is_space q = true.
Proof.
  destruct (lstrip_split (rev x)) as [p [Hx Hp]].
  exists (rev p). split.
  - unfold rstrip. rewrite <- rev_app_distr, <- Hx, rev_involutive. reflexivity.
  - rewrite forallb_forall in *. intros c Hc. apply Hp, in_rev, Hc.
Qed.

Lemma rstrip_ends (x : str) : ends_ink (rstrip x).
Proof.
  unfold ends_ink, rstrip. rewrite rev_involutive. apply lstrip_starts.
Qed.

Lemma ends_rstrip (x : str) : ends_ink x -> rstrip x = x.
Proof.
  unfold ends_ink, rstrip. intros H.
  rewrite (starts_lstrip _ H). apply rev_involutive.
Qed.

Lemma rstrip_keeps_start (x : str) : starts_ink x -> starts_ink (rstrip x).
Proof.
  intros H. destruct (rstrip_split x) as [q [Hx _]].
  destruct (rstrip x) as [|c y] eqn:E; [exact I|].
  rewrite Hx in H. exact H.
Qed.

Lemma strip_starts (x : str) : starts_ink (strip x).
Proof. apply rstrip_keeps_start, lstrip_starts. Qed.

Lemma strip_ends (x : str) : ends_ink (strip x).
Proof. apply rstrip_ends. Qed.

Lemma ink_stripped (x : str) : starts_ink x -> ends_ink x -> strip x = x.
Proof.
  intros Hs He. unfold strip. rewrite (starts_lstrip _ Hs). now apply ends_rstrip.
Qed.

Lemma stripped_ink (x : str) : strip x = x -> starts_ink x /\ ends_ink x.
Proof.
  intros H. rewrite <- H. split; [apply strip_starts | apply strip_ends].
Qed.

(** [x.strip().strip() == x.strip()] *)
Lemma strip_idem (x : str) : strip (strip x) = strip x.
Proof. apply ink_stripped; [apply strip_starts | apply strip_ends]. Qed.

Lemma strip_nil : strip [] = [].
Proof. reflexivity. Qed.

Lemma strip_spaces (p : str) : forallb is_space p = true -> strip p = [].
Proof. intros H. unfold strip. now rewrite (lstrip_spaces _ H). Qed.

(** A string without any white space is its own [strip]. *)
Lemma strip_no_space (w : str) :
  forallb (fun c => negb (is_space c)) w = true -> strip w = w.
Proof.
  intros H. rewrite forallb_forall in H.
  apply ink_stripped.
  - destruct w as [|c w]; [exact I|]. simpl.
    apply negb_true_iff, H. now left.
  - unfold ends_ink. destruct (rev w) as [|c r] eqn:E; [exact I|]. simpl.
    apply negb_true_iff, H, in_rev. rewrite E. now left.
Qed.

(** ** [join] *)

Lemma join_cons (sep p q : str) (r : list str) :
  join sep (p :: q :: r) = p ++ sep ++ join sep (q :: r).
Proof. reflexivity. Qed.

Lemma starts_ink_app (a b : str) : a <> [] -> starts_ink a -> starts_ink (a ++ b).
Proof. destruct a; [congruence | auto]. Qed.

Lemma ends_ink_app (a b : str) : b <> [] -> ends_ink b -> ends_ink (a ++ b).
Proof.
  unfold ends_ink. intros Hb H. rewrite rev_app_distr.
  apply starts_ink_app; [|exact H].
  intros E. apply Hb. apply (f_equal (@rev ascii)) in E.
  now rewrite rev_involutive in E.
Qed.

Lemma join_nonempty (sep p : str) (rest : list str) :
  p <> [] -> join sep (p :: rest) <> [].
Proof.
  intros Hp. destruct rest as [|q rest]; [exact Hp|].
  rewrite join_cons. destruct p; [congruence | discriminate].
Qed.

(** Joining non-empty stripped pieces gives a stripped string. *)
Lemma join_stripped (sep : str) (buf : list str) :
  Forall (fun x => x <> [] /\ strip x = x) buf ->
  strip (join sep buf) = join sep buf.
Proof.
  intros H. apply ink_stripped.
  - destruct buf as [|p rest]; [exact I|].
    inversion H as [|? ? [Hp Hs] _]; subst.
    destruct rest as [|q rest]; [now apply stripped_ink|].
    rewrite join_cons. apply starts_ink_app; [exact Hp | now apply stripped_ink].
  - induction buf as [|p rest IH]; [exact I|].
    inversion H as [|? ? [Hp Hs] Hrest]; subst.
    destruct rest as [|q rest]; [now apply stripped_ink|].
    rewrite join_cons, app_assoc. apply ends_ink_app; [|now apply IH].
    inversion Hrest as [|? ? [Hq _] _]; subst. now apply join_nonempty.
Qed.

(** ** [split] *)

Lemma split_from_spaces (p : str) :
  forallb is_space p = true -> split_from [] p = [].
Proof.
  induction p as [|c p IH]; simpl; [reflexivity|].
  intros H. apply andb_true_iff in H as [-> Hp]. auto.
Qed.

(** Every word of [split] is non-empty and free of white space. *)
Lemma split_from_words (x w : str) :
  forallb (fun c => negb (is_space c)) w = true ->
  Forall (fun v => v <> [] /\ forallb (fun c => negb (is_space c)) v = true)
         (split_from w x).
Proof.
  revert w. induction x as [|c x IH]; intros w Hw; simpl.
  - destruct w as [|d w]; constructor; [|constructor].
    split.
    + intros E. apply (f_equal (@rev ascii)) in E.
      rewrite rev_involutive in E. discriminate.
    + rewrite forallb_forall in *. intros a Ha. apply Hw, in_rev, Ha.
  - destruct (is_space c) eqn:E.
    + destruct w as [|d w]; [now apply IH|].
      constructor; [|now apply IH].
      split.
      * intros E'. apply (f_equal (@rev ascii)) in E'.
        rewrite rev_involutive in E'. discriminate.
      * rewrite forallb_forall in *. intros a Ha. apply Hw, in_rev, Ha.
    + apply IH. simpl. now rewrite E, Hw.
Qed.

Lemma split_words (x : str) :
  Forall (fun v => v <> [] /\ forallb (fun c => negb (is_space c)) v = true)
         (PyStr.split x).
Proof. apply split_from_words. reflexivity. Qed.

(** ** [slice] *)

Lemma slice_all (x : str) : slice x 0 (length x) = x.
Proof. unfold slice. rewrite Nat.sub_0_r. simpl. apply firstn_all. Qed.

Lemma slice_empty (x : str) (a : nat) : slice x a a = [].
Proof. unfold slice. now rewrite Nat.sub_diag. Qed.

(** [s[a:b] + s[b:] == s[a:]] when [a <= b]. *)
Lemma slice_skipn (x : str) (a b : nat) :
  a <= b -> slice x a b ++ skipn b x = skipn a x.
Proof.
  intros H. unfold slice.
  replace b with ((b - a) + a) at 2 by lia.
  rewrite <- skipn_skipn. apply firstn_skipn.
Qed.

End PyStrFacts.

(* ================================================================== *)
(** * Facts about the matcher *)
(* ================================================================== *)

Module ReFacts.
Import Re.

Lemma star_consumes (p : ascii -> bool) (rest : str) :
  forall prev k x,
  star p prev rest k = Some x ->
  exists prev' rest', k prev' rest' = Some x /\ length rest' <= length rest.
Proof.
  induction rest as [|c rest IH]; intros prev k x; simpl.
  - intros H. exists prev, []. auto.
  - destruct (p c).
    + destruct (star p (Some c) rest k) as [y|] eqn:E.
      * intros H. inversion H; subst.
        destruct (IH _ _ _ E) as [prev' [rest' [Hk Hlen]]].
        exists prev', rest'. split; [exact Hk | lia].
      * intros H. exists prev, (c :: rest). auto.
    + intros H. exists prev, (c :: rest). auto.
Qed.

(** A successful match hands to its continuation a text that is shorter
    by at least [min_len r]. *)
Lemma rmatch_consumes (r : regex) :
  forall prev rest k x,
  rmatch r prev rest k = Some x ->
  exists prev' rest',
    k prev' rest' = Some x /\ length rest' + min_len r <= length rest.
Proof.
  induction r as [|p|r1 IH1 r2 IH2|r1 IH1 r2 IH2|r1 IH1|p| | |p|p];
    intros prev rest k x; simpl.
  - intros H. exists prev, rest. split; [exact H | lia].
  - destruct rest as [|c rest]; [discriminate|].
    destruct (p c); [|discriminate].
    intros H. exists (Some c), rest. split; [exact H | simpl; lia].
  - intros H. apply IH1 in H as [p1 [t1 [H Hl1]]].
    apply IH2 in H as [p2 [t2 [H Hl2]]].
    exists p2, t2. split; [exact H | lia].
  - destruct (rmatch r1 prev rest k) as [y|] eqn:E.
    + intros H. inversion H; subst.
      apply IH1 in E as [p1 [t1 [H1 Hl1]]]. exists p1, t1. split; [exact H1 | lia].
    + intros H. apply IH2 in H as [p2 [t2 [H2 Hl2]]].
      exists p2, t2. split; [exact H2 | lia].
  - destruct (rmatch r1 prev rest k) as [y|] eqn:E.
    + intros H. inversion H; subst.
      apply IH1 in E as [p1 [t1 [H1 Hl1]]]. exists p1, t1. split; [exact H1 | lia].
    + intros H. exists prev, rest. split; [exact H | lia].
  - intros H. apply star_consumes in H as [p1 [t1 [H1 Hl1]]].
    exists p1, t1. split; [exact H1 | lia].
  - destruct (at_bol prev); [|discriminate].
    intros H. exists prev, rest. split; [exact H | lia].
  - destruct (at_eol rest); [|discriminate].
    intros H. exists prev, rest. split; [exact H | lia].
  - destruct prev as [c|]; [|discriminate]. destruct (p c); [|discriminate].
    intros H. exists (Some c), rest. split; [exact H | lia].
  - destruct rest as [|c rest]; [discriminate|]. destruct (p c); [|discriminate].
    intros H. exists prev, (c :: rest). split; [exact H | lia].
Qed.

(** A match is at least [min_len r] and at most the rest of the text long. *)
Lemma match_len_bounds (r : regex) (prev : option ascii) (rest : str) (n : nat) :
  match_len r prev rest = Some n -> min_len r <= n <= length rest.
Proof.
  unfold match_len.
  destruct (rmatch r prev rest (fun _ rest' => Some rest')) as [x|] eqn:E;
    [|discriminate].
  intros H. inversion H; subst.
  apply rmatch_consumes in E as [p1 [t1 [H1 Hl]]]. inversion H1; subst. lia.
Qed.

(** Neither pattern of the chunker matches the empty string. *)
Lemma header_match_nonempty (prev : option ascii) (rest : str) (n : nat) :
  match_len Chunking.header_regex prev rest = Some n -> 3 <= n.
Proof. intros H. apply match_len_bounds in H. exact (proj1 H). Qed.

Lemma sentence_match_nonempty (prev : option ascii) (rest : str) (n : nat) :
  match_len Chunking.sentence_endings prev rest = Some n -> 1 <= n.
Proof. intros H. apply match_len_bounds in H. exact (proj1 H). Qed.

End ReFacts.

(* ================================================================== *)
(** * Facts about the chunker *)
(* ================================================================== *)

Module ChunkingFacts.
Import Re PyStrFacts Chunking.

Lemma word_is_piece (w : str) : is_word w -> is_piece w.
Proof. intros [Hn Hw]. split; [exact Hn | now apply strip_no_space]. Qed.

Lemma truthy_nonempty (x : str) : truthy x = true <-> x <> [].
Proof. destruct x; simpl; split; intros H; congruence. Qed.

Lemma split_sentences_pieces (text : str) :
  Forall is_piece (_split_sentences text).
Proof.
  unfold _split_sentences. apply Forall_forall. intros x Hx.
  apply in_map_iff in Hx as [y [<- Hy]].
  apply filter_In in Hy as [_ Hy].
  split; [now apply truthy_nonempty | apply strip_idem].
Qed.

Lemma split_sentences_nil : _split_sentences [] = [].
Proof. reflexivity. Qed.

Lemma length_zero_nil {A} (l : list A) : (length l =? 0) = true <-> l = [].
Proof. destruct l; simpl; split; intros H; congruence. Qed.

Lemma fold_left_invariant {A B} (f : A -> B -> A) (P : A -> Prop) (R : B -> Prop)
      (l : list B) (a : A) :
  (forall a b, P a -> R b -> P (f a b)) ->
  Forall R l -> P a -> P (fold_left f l a).
Proof.
  intros Hstep. revert a. induction l as [|b l IH]; intros a Hl Ha; simpl.
  - exact Ha.
  - inversion Hl; subst. apply IH; auto.
Qed.

(** ** The overlap loop *)

Lemma overlap_loop_spec (count_tokens : str -> nat) (chunk_overlap : nat)
      (todo acc : list str) (tok : nat) :
  counted count_tokens acc = tok -> tok <= chunk_overlap ->
  let r := overlap_loop count_tokens chunk_overlap todo acc tok in
  counted count_tokens (fst r) = snd r
  /\ snd r <= chunk_overlap
  /\ (forall x, In x (fst r) -> In x todo \/ In x acc).
Proof.
  revert acc tok. induction todo as [|x todo IH]; intros acc tok Hsum Hle; simpl.
  - auto.
  - destruct (tok + count_tokens x <=? chunk_overlap) eqn:E.
    + apply Nat.leb_le in E.
      destruct (IH (x :: acc) (tok + count_tokens x)) as [H1 [H2 H3]].
      * unfold counted in *. simpl. lia.
      * exact E.
      * repeat split; auto. intros y Hy.
        destruct (H3 y Hy) as [H|[H|H]]; auto.
    + simpl. auto.
Qed.

(** ** The loops of [_split_by_tokens], against a buffer invariant

    [Q] is a property wanted of every chunk and [B] one kept by the buffer
    together with its running token total.  The hypotheses are what each
    place of the source that touches the buffer has to preserve. *)
Section SplitInvariant.

Variable count_tokens : str -> nat.
Variable title : option str.
Variables chunk_size chunk_overlap : nat.
Variable Q : ChunkData -> Prop.
Variable B : list str -> nat -> Prop.

(* [current_chunk = []], [current_tokens = 0] *)
Hypothesis B_empty : B [] 0.
(* a flush *)
Hypothesis B_flush : forall index buf tok,
  B buf tok -> buf <> [] -> Q (make_chunk count_tokens title index buf).
(* [word_chunk.append(word)] *)
Hypothesis B_word : forall buf tok w,
  is_word w -> B buf tok ->
  tok + count_tokens (w ++ s " ") <= chunk_size \/ buf = [] ->
  B (buf ++ [w]) (tok + count_tokens (w ++ s " ")).
(* [current_chunk.append(sentence)] without a flush before it *)
Hypothesis B_sentence : forall buf tok x,
  is_piece x -> count_tokens x <= chunk_size -> B buf tok ->
  tok + count_tokens x <= chunk_size \/ buf = [] ->
  B (buf ++ [x]) (tok + count_tokens x).
(* [current_chunk.append(sentence)] on the overlap kept after a flush *)
Hypothesis B_overlap : forall buf tok x,
  is_piece x -> count_tokens x <= chunk_size -> B buf tok ->
  B (fst (overlap_loop count_tokens chunk_overlap (rev buf) [] 0) ++ [x])
    (snd (overlap_loop count_tokens chunk_overlap (rev buf) [] 0) + count_tokens x).

Local Abbreviation word_inv := (@word_inv Q B).
Local Abbreviation sentence_inv := (@sentence_inv Q B).

Lemma word_step_inv (st : WordLoop) (w : str) :
  word_inv st -> is_word w ->
  word_inv (word_step count_tokens title chunk_size st w).
Proof.
  intros [HQ HB] Hw. unfold word_step.
  destruct (chunk_size <? word_tokens st + count_tokens (w ++ s " ")) eqn:Hover;
    simpl.
  - destruct (length (word_chunk st) =? 0) eqn:Hlen; simpl.
    + apply length_zero_nil in Hlen. split; [exact HQ|].
      apply B_word; auto.
    + split.
      * apply Forall_app. split; [exact HQ|]. constructor; [|constructor].
        apply B_flush with (tok := word_tokens st); [exact HB|].
        intros E. rewrite E in Hlen. discriminate.
      * apply (B_word (buf := []) (tok := 0)); auto.
  - apply Nat.ltb_ge in Hover. split; [exact HQ|].
    apply B_word; auto.
Qed.

Lemma word_loop_inv (words : list str) (st : WordLoop) :
  Forall is_word words -> word_inv st ->
  word_inv (fold_left (word_step count_tokens title chunk_size) words st).
Proof.
  intros Hw Hst.
  apply fold_left_invariant with (R := is_word); auto using word_step_inv.
Qed.

Lemma flush_pending_inv (st : SentenceLoop) :
  sentence_inv st -> sentence_inv (flush_pending count_tokens title st).
Proof.
  intros [HQ HB]. unfold flush_pending.
  destruct (current_chunk st) as [|p buf] eqn:E.
  - split; [exact HQ | now rewrite E].
  - split; simpl; [|exact B_empty].
    apply Forall_app. split; [exact HQ|]. constructor; [|constructor].
    rewrite <- E. apply B_flush with (tok := current_tokens st).
    + now rewrite E.
    + rewrite E. discriminate.
Qed.

Lemma split_by_words_inv (st : SentenceLoop) (x : str) :
  sentence_inv st ->
  sentence_inv (split_by_words count_tokens title chunk_size st x).
Proof.
  intros [HQ HB]. unfold split_by_words.
  destruct (@word_loop_inv (PyStr.split x)
              (mkWordLoop (chunks st) (next_index st) [] 0)) as [HQw HBw].
  - apply split_words.
  - split; simpl; [exact HQ | exact B_empty].
  - destruct (word_chunk _) eqn:E; split; simpl; auto.
Qed.

Lemma sentence_step_inv (st : SentenceLoop) (x : str) :
  sentence_inv st -> is_piece x ->
  sentence_inv (sentence_step count_tokens title chunk_size chunk_overlap st x).
Proof.
  intros Hst Hx. unfold sentence_step.
  destruct (chunk_size <? count_tokens x) eqn:Hbig.
  - apply split_by_words_inv, flush_pending_inv, Hst.
  - destruct Hst as [HQ HB]. apply Nat.ltb_ge in Hbig.
    destruct (chunk_size <? current_tokens st + count_tokens x) eqn:Hover; simpl.
    + destruct (length (current_chunk st) =? 0) eqn:Hlen; simpl.
      * apply length_zero_nil in Hlen. split; [exact HQ|].
        apply B_sentence; auto.
      * pose proof (@B_overlap (current_chunk st) _ x Hx Hbig HB) as Hov.
        destruct (overlap_loop count_tokens chunk_overlap (rev (current_chunk st)) [] 0)
          as [oc ot]. simpl in *. split; [|exact Hov].
        apply Forall_app. split; [exact HQ|]. constructor; [|constructor].
        apply B_flush with (tok := current_tokens st); [exact HB|].
        intros E. rewrite E in Hlen. discriminate.
    + apply Nat.ltb_ge in Hover. split; [exact HQ|].
      apply B_sentence; auto.
Qed.

Lemma split_by_tokens_inv (text : str) (start_index : nat) :
  Forall Q (_split_by_tokens count_tokens text title chunk_size chunk_overlap
                             start_index).
Proof.
  unfold _split_by_tokens.
  set (st := fold_left _ _ _).
  assert (Hst : sentence_inv st).
  { subst st.
    apply fold_left_invariant with (R := is_piece);
      auto using sentence_step_inv, split_sentences_pieces.
    split; simpl; [constructor | exact B_empty]. }
  destruct Hst as [HQ HB].
  destruct (current_chunk st) as [|p buf] eqn:E; [exact HQ|].
  apply Forall_app. split; [exact HQ|]. constructor; [|constructor].
  rewrite <- E. apply B_flush with (tok := current_tokens st).
  - now rewrite E.
  - rewrite E. discriminate.
Qed.

End SplitInvariant.

(** ** [chunk_text], against a property of chunks *)
Section ChunkTextInvariant.

Variable count_tokens : str -> nat.
Variable Q : ChunkData -> Prop.
Variables chunk_size chunk_overlap : nat.
(* a property of the sections handed to the loop *)
Variable Sec : option str * str -> Prop.

Hypothesis Q_fits : forall title body index,
  Sec (title, body) -> count_tokens body <= chunk_size ->
  Q (mkChunkData (strip body) title index (count_tokens body)).
Hypothesis Q_split : forall title body index,
  Sec (title, body) ->
  Forall Q (_split_by_tokens count_tokens body title chunk_size chunk_overlap index).

Lemma section_loop_inv (sections : list (option str * str))
      (st : list ChunkData * nat) :
  Forall Sec sections -> Forall Q (fst st) ->
  Forall Q (fst (fold_left (section_step count_tokens chunk_size chunk_overlap)
                           sections st)).
Proof.
  intros Hsec Hst.
  apply fold_left_invariant with (P := fun st => Forall Q (fst st)) (R := Sec); auto.
  clear sections st Hsec Hst.
  intros [acc index] [title body] Hacc Hsec. simpl in *.
  destruct (count_tokens body <=? chunk_size) eqn:Hfit; simpl.
  - apply Nat.leb_le in Hfit. apply Forall_app. split; [exact Hacc|].
    constructor; [|constructor]. now apply Q_fits.
  - apply Forall_app. split; [exact Hacc|]. now apply Q_split.
Qed.

End ChunkTextInvariant.

End ChunkingFacts.

Module ChunkingClaims.
Import Re PyStrFacts Chunking ChunkingFacts.

(** ** Trimmed contents *)

Lemma split_by_tokens_trimmed (count_tokens : str -> nat) (text : str)
      (title : option str) (chunk_size chunk_overlap start_index : nat) :
  Forall (fun c => strip (content c) = content c)
         (_split_by_tokens count_tokens text title chunk_size chunk_overlap
                           start_index).
Proof.
  apply split_by_tokens_inv with (B := fun _ _ => True); auto.
  intros index buf tok _ _. simpl. apply strip_idem.
Qed.

Lemma chunk_text_stripped (count_tokens : str -> nat) (settings : Settings)
      (text : str) (chunk_size chunk_overlap : option nat) :
  Forall (fun c => strip (content c) = content c)
         (chunk_text count_tokens settings text chunk_size chunk_overlap).
Proof.
  unfold chunk_text.
  apply section_loop_inv with (Sec := fun _ => True).
  - intros title body index _ _. simpl. apply strip_idem.
  - intros title body index _. apply split_by_tokens_trimmed.
  - apply Forall_forall. intros; exact I.
  - constructor.
Qed.

(** C9.  Every chunk that [chunk_text] returns has a content without
    leading or trailing white space, for every token counter,
    configuration, text and pair of arguments: the first character of a
    content is not white space, nor is its last one, and the content is
    its own [strip()]. *)
Theorem chunk_content_is_trimmed (count_tokens : str -> nat) (settings : Settings)
        (text : str) (chunk_size chunk_overlap : option nat) :
  Forall (fun c =>
            (forall first rest, content c = first :: rest -> is_space first = false)
            /\ (forall last rest, content c = rest ++ [last] -> is_space last = false)
            /\ strip (content c) = content c)
         (chunk_text count_tokens settings text chunk_size chunk_overlap).
Proof.
  eapply Forall_impl; [|apply chunk_text_stripped].
  intros c H. cbv beta in H.
  destruct (stripped_ink H) as [Hs He].
  split; [|split].
  - intros first rest E. rewrite E in Hs. exact Hs.
  - intros last rest E. unfold ends_ink in He.
    rewrite E, rev_app_distr in He. exact He.
  - exact H.
Qed.

(** ** The empty text *)

Lemma detect_sections_nil : _detect_sections [] = [(None, [])].
Proof. reflexivity. Qed.

(** C3.  On the empty string [chunk_text] returns one chunk whose content
    is empty, not an empty list, whenever the token counter gives 0 on the
    empty string (as [test_count_tokens_empty] demands): no heading is
    found, the text is its own single section, and 0 tokens fit any chunk
    size. *)
Theorem chunk_text_empty_gives_one_chunk (count_tokens : str -> nat)
        (settings : Settings) (chunk_size chunk_overlap : option nat) :
  count_tokens [] = 0 ->
  chunk_text count_tokens settings [] chunk_size chunk_overlap
  = [mkChunkData [] None 0 0].
Proof.
  intros H0. unfold chunk_text. rewrite detect_sections_nil. simpl.
  rewrite H0. reflexivity.
Qed.

Lemma chunk_text_empty_gives_one_chunk_witness :
  ink_count [] = 0 /\
  chunk_text ink_count default_settings [] None None = [mkChunkData [] None 0 0] /\
  chunk_text ink_count default_settings [] None None <> [].
Proof.
  split; [reflexivity|]. split.
  - apply (chunk_text_empty_gives_one_chunk ink_count default_settings None None).
    reflexivity.
  - discriminate.
Defined.

(** ** A text that fits: the stored count is the count of the untrimmed text *)

(** C2.  When no heading is found and the text fits the chunk size, the
    single chunk stores the trimmed text as content and the token count of
    the text as given, white space at the ends included: the stored count
    is not recomputed from the content. *)
Theorem unsplit_chunk_counts_untrimmed_text (count_tokens : str -> nat)
        (settings : Settings) (text : str) (chunk_size chunk_overlap : option nat) :
  finditer header_regex text = [] ->
  count_tokens text <= int_or chunk_size (cfg_chunk_size settings) ->
  chunk_text count_tokens settings text chunk_size chunk_overlap
  = [mkChunkData (strip text) None 0 (count_tokens text)].
Proof.
  intros Hnone Hfit. unfold chunk_text, _detect_sections. rewrite Hnone. simpl.
  apply Nat.leb_le in Hfit. rewrite Hfit. reflexivity.
Qed.

(** The text ["Hi there.  "] under a counter of one token per character:
    content ["Hi there."] (9 tokens when counted again), stored count 11. *)
Lemma unsplit_chunk_counts_untrimmed_text_witness :
  let count := fun x : str => length x in
  let text := s "Hi there.  " in
  chunk_text count default_settings text None None
  = [mkChunkData (s "Hi there.") None 0 11]
  /\ count (s "Hi there.") = 9.
Proof.
  split; [|reflexivity].
  apply (unsplit_chunk_counts_untrimmed_text
           (fun x : str => length x) default_settings (s "Hi there.  ") None None).
  - vm_compute. reflexivity.
  - vm_compute. repeat constructor.
Defined.

(** ** Where the stored count does agree with the content *)

(** The other path, [_split_by_tokens], counts the very string it stores:
    every buffer holds non-empty stripped pieces, so the joined text is
    already trimmed. *)
Lemma split_by_tokens_counts_content (count_tokens : str -> nat) (text : str)
      (title : option str) (chunk_size chunk_overlap start_index : nat) :
  Forall (fun c => token_count c = count_tokens (content c))
         (_split_by_tokens count_tokens text title chunk_size chunk_overlap
                           start_index).
Proof.
  apply split_by_tokens_inv with (B := fun buf _ => Forall is_piece buf).
  - constructor.
  - intros index buf tok Hbuf _. simpl. now rewrite join_stripped.
  - intros buf tok w Hw Hbuf _. apply Forall_app. split; [exact Hbuf|].
    constructor; [now apply word_is_piece | constructor].
  - intros buf tok x Hx _ Hbuf _. apply Forall_app. split; [exact Hbuf|].
    constructor; [exact Hx | constructor].
  - intros buf tok x Hx _ Hbuf. apply Forall_app. split.
    + destruct (@overlap_loop_spec count_tokens chunk_overlap (rev buf) [] 0)
        as [_ [_ Hin]]; [reflexivity | lia |].
      apply Forall_forall. intros y Hy. rewrite Forall_forall in Hbuf.
      destruct (Hin y Hy) as [H|[]]. apply Hbuf, in_rev, H.
    + constructor; [exact Hx | constructor].
Qed.

Lemma sections_of_stripped (text : str) (matches : list (nat * nat)) :
  Forall (fun sec => strip (snd sec) = snd sec) (sections_of text matches).
Proof.
  induction matches as [|[a b] rest IH]; [constructor|].
  cbn [sections_of]. apply Forall_app. split; [|exact IH].
  destruct (truthy _); constructor; [apply strip_idem | constructor].
Qed.

Lemma detect_sections_stripped (text : str) :
  finditer header_regex text <> [] \/ strip text = text ->
  Forall (fun sec => strip (snd sec) = snd sec) (_detect_sections text).
Proof.
  intros H. unfold _detect_sections.
  destruct (finditer header_regex text) as [|[a b] rest] eqn:E.
  - destruct H as [H|H]; [congruence|]. constructor; [exact H | constructor].
  - apply Forall_app. split; [|apply sections_of_stripped].
    destruct (0 <? a); [|constructor].
    destruct (truthy _); constructor; [apply strip_idem | constructor].
Qed.

(** X28.  With a heading in the text, or a text without white space at
    its ends, every stored count is the count of the stored content. *)
Lemma chunk_text_counts_content (count_tokens : str -> nat) (settings : Settings)
      (text : str) (chunk_size chunk_overlap : option nat) :
  finditer header_regex text <> [] \/ strip text = text ->
  Forall (fun c => token_count c = count_tokens (content c))
         (chunk_text count_tokens settings text chunk_size chunk_overlap).
Proof.
  intros H. unfold chunk_text.
  apply section_loop_inv with (Sec := fun sec => strip (snd sec) = snd sec).
  - intros title body index Hbody _. simpl in *. now rewrite Hbody.
  - intros title body index _. apply split_by_tokens_counts_content.
  - apply detect_sections_stripped, H.
  - constructor.
Qed.

End ChunkingClaims.

Module Budget.
Import Re PyStrFacts Chunking ChunkingFacts.

(** ** The buffer invariant behind the budget *)
Section Accounting.

Variable count_tokens : str -> nat.
Variables chunk_size chunk_overlap : nat.

Local Abbreviation billed := (@billed count_tokens chunk_size chunk_overlap).
Local Abbreviation budgeted := (@budgeted count_tokens chunk_size chunk_overlap).

Lemma priced_alone (buf : list str) :
  Forall is_piece buf ->
  Forall2 (priced count_tokens) buf (map count_tokens buf).
Proof.
  induction 1 as [|p buf Hp _ IH]; simpl; constructor; [|exact IH].
  split; [exact Hp | now left].
Qed.

Lemma priced_pieces (buf : list str) (costs : list nat) :
  Forall2 (priced count_tokens) buf costs -> Forall is_piece buf.
Proof.
  induction 1 as [|p k buf costs [Hp _] _ IH]; constructor; assumption.
Qed.

Lemma billed_empty : billed [] 0.
Proof.
  split; [|left; lia]. exists []. split; [constructor | reflexivity].
Qed.

Lemma billed_nil_total (tok : nat) : billed [] tok -> tok = 0.
Proof.
  intros [[costs [Hc ->]] _]. inversion Hc. reflexivity.
Qed.

Lemma billed_flush (title : option str) (index : nat) (buf : list str) (tok : nat) :
  billed buf tok -> buf <> [] ->
  budgeted (make_chunk count_tokens title index buf).
Proof.
  intros Hb Hne. right. exists buf, tok. repeat split; auto; apply Hb.
Qed.

Lemma billed_snoc (buf : list str) (tok k : nat) (p : str) :
  priced count_tokens p k ->
  (exists costs, Forall2 (priced count_tokens) buf costs /\ tok = list_sum costs) ->
  exists costs,
    Forall2 (priced count_tokens) (buf ++ [p]) costs /\ tok + k = list_sum costs.
Proof.
  intros Hp [costs [Hc ->]]. exists (costs ++ [k]). split.
  - apply Forall2_app; [exact Hc | constructor; [exact Hp | constructor]].
  - rewrite list_sum_app. simpl. lia.
Qed.

Lemma billed_word (buf : list str) (tok : nat) (w : str) :
  is_word w -> billed buf tok ->
  tok + count_tokens (w ++ s " ") <= chunk_size \/ buf = [] ->
  billed (buf ++ [w]) (tok + count_tokens (w ++ s " ")).
Proof.
  intros Hw Hb Hcase. split.
  - apply billed_snoc; [|apply Hb]. split; [now apply word_is_piece | now right].
  - destruct Hcase as [Hfit | ->]; [left; lia|].
    rewrite (billed_nil_total Hb). simpl.
    destruct (Nat.le_gt_cases (count_tokens (w ++ s " ")) chunk_size).
    + left. lia.
    + right. exists w. auto.
Qed.

Lemma billed_sentence (buf : list str) (tok : nat) (x : str) :
  is_piece x -> count_tokens x <= chunk_size -> billed buf tok ->
  tok + count_tokens x <= chunk_size \/ buf = [] ->
  billed (buf ++ [x]) (tok + count_tokens x).
Proof.
  intros Hp Hx Hb Hcase. split.
  - apply billed_snoc; [|apply Hb]. split; [exact Hp | now left].
  - left. destruct Hcase as [Hfit | ->]; [lia|].
    rewrite (billed_nil_total Hb). lia.
Qed.

Lemma billed_overlap (buf : list str) (tok : nat) (x : str) :
  is_piece x -> count_tokens x <= chunk_size -> billed buf tok ->
  billed
    (fst (overlap_loop count_tokens chunk_overlap (rev buf) [] 0) ++ [x])
    (snd (overlap_loop count_tokens chunk_overlap (rev buf) [] 0) + count_tokens x).
Proof.
  intros Hp Hx [[costs [Hc _]] _].
  destruct (@overlap_loop_spec count_tokens chunk_overlap (rev buf) [] 0)
    as [Hsum [Hle Hin]]; [reflexivity | lia |].
  split; [|left; lia].
  apply billed_snoc; [split; [exact Hp | now left]|].
  exists (map count_tokens
              (fst (overlap_loop count_tokens chunk_overlap (rev buf) [] 0))).
  split; [|symmetry; exact Hsum].
  apply priced_alone, Forall_forall. intros y Hy.
  destruct (Hin y Hy) as [H|[]].
  apply in_rev in H.
  pose proof (priced_pieces Hc) as Hall.
  rewrite Forall_forall in Hall. now apply Hall.
Qed.

Lemma split_by_tokens_budget (text : str) (title : option str) (start_index : nat) :
  Forall budgeted
         (_split_by_tokens count_tokens text title chunk_size chunk_overlap
                           start_index).
Proof.
  apply split_by_tokens_inv with (B := billed).
  - exact billed_empty.
  - intros index buf tok. apply billed_flush.
  - exact billed_word.
  - exact billed_sentence.
  - exact billed_overlap.
Qed.

End Accounting.

(** C1, as amended.  The budget is kept on the running total of the
    pieces, not on the stored count.  With the sizes that [chunk_text]
    works with (the argument, or the configured value when the argument
    is [None] or 0), every chunk is a section that fits, with a token
    count of at most the chunk size, or a flushed buffer: its content
    and its token count are those of the pieces joined by single spaces,
    and the counts made for the pieces one by one (a sentence or a piece
    of the overlap on its own, a word of the fallback followed by a
    space) add up to at most [chunk_size + chunk_overlap], unless the
    buffer is a single word that, counted with its space, is over the
    chunk size.  Nothing is assumed of the token counter. *)
Theorem chunk_budget_with_overlap (count_tokens : str -> nat) (settings : Settings)
        (text : str) (chunk_size chunk_overlap : option nat) :
  Forall (budgeted count_tokens
                   (int_or chunk_size (cfg_chunk_size settings))
                   (int_or chunk_overlap (cfg_chunk_overlap settings)))
         (chunk_text count_tokens settings text chunk_size chunk_overlap).
Proof.
  unfold chunk_text.
  apply section_loop_inv with (Sec := fun _ => True).
  - intros title body index _ Hfit. left. simpl. lia.
  - intros title body index _. apply split_by_tokens_budget.
  - apply Forall_forall. intros; exact I.
  - constructor.
Qed.

Lemma three_sentences_chunks :
  chunk_text ink_count default_settings three_sentences (Some 5) (Some 4)
  = [ mkChunkData (s "A b.") None 0 3;
      mkChunkData (s "A b. C d.") None 1 6;
      mkChunkData (s "C d. E f.") None 2 6 ].
Proof. vm_compute. reflexivity. Qed.

(** C1, as stated, fails: with chunk size 5 and overlap 4 (a valid pair)
    no sentence of ["A b. C d. E f."] is over the chunk size, so the
    word-level fallback never runs, and yet the second chunk, the overlap
    ["A b."] followed by ["C d."], holds 6 tokens (counted as one token
    per character that is not white space). *)
Lemma budget_exceeded_by_overlap :
  0 < 5 /\ 4 < 5
  /\ Forall (fun x => ink_count x <= 5) (_split_sentences three_sentences)
  /\ ~ Forall (within_budget ink_count 5)
         (chunk_text ink_count default_settings three_sentences (Some 5) (Some 4)).
Proof.
  split; [lia|]. split; [lia|]. split.
  - vm_compute. repeat constructor.
  - rewrite three_sentences_chunks. intros H.
    inversion H as [|c1 l1 _ H1]; subst.
    inversion H1 as [|c2 l2 H2 _]; subst.
    destruct H2 as [Hle | [w [[_ Hw] [_ [Hc _]]]]].
    + simpl in Hle. lia.
    + simpl in Hc. subst w. vm_compute in Hw. discriminate.
Qed.

End Budget.

Module Sections.
Import Re PyStrFacts Chunking ChunkingFacts.

(** ** The spans of [finditer] come in order and do not overlap *)

Lemma chained_weaken (from from' : nat) (spans : list (nat * nat)) :
  from <= from' -> chained from' spans -> chained from spans.
Proof.
  destruct spans as [|[a b] spans]; simpl; [auto|].
  intros H [H1 H2]. split; [lia | exact H2].
Qed.

Lemma scan_chained (r : regex) (rest : str) :
  forall prev pos skip, chained (pos + skip) (scan r prev rest pos skip).
Proof.
  induction rest as [|c rest IH]; intros prev pos skip.
  - destruct skip as [|skip]; simpl; [|exact I].
    destruct (match_len r prev []) as [n|] eqn:E; simpl; [|exact I].
    apply ReFacts.match_len_bounds in E. simpl in E. lia.
  - destruct skip as [|skip]; simpl.
    + destruct (match_len r prev (c :: rest)) as [n|] eqn:E; simpl.
      * split; [lia|]. split; [lia|].
        apply chained_weaken with (from' := S pos + pred n); [lia | apply IH].
      * apply chained_weaken with (from' := S pos + 0); [lia | apply IH].
    + replace (pos + S skip) with (S pos + skip) by lia. apply IH.
Qed.

Lemma finditer_chained (r : regex) (text : str) : chained 0 (finditer r text).
Proof. apply (scan_chained r text None 0 0). Qed.

(** ** The text is its pieces and its matches, interleaved *)

Lemma slice_to_end (x : str) (a : nat) : slice x a (length x) = skipn a x.
Proof.
  unfold slice. apply firstn_all2. rewrite length_skipn. lia.
Qed.

Lemma weave_pieces (text : str) (spans : list (nat * nat)) :
  forall from, chained from spans ->
  weave (pieces text from spans) (matched text spans) = skipn from text.
Proof.
  induction spans as [|[a b] spans IH]; intros from H; simpl.
  - rewrite app_nil_r. apply slice_to_end.
  - destruct H as [H1 [H2 H3]].
    rewrite (IH b H3), (slice_skipn text H2). apply slice_skipn, H1.
Qed.

(** ** The bodies of [_detect_sections] *)

Lemma strip_if_truthy (title : option str) (body : str) :
  List.concat (map snd (if truthy body then [(title, body)] else [])) = body.
Proof. destruct body; simpl; [reflexivity | now rewrite app_nil_r]. Qed.

Lemma sections_of_bodies (text : str) (rest : list (nat * nat)) :
  forall a b,
  List.concat (map snd (sections_of text ((a, b) :: rest)))
  = List.concat (map strip (pieces text b rest)).
Proof.
  induction rest as [|[a' b'] rest IH]; intros a b.
  - cbn [sections_of pieces]. rewrite app_nil_r, strip_if_truthy.
    simpl. now rewrite app_nil_r.
  - change (sections_of text ((a, b) :: (a', b') :: rest))
      with ((if truthy (strip (slice text b a'))
             then [(Some (strip (slice text a b)), strip (slice text b a'))]
             else [])
            ++ sections_of text ((a', b') :: rest)).
    rewrite map_app, concat_app, strip_if_truthy, IH. reflexivity.
Qed.

(** C8, as amended.  The headings and the pieces of text around them make
    up the whole text, in order.  When no heading is found the single body
    is the text itself; otherwise the bodies, concatenated, are the pieces
    around the headings, each trimmed of the white space at its two ends
    (a piece that is all white space contributes nothing). *)
Theorem bodies_are_trimmed_pieces (text : str) :
  let spans := finditer header_regex text in
  weave (pieces text 0 spans) (matched text spans) = text
  /\ bodies text = match spans with
                   | [] => text
                   | _ :: _ => List.concat (map strip (pieces text 0 spans))
                   end.
Proof.
  intros spans. split.
  - apply (weave_pieces text spans 0), finditer_chained.
  - unfold bodies, _detect_sections. fold spans.
    destruct spans as [|[a b] rest].
    + simpl. apply app_nil_r.
    + rewrite map_app, concat_app, sections_of_bodies.
      cbn [pieces map List.concat]. f_equal.
      destruct (0 <? a) eqn:E.
      * apply strip_if_truthy.
      * apply Nat.ltb_ge in E. replace a with 0 by lia. reflexivity.
Qed.

(** C8, as stated, fails on that document: the line breaks around the two
    headings belong to the text outside the headings, and no body has
    them. *)
Lemma bodies_lose_white_space :
  finditer header_regex two_sections = [(0, 8); (25, 40)]
  /\ non_heading_content two_sections
     = [nl] ++ s "Short summary." ++ [nl; nl] ++ [nl]
       ++ s "Long intro sentence one. Long intro sentence two."
  /\ bodies two_sections
     = s "Short summary."
       ++ s "Long intro sentence one. Long intro sentence two."
  /\ bodies two_sections <> non_heading_content two_sections.
Proof.
  split; [vm_compute; reflexivity|].
  split; [vm_compute; reflexivity|].
  split; [vm_compute; reflexivity|].
  vm_compute. discriminate.
Qed.

End Sections.

Module Sentences.
Import Re PyStrFacts Chunking ChunkingFacts Sections.

(** ** What a match consumes *)

Lemma star_takes (P p : ascii -> bool) (rest : str) :
  (forall c, p c = true -> P c = true) ->
  forall prev k x,
  star p prev rest k = Some x ->
  exists prev' taken rest',
    rest = taken ++ rest' /\ forallb P taken = true /\ k prev' rest' = Some x.
Proof.
  intros Hp. induction rest as [|c rest IH]; intros prev k x; simpl.
  - intros H. exists prev, [], []. auto.
  - destruct (p c) eqn:Hc.
    + destruct (star p (Some c) rest k) as [y|] eqn:E.
      * intros H. inversion H; subst.
        destruct (IH _ _ _ E) as [prev' [taken [rest' [H1 [H2 H3]]]]].
        exists prev', (c :: taken), rest'. simpl.
        rewrite (Hp _ Hc), H2, H1. auto.
      * intros H. exists prev, [], (c :: rest). auto.
    + intros H. exists prev, [], (c :: rest). auto.
Qed.

Lemma rmatch_takes (P : ascii -> bool) (r : regex) :
  classes_within P r ->
  forall prev rest k x,
  rmatch r prev rest k = Some x ->
  exists prev' taken rest',
    rest = taken ++ rest' /\ forallb P taken = true /\ k prev' rest' = Some x.
Proof.
  induction r as [|p|r1 IH1 r2 IH2|r1 IH1 r2 IH2|r1 IH1|p| | |p|p];
    intros HP prev rest k x; simpl in *.
  - intros H. exists prev, [], rest. auto.
  - destruct rest as [|c rest]; [discriminate|].
    destruct (p c) eqn:Hc; [|discriminate].
    intros H. exists (Some c), [c], rest. simpl. rewrite (HP _ Hc). auto.
  - destruct HP as [HP1 HP2]. intros H.
    apply (IH1 HP1) in H as [p1 [t1 [u1 [-> [Ht1 H]]]]].
    apply (IH2 HP2) in H as [p2 [t2 [u2 [-> [Ht2 H]]]]].
    exists p2, (t1 ++ t2), u2. rewrite forallb_app, Ht1, Ht2, app_assoc. auto.
  - destruct HP as [HP1 HP2].
    destruct (rmatch r1 prev rest k) as [y|] eqn:E.
    + intros H. inversion H; subst. now apply (IH1 HP1) in E.
    + intros H. now apply (IH2 HP2) in H.
  - destruct (rmatch r1 prev rest k) as [y|] eqn:E.
    + intros H. inversion H; subst. now apply (IH1 HP) in E.
    + intros H. exists prev, [], rest. auto.
  - intros H. now apply (@star_takes P p rest HP) in H.
  - destruct (at_bol prev); [|discriminate].
    intros H. exists prev, [], rest. auto.
  - destruct (at_eol rest); [|discriminate].
    intros H. exists prev, [], rest. auto.
  - destruct prev as [c|]; [|discriminate]. destruct (p c); [|discriminate].
    intros H. exists (Some c), [], rest. auto.
  - destruct rest as [|c rest]; [discriminate|]. destruct (p c); [|discriminate].
    intros H. exists prev, [], (c :: rest). auto.
Qed.

Lemma match_len_takes (P : ascii -> bool) (r : regex) (prev : option ascii)
      (rest : str) (n : nat) :
  classes_within P r -> match_len r prev rest = Some n ->
  forallb P (firstn n rest) = true.
Proof.
  intros HP. unfold match_len.
  destruct (rmatch r prev rest (fun _ rest' => Some rest')) as [x|] eqn:E;
    [|discriminate].
  intros H. inversion H; subst.
  apply (@rmatch_takes P r HP) in E as [p1 [taken [rest' [-> [Ht H1]]]]].
  inversion H1; subst.
  rewrite length_app. replace (length taken + length x - length x)
    with (length taken + 0) by lia.
  now rewrite firstn_app_2, app_nil_r.
Qed.

(** Every span of [finditer] covers characters of the class only. *)
Lemma scan_spans_within (P : ascii -> bool) (r : regex) (rest : str) :
  classes_within P r ->
  forall pre prev skip,
  Forall (fun ab => forallb P (slice (pre ++ rest) (fst ab) (snd ab)) = true)
         (scan r prev rest (length pre) skip).
Proof.
  intros HP. induction rest as [|c rest IH]; intros pre prev skip.
  - destruct skip as [|skip]; simpl; [|constructor].
    destruct (match_len r prev []) as [n|] eqn:E; [|constructor].
    constructor; [|constructor]. simpl.
    apply ReFacts.match_len_bounds in E. simpl in E.
    replace n with 0 by lia. unfold slice.
    now replace (length pre + 0 - length pre) with 0 by lia.
  - assert (Hnext : forall prev' skip',
               Forall (fun ab => forallb P (slice (pre ++ c :: rest) (fst ab) (snd ab))
                                 = true)
                      (scan r prev' rest (S (length pre)) skip')).
    { intros prev' skip'.
      pose proof (IH (pre ++ [c]) prev' skip') as H.
      rewrite <- app_assoc, length_app in H. simpl in H.
      now replace (length pre + 1) with (S (length pre)) in H by lia. }
    destruct skip as [|skip]; simpl; [|apply Hnext].
    destruct (match_len r prev (c :: rest)) as [n|] eqn:E; [|apply Hnext].
    constructor; [|apply Hnext]. simpl. unfold slice.
    replace (length pre + n - length pre) with n by lia.
    rewrite skipn_app, skipn_all, Nat.sub_diag. simpl.
    apply (@match_len_takes P r prev (c :: rest) n HP E).
Qed.

Lemma finditer_spans_within (P : ascii -> bool) (r : regex) (text : str) :
  classes_within P r ->
  Forall (fun ab => forallb P (slice text (fst ab) (snd ab)) = true)
         (finditer r text).
Proof. intros HP. apply (@scan_spans_within P r text HP [] None 0). Qed.

(** ** The characters that are not white space *)

Lemma ink_app (a b : str) : ink (a ++ b) = ink a ++ ink b.
Proof. apply filter_app. Qed.

Lemma ink_spaces (p : str) : forallb is_space p = true -> ink p = [].
Proof.
  induction p as [|c p IH]; simpl; [reflexivity|].
  intros H. apply andb_true_iff in H as [-> Hp]. simpl. auto.
Qed.

Lemma ink_strip (x : str) : ink (strip x) = ink x.
Proof.
  unfold strip.
  destruct (lstrip_split x) as [p [Hx Hp]].
  destruct (rstrip_split (lstrip x)) as [q [Hy Hq]].
  rewrite Hx at 2. rewrite Hy at 2.
  rewrite !ink_app, (ink_spaces _ Hp), (ink_spaces _ Hq), app_nil_r.
  reflexivity.
Qed.

Lemma ink_concat_stripped (ps : list str) :
  ink (List.concat (map strip (filter (fun x => truthy (strip x)) ps)))
  = ink (List.concat ps).
Proof.
  induction ps as [|p ps IH]; simpl; [reflexivity|].
  rewrite ink_app, <- IH, <- (ink_strip p).
  destruct (strip p) eqn:E; simpl; [reflexivity|].
  rewrite ink_app, E. reflexivity.
Qed.

Lemma ink_weave (gaps matches : list str) :
  Forall (fun m => ink m = []) matches ->
  ink (weave gaps matches) = ink (List.concat gaps).
Proof.
  revert matches. induction gaps as [|g gaps IH]; intros matches H; simpl;
    [reflexivity|].
  rewrite !ink_app. f_equal.
  destruct matches as [|m matches]; [reflexivity|].
  inversion H as [|? ? Hm Hrest]; subst.
  now rewrite ink_app, Hm, (IH _ Hrest).
Qed.

Lemma sentence_endings_white : classes_within is_space sentence_endings.
Proof. simpl. repeat split; auto. Qed.

(** X7.  Splitting into sentences loses white space only: the characters
    of the sentences that are not white space, read in order, are those
    of the text. *)
Theorem sentences_keep_every_visible_character (text : str) :
  ink (List.concat (_split_sentences text)) = ink text.
Proof.
  unfold _split_sentences, Re.split. rewrite ink_concat_stripped.
  rewrite <- (@ink_weave (pieces text 0 (finditer sentence_endings text))
                         (matched text (finditer sentence_endings text))).
  - now rewrite (@weave_pieces text _ 0 (finditer_chained _ _)).
  - unfold matched. apply Forall_map.
    eapply Forall_impl;
      [|apply (@finditer_spans_within is_space), sentence_endings_white].
    intros ab Hab. now apply ink_spaces.
Qed.

End Sentences.

(* ================================================================== *)
(** * More facts about the chunker *)
(* ================================================================== *)

Module ChunkingMore.
Import Re PyStrFacts Chunking ChunkingFacts.

(** ** Chunk indices *)

Lemma numbered_snoc (start : nat) (cs : list ChunkData) (next : nat) (c : ChunkData) :
  numbered start cs next -> chunk_index c = next ->
  numbered start (cs ++ [c]) (next + 1).
Proof.
  intros [Hmap ->] Hc. unfold numbered.
  rewrite map_app, length_app, seq_app, Hmap. simpl. rewrite Hc.
  split; [reflexivity | lia].
Qed.

Lemma numbered_app (start : nat) (cs ds : list ChunkData) (mid next : nat) :
  numbered start cs mid -> numbered mid ds next ->
  numbered start (cs ++ ds) next.
Proof.
  intros [Hc ->] [Hd ->]. unfold numbered.
  rewrite map_app, length_app, seq_app, Hc, Hd. split; [reflexivity | lia].
Qed.

Section Numbering.

Variable count_tokens : str -> nat.
Variable title : option str.
Variables chunk_size chunk_overlap start : nat.

Lemma word_step_numbered (st : WordLoop) (w : str) :
  numbered start (w_chunks st) (w_index st) ->
  numbered start (w_chunks (word_step count_tokens title chunk_size st w))
           (w_index (word_step count_tokens title chunk_size st w)).
Proof.
  intros H. unfold word_step.
  destruct ((chunk_size <? _) && _); simpl; [|exact H].
  apply numbered_snoc; [exact H | reflexivity].
Qed.

Lemma word_loop_numbered (words : list str) (st : WordLoop) :
  numbered start (w_chunks st) (w_index st) ->
  numbered start
    (w_chunks (fold_left (word_step count_tokens title chunk_size) words st))
    (w_index (fold_left (word_step count_tokens title chunk_size) words st)).
Proof.
  revert st. induction words as [|w words IH]; intros st H; simpl; [exact H|].
  apply IH, word_step_numbered, H.
Qed.

Lemma sentence_step_numbered (st : SentenceLoop) (x : str) :
  numbered start (chunks st) (next_index st) ->
  numbered start
    (chunks (sentence_step count_tokens title chunk_size chunk_overlap st x))
    (next_index (sentence_step count_tokens title chunk_size chunk_overlap st x)).
Proof.
  intros H. unfold sentence_step.
  destruct (chunk_size <? count_tokens x).
  - unfold split_by_words.
    assert (H1 : numbered start (chunks (flush_pending count_tokens title st))
                          (next_index (flush_pending count_tokens title st))).
    { unfold flush_pending. destruct (current_chunk st); simpl; [exact H|].
      apply numbered_snoc; [exact H | reflexivity]. }
    pose proof (@word_loop_numbered (PyStr.split x)
                  (mkWordLoop (chunks (flush_pending count_tokens title st))
                              (next_index (flush_pending count_tokens title st))
                              [] 0) H1) as H2.
    destruct (word_chunk _); exact H2.
  - destruct ((chunk_size <? _) && _); simpl; [|exact H].
    destruct (overlap_loop _ _ _ _ _). simpl.
    apply numbered_snoc; [exact H | reflexivity].
Qed.

Lemma split_by_tokens_numbered (text : str) :
  numbered start
    (_split_by_tokens count_tokens text title chunk_size chunk_overlap start)
    (start + length (_split_by_tokens count_tokens text title chunk_size
                                      chunk_overlap start)).
Proof.
  unfold _split_by_tokens.
  set (st := fold_left _ _ _).
  assert (H : numbered start (chunks st) (next_index st)).
  { subst st. generalize (_split_sentences text). intros sentences.
    assert (H0 : numbered start (chunks (mkSentenceLoop [] start [] 0))
                          (next_index (mkSentenceLoop [] start [] 0)))
      by (split; simpl; [reflexivity | lia]).
    revert H0. generalize (mkSentenceLoop [] start [] 0).
    induction sentences as [|x sentences IH]; intros st0 H0; simpl; [exact H0|].
    apply IH, sentence_step_numbered, H0. }
  destruct (current_chunk st).
  - destruct H as [H1 H2]. split; [exact H1 | reflexivity].
  - pose proof (@numbered_snoc start (chunks st) (next_index st)
                  (make_chunk count_tokens title (next_index st) (s0 :: l))
                  H eq_refl) as [H1 _].
    split; [exact H1 | reflexivity].
Qed.

End Numbering.

Lemma section_loop_numbered (count_tokens : str -> nat)
      (chunk_size chunk_overlap : nat) (sections : list (option str * str)) :
  forall st, numbered 0 (fst st) (snd st) ->
  numbered 0
    (fst (fold_left (section_step count_tokens chunk_size chunk_overlap) sections st))
    (snd (fold_left (section_step count_tokens chunk_size chunk_overlap) sections st)).
Proof.
  induction sections as [|[title body] sections IH]; intros [acc index] H;
    simpl; [exact H|].
  apply IH. simpl in H.
  destruct (count_tokens body <=? chunk_size); simpl.
  - apply numbered_snoc; [exact H | reflexivity].
  - eapply numbered_app; [exact H | apply split_by_tokens_numbered].
Qed.

(** X1.  The chunks that [chunk_text] returns carry the indices
    0, 1, ..., n-1 in order, whatever the sections and however many of
    them had to be split. *)
Theorem chunk_indices_are_contiguous (count_tokens : str -> nat)
        (settings : Settings) (text : str) (chunk_size chunk_overlap : option nat) :
  map chunk_index (chunk_text count_tokens settings text chunk_size chunk_overlap)
  = seq 0 (length (chunk_text count_tokens settings text chunk_size chunk_overlap)).
Proof.
  unfold chunk_text.
  apply (@section_loop_numbered count_tokens _ _ (_detect_sections text) ([], 0)).
  split; reflexivity.
Qed.

(** ** Section titles *)

Lemma split_by_tokens_titles (count_tokens : str -> nat) (text : str)
      (title : option str) (chunk_size chunk_overlap start : nat) :
  map section_title
      (_split_by_tokens count_tokens text title chunk_size chunk_overlap start)
  = repeat title
      (length (_split_by_tokens count_tokens text title chunk_size chunk_overlap
                                start)).
Proof.
  assert (H : Forall (fun c => section_title c = title)
                (_split_by_tokens count_tokens text title chunk_size
                                  chunk_overlap start)).
  { apply split_by_tokens_inv with (B := fun _ _ => True); auto. }
  induction H as [|c cs Hc _ IH]; simpl; [reflexivity|].
  now rewrite Hc, IH.
Qed.

Lemma section_loop_titles (count_tokens : str -> nat)
      (chunk_size chunk_overlap : nat) (sections : list (option str * str)) :
  forall st, exists counts,
    length counts = length sections
    /\ map section_title
         (fst (fold_left (section_step count_tokens chunk_size chunk_overlap)
                         sections st))
       = map section_title (fst st) ++ titles_repeated sections counts.
Proof.
  induction sections as [|[title body] sections IH]; intros [acc index]; simpl.
  - exists []. split; [reflexivity | now rewrite app_nil_r].
  - destruct (count_tokens body <=? chunk_size).
    + destruct (IH (acc ++ [mkChunkData (strip body) title index (count_tokens body)],
                    index + 1)) as [counts [Hlen Hmap]].
      exists (1 :: counts). split; [simpl; now rewrite Hlen|].
      rewrite Hmap. simpl. rewrite map_app, <- app_assoc. reflexivity.
    + set (sc := _split_by_tokens count_tokens body title chunk_size
                                  chunk_overlap index).
      destruct (IH (acc ++ sc, index + length sc)) as [counts [Hlen Hmap]].
      exists (length sc :: counts). split; [simpl; now rewrite Hlen|].
      rewrite Hmap. simpl. rewrite map_app, <- app_assoc.
      subst sc. now rewrite split_by_tokens_titles.
Qed.

(** X2.  The chunks come section by section, in the order of the
    sections: the list of their titles is the list of the section titles,
    each repeated once per chunk made from that section. *)
Theorem chunks_follow_the_sections (count_tokens : str -> nat)
        (settings : Settings) (text : str) (chunk_size chunk_overlap : option nat) :
  exists counts,
    length counts = length (_detect_sections text)
    /\ map section_title
         (chunk_text count_tokens settings text chunk_size chunk_overlap)
       = titles_repeated (_detect_sections text) counts.
Proof.
  unfold chunk_text.
  destruct (@section_loop_titles count_tokens
              (int_or chunk_size (cfg_chunk_size settings))
              (int_or chunk_overlap (cfg_chunk_overlap settings))
              (_detect_sections text) ([], 0)) as [counts [Hlen Hmap]].
  exists counts. split; [exact Hlen | exact Hmap].
Qed.

(** ** Sections that fit *)

Lemma section_loop_whole (count_tokens : str -> nat)
      (chunk_size chunk_overlap : nat) (sections : list (option str * str)) :
  Forall (fun sec => count_tokens (snd sec) <= chunk_size) sections ->
  forall acc index,
    fst (fold_left (section_step count_tokens chunk_size chunk_overlap)
                   sections (acc, index))
    = acc ++ whole_chunks count_tokens index sections.
Proof.
  induction sections as [|[title body] sections IH]; intros Hfit acc index; simpl.
  - now rewrite app_nil_r.
  - inversion Hfit as [|? ? Hbody Hrest]; subst. simpl in Hbody.
    apply Nat.leb_le in Hbody. rewrite Hbody, (IH Hrest), <- app_assoc.
    simpl. now replace (index + 1) with (S index) by lia.
Qed.

(** X3.  When every detected section fits the chunk size, [chunk_text]
    returns exactly one chunk per section, in order: the section's title,
    its trimmed body, its token count, and its position as index.  No
    section is split and no two are merged. *)
Theorem fitting_sections_are_kept_whole (count_tokens : str -> nat)
        (settings : Settings) (text : str) (chunk_size chunk_overlap : option nat) :
  Forall (fun sec => count_tokens (snd sec)
                     <= int_or chunk_size (cfg_chunk_size settings))
         (_detect_sections text) ->
  chunk_text count_tokens settings text chunk_size chunk_overlap
  = whole_chunks count_tokens 0 (_detect_sections text).
Proof.
  intros Hfit. unfold chunk_text.
  now rewrite (@section_loop_whole count_tokens _ _ _ Hfit).
Qed.

(** The specification's example document: two sections, two chunks. *)
Lemma fitting_sections_are_kept_whole_witness :
  chunk_text ink_count default_settings two_sections None None
  = [ mkChunkData (s "Short summary.") (Some (s "Abstract")) 0 13;
      mkChunkData (s "Long intro sentence one. Long intro sentence two.")
                  (Some (s "1. Introduction")) 1 42 ].
Proof.
  apply (@fitting_sections_are_kept_whole ink_count default_settings
                                          two_sections None None).
  vm_compute. repeat constructor.
Defined.

(** ** Chunks built from buffers of pieces *)

(** Whatever holds of every chunk flushed from a non-empty buffer of
    non-empty trimmed pieces holds of every chunk of [_split_by_tokens]. *)
Lemma split_by_tokens_from_pieces (count_tokens : str -> nat)
      (Q : ChunkData -> Prop) (text : str) (title : option str)
      (chunk_size chunk_overlap start : nat) :
  (forall index buf, buf <> [] -> Forall is_piece buf ->
                     Q (make_chunk count_tokens title index buf)) ->
  Forall Q (_split_by_tokens count_tokens text title chunk_size chunk_overlap
                             start).
Proof.
  intros HQ.
  apply split_by_tokens_inv with (B := fun buf _ => Forall is_piece buf).
  - constructor.
  - intros index buf tok Hbuf Hne. now apply HQ.
  - intros buf tok w Hw Hbuf _. apply Forall_app. split; [exact Hbuf|].
    constructor; [now apply word_is_piece | constructor].
  - intros buf tok x Hx _ Hbuf _. apply Forall_app. split; [exact Hbuf|].
    constructor; [exact Hx | constructor].
  - intros buf tok x Hx _ Hbuf. apply Forall_app. split.
    + destruct (@overlap_loop_spec count_tokens chunk_overlap (rev buf) [] 0)
        as [_ [_ Hin]]; [reflexivity | lia |].
      apply Forall_forall. intros y Hy. rewrite Forall_forall in Hbuf.
      destruct (Hin y Hy) as [H|[]]. apply Hbuf, in_rev, H.
    + constructor; [exact Hx | constructor].
Qed.

Lemma make_chunk_content (count_tokens : str -> nat) (title : option str)
      (index : nat) (buf : list str) :
  Forall is_piece buf ->
  content (make_chunk count_tokens title index buf) = join (s " ") buf.
Proof. intros H. simpl. now apply join_stripped. Qed.

Lemma sections_of_nonempty (text : str) (matches : list (nat * nat)) :
  Forall (fun sec => is_piece (snd sec)) (sections_of text matches).
Proof.
  induction matches as [|[a b] rest IH]; [constructor|].
  cbn [sections_of]. apply Forall_app. split; [|exact IH].
  destruct (truthy _) eqn:E; constructor; [|constructor].
  split; [now apply truthy_nonempty | apply strip_idem].
Qed.

(** With a heading in the text every section has a body that is not
    empty and is trimmed; without one the single body is the text. *)
Lemma detect_sections_bodies (text : str) :
  (finditer header_regex text = [] /\ _detect_sections text = [(None, text)])
  \/ Forall (fun sec => is_piece (snd sec)) (_detect_sections text).
Proof.
  unfold _detect_sections.
  destruct (finditer header_regex text) as [|[a b] rest] eqn:E; [now left|].
  right. apply Forall_app. split; [|apply sections_of_nonempty].
  destruct (0 <? a); [|constructor].
  destruct (truthy _) eqn:Ht; constructor; [|constructor].
  split; [now apply truthy_nonempty | apply strip_idem].
Qed.

(** X4.  For a text that is not blank, no chunk has an empty content. *)
Theorem no_empty_chunk_for_nonblank_text (count_tokens : str -> nat)
        (settings : Settings) (text : str) (chunk_size chunk_overlap : option nat) :
  strip text <> [] ->
  Forall (fun c => content c <> [])
         (chunk_text count_tokens settings text chunk_size chunk_overlap).
Proof.
  intros Hink. unfold chunk_text.
  apply section_loop_inv with (Sec := fun sec => strip (snd sec) <> []).
  - intros title body index Hbody _. exact Hbody.
  - intros title body index _. apply split_by_tokens_from_pieces.
    intros i buf Hne Hbuf. rewrite make_chunk_content by exact Hbuf.
    destruct buf as [|p buf]; [congruence|].
    inversion Hbuf as [|? ? [Hp _] _]; subst. now apply join_nonempty.
  - destruct (detect_sections_bodies text) as [[_ ->]|H].
    + constructor; [exact Hink | constructor].
    + eapply Forall_impl; [|exact H]. intros sec [Hne Hs]. now rewrite Hs.
  - constructor.
Qed.

Lemma no_empty_chunk_for_nonblank_text_witness :
  Forall (fun c => content c <> [])
         (chunk_text ink_count default_settings three_sentences (Some 5) (Some 4)).
Proof.
  apply (@no_empty_chunk_for_nonblank_text ink_count default_settings
                                           three_sentences (Some 5) (Some 4)).
  vm_compute. discriminate.
Defined.

(** The specification's example document under a counter of one token
    per character: it has headings, so every stored count is the count
    of the stored content. *)
Lemma chunk_text_counts_content_witness :
  let count := fun x : str => length x in
  Forall (fun c => token_count c = count (content c))
         (chunk_text count default_settings two_sections (Some 20) (Some 5)).
Proof.
  apply (@ChunkingClaims.chunk_text_counts_content
           (fun x : str => length x) default_settings two_sections
           (Some 20) (Some 5)).
  left. vm_compute. discriminate.
Defined.

(** ** The overlap kept after a flush *)

Lemma overlap_loop_suffix (count_tokens : str -> nat) (chunk_overlap : nat)
      (todo acc : list str) (tok : nat) :
  let r := overlap_loop count_tokens chunk_overlap todo acc tok in
  exists taken left,
    todo = taken ++ left
    /\ fst r = rev taken ++ acc
    /\ snd r = tok + counted count_tokens taken
    /\ (left = [] \/ exists x left', left = x :: left'
                                     /\ chunk_overlap < snd r + count_tokens x).
Proof.
  revert acc tok. induction todo as [|x todo IH]; intros acc tok; simpl.
  - exists [], []. unfold counted. simpl. repeat split; auto.
  - destruct (tok + count_tokens x <=? chunk_overlap) eqn:E.
    + destruct (IH (x :: acc) (tok + count_tokens x))
        as [taken [left [H1 [H2 [H3 H4]]]]].
      exists (x :: taken), left. repeat split.
      * simpl. now f_equal.
      * rewrite H2. simpl. now rewrite <- app_assoc.
      * rewrite H3. unfold counted. simpl. lia.
      * exact H4.
    + apply Nat.leb_gt in E.
      exists [], (x :: todo). unfold counted. simpl. repeat split; auto.
      right. exists x, todo. split; [reflexivity | lia].
Qed.

(** X5.  The overlap that seeds the next chunk is the longest run of
    pieces at the end of the flushed buffer whose token counts, added from
    the last piece backwards, stay within [chunk_overlap]: the buffer is
    [dropped ++ kept], the total returned is the count of [kept], it is at
    most [chunk_overlap], and either nothing is dropped or the last
    dropped piece would take the total over [chunk_overlap]. *)
Theorem overlap_is_longest_fitting_suffix (count_tokens : str -> nat)
        (chunk_overlap : nat) (buf : list str) :
  let kept := fst (overlap_loop count_tokens chunk_overlap (rev buf) [] 0) in
  let total := snd (overlap_loop count_tokens chunk_overlap (rev buf) [] 0) in
  exists dropped,
    buf = dropped ++ kept
    /\ total = counted count_tokens kept
    /\ total <= chunk_overlap
    /\ (dropped = []
        \/ exists x dropped', dropped = dropped' ++ [x]
                              /\ chunk_overlap < total + count_tokens x).
Proof.
  intros kept total.
  destruct (@overlap_loop_suffix count_tokens chunk_overlap (rev buf) [] 0)
    as [taken [left [H1 [H2 [H3 H4]]]]].
  destruct (@overlap_loop_spec count_tokens chunk_overlap (rev buf) [] 0)
    as [H5 [H6 _]]; [reflexivity | lia |].
  fold kept in H2, H5. fold total in H3, H4, H5, H6.
  rewrite app_nil_r in H2.
  exists (rev left). repeat split.
  - rewrite H2, <- rev_app_distr, <- H1. symmetry. apply rev_involutive.
  - now rewrite H5.
  - exact H6.
  - destruct H4 as [->|[x [left' [-> Hx]]]]; [now left|].
    right. exists x, (rev left'). split; [reflexivity | exact Hx].
Qed.

End ChunkingMore.

Module Coverage.
Import Re PyStrFacts Chunking ChunkingFacts.

Lemma infix_refl (x : str) : infix x x.
Proof. exists [], []. now rewrite app_nil_r. Qed.

Lemma infix_app_l (x y p : str) : infix x y -> infix x (p ++ y).
Proof.
  intros [a [b ->]]. exists (p ++ a), b. now rewrite <- app_assoc.
Qed.

Lemma infix_app_r (x y q : str) : infix x y -> infix x (y ++ q).
Proof.
  intros [a [b ->]]. exists a, (b ++ q). now rewrite <- !app_assoc.
Qed.

(** Every piece of a buffer occurs in the joined buffer. *)
Lemma infix_join (sep x : str) (buf : list str) :
  In x buf -> infix x (join sep buf).
Proof.
  induction buf as [|p buf IH]; [intros []|].
  destruct buf as [|q buf].
  - intros [->|[]]. apply infix_refl.
  - rewrite join_cons. intros [->|H].
    + apply infix_app_r, infix_refl.
    + apply infix_app_l, infix_app_l, IH, H.
Qed.

Lemma covered_app (cs ds : list ChunkData) (x : str) :
  covered cs x -> covered (cs ++ ds) x.
Proof.
  intros [c [Hc Hx]]. exists c. split; [apply in_or_app; now left | exact Hx].
Qed.

Lemma covered_flush (count_tokens : str -> nat) (title : option str) (index : nat)
      (cs : list ChunkData) (buf : list str) (x : str) :
  Forall is_piece buf -> In x buf ->
  covered (cs ++ [make_chunk count_tokens title index buf]) x.
Proof.
  intros Hbuf Hx. exists (make_chunk count_tokens title index buf). split.
  - apply in_or_app. right. now left.
  - simpl. rewrite join_stripped by exact Hbuf. now apply infix_join.
Qed.

Section Loops.

Variable count_tokens : str -> nat.
Variable title : option str.
Variables chunk_size chunk_overlap : nat.

Lemma word_step_pieces (st : WordLoop) (w : str) :
  Forall is_piece (word_chunk st) -> is_word w ->
  Forall is_piece (word_chunk (word_step count_tokens title chunk_size st w)).
Proof.
  intros Hst Hw. unfold word_step.
  destruct ((chunk_size <? _) && _); simpl.
  - constructor; [now apply word_is_piece | constructor].
  - apply Forall_app. split; [exact Hst|].
    constructor; [now apply word_is_piece | constructor].
Qed.

Lemma word_step_holds (st : WordLoop) (w x : str) :
  Forall is_piece (word_chunk st) ->
  held_w st x \/ x = w ->
  held_w (word_step count_tokens title chunk_size st w) x.
Proof.
  intros Hst Hx. unfold word_step, held_w.
  destruct ((chunk_size <? _) && _); simpl.
  - destruct Hx as [[Hx|Hx]| ->].
    + left. now apply covered_app.
    + left. now apply covered_flush.
    + right. now left.
  - destruct Hx as [[Hx|Hx]| ->].
    + now left.
    + right. apply in_or_app. now left.
    + right. apply in_or_app. right. now left.
Qed.

Lemma word_loop_holds (words : list str) :
  Forall is_word words ->
  forall (st : WordLoop) (seen : list str),
  Forall is_piece (word_chunk st) ->
  Forall (held_w st) seen ->
  let st' := fold_left (word_step count_tokens title chunk_size) words st in
  Forall is_piece (word_chunk st') /\ Forall (held_w st') (seen ++ words).
Proof.
  induction 1 as [|w words Hw _ IH]; intros st seen Hst Hseen; simpl.
  - rewrite app_nil_r. auto.
  - destruct (IH (word_step count_tokens title chunk_size st w) (seen ++ [w]))
      as [H1 H2].
    + now apply word_step_pieces.
    + apply Forall_app. split.
      * eapply Forall_impl; [|exact Hseen]. intros x Hx.
        apply word_step_holds; auto.
      * constructor; [|constructor]. apply word_step_holds; auto.
    + split; [exact H1|]. now rewrite <- app_assoc in H2.
Qed.

Lemma flush_pending_holds (st : SentenceLoop) (x : str) :
  Forall is_piece (current_chunk st) -> held st x ->
  covered (chunks (flush_pending count_tokens title st)) x.
Proof.
  intros Hst [Hx|Hx]; unfold flush_pending.
  - destruct (current_chunk st); simpl; [exact Hx | now apply covered_app].
  - destruct (current_chunk st) as [|p buf] eqn:E; [destruct Hx|].
    simpl. rewrite <- E. apply covered_flush; now rewrite E.
Qed.

Lemma flush_pending_buffer (st : SentenceLoop) :
  current_chunk (flush_pending count_tokens title st) = [].
Proof. unfold flush_pending. destruct (current_chunk st) eqn:E; [exact E | reflexivity]. Qed.

(** After the word-level fallback, what was in a chunk still is, and
    every word of the long sentence is in a chunk or in the buffer. *)
Lemma split_by_words_holds (st : SentenceLoop) (y : str) (seen : list str) :
  current_chunk st = [] ->
  Forall (covered (chunks st)) seen ->
  let st' := split_by_words count_tokens title chunk_size st y in
  Forall is_piece (current_chunk st')
  /\ Forall (held st') (seen ++ PyStr.split y).
Proof.
  intros Hempty Hseen. unfold split_by_words.
  destruct (@word_loop_holds (PyStr.split y) (split_words y)
              (mkWordLoop (chunks st) (next_index st) [] 0) seen)
    as [H1 H2].
  - constructor.
  - eapply Forall_impl; [|exact Hseen]. intros x Hx. now left.
  - cbv zeta in H1, H2. unfold held_w in H2. unfold held.
    destruct (word_chunk _) as [|p buf] eqn:E; simpl; split.
    + rewrite Hempty. constructor.
    + eapply Forall_impl; [|exact H2]. intros x [Hx|[]]. now left.
    + exact H1.
    + exact H2.
Qed.

Lemma word_loop_keeps (words : list str) (c : ChunkData) :
  forall st : WordLoop,
  In c (w_chunks st) ->
  In c (w_chunks (fold_left (word_step count_tokens title chunk_size) words st)).
Proof.
  induction words as [|w words IH]; intros st H; simpl; [exact H|].
  apply IH. unfold word_step.
  destruct ((chunk_size <? _) && _); simpl; [|exact H].
  apply in_or_app. now left.
Qed.

Lemma split_by_words_keeps (st : SentenceLoop) (y x : str) :
  covered (chunks st) x ->
  covered (chunks (split_by_words count_tokens title chunk_size st y)) x.
Proof.
  intros [c [Hc Hx]]. exists c. split; [|exact Hx].
  unfold split_by_words.
  destruct (word_chunk _); simpl; apply word_loop_keeps; exact Hc.
Qed.

Local Abbreviation wanted := (@wanted count_tokens chunk_size).

Lemma wanted_impl (H H' : str -> Prop) (x : str) :
  (forall y, H y -> H' y) -> wanted H x -> wanted H' x.
Proof.
  intros Himp. unfold wanted. destruct (chunk_size <? count_tokens x); auto.
  apply Forall_impl, Himp.
Qed.

Lemma sentence_step_holds (st : SentenceLoop) (y : str) (seen : list str) :
  Forall is_piece (current_chunk st) -> is_piece y ->
  Forall (wanted (held st)) seen ->
  let st' := sentence_step count_tokens title chunk_size chunk_overlap st y in
  Forall is_piece (current_chunk st')
  /\ Forall (wanted (held st')) (seen ++ [y]).
Proof.
  intros Hst Hy Hseen. unfold sentence_step.
  destruct (chunk_size <? count_tokens y) eqn:Hbig.
  - (* word-level fallback: everything held so far goes into chunks first *)
    set (st1 := flush_pending count_tokens title st).
    assert (Hcov : forall x, held st x -> covered (chunks st1) x)
      by (intros x; now apply flush_pending_holds).
    destruct (@split_by_words_holds st1 y [] (flush_pending_buffer st)
                (Forall_nil _)) as [H1 H2].
    split; [exact H1|]. apply Forall_app. split.
    + eapply Forall_impl; [|exact Hseen]. intros x.
      apply wanted_impl. intros z Hz. left.
      apply split_by_words_keeps, Hcov, Hz.
    + constructor; [|constructor]. unfold wanted. rewrite Hbig. exact H2.
  - destruct ((chunk_size <? current_tokens st + count_tokens y)
              && negb (length (current_chunk st) =? 0)) eqn:Hflush; simpl.
    + destruct (@overlap_loop_spec count_tokens chunk_overlap
                  (rev (current_chunk st)) [] 0) as [_ [_ Hin]];
        [reflexivity | lia |].
      destruct (overlap_loop count_tokens chunk_overlap (rev (current_chunk st)) [] 0)
        as [oc ot]. simpl in *. split.
      * apply Forall_app. split; [|constructor; [exact Hy | constructor]].
        apply Forall_forall. intros z Hz. rewrite Forall_forall in Hst.
        destruct (Hin z Hz) as [H|[]]. apply Hst, in_rev, H.
      * apply Forall_app. split.
        -- eapply Forall_impl; [|exact Hseen]. intros x.
           apply wanted_impl. intros z [Hz|Hz]; left.
           ++ now apply covered_app.
           ++ now apply covered_flush.
        -- constructor; [|constructor]. unfold wanted. rewrite Hbig.
           right. simpl. apply in_or_app. right. now left.
    + split.
      * apply Forall_app. split; [exact Hst | constructor; [exact Hy | constructor]].
      * apply Forall_app. split.
        -- eapply Forall_impl; [|exact Hseen]. intros x.
           apply wanted_impl. intros z [Hz|Hz]; [now left|].
           right. simpl. apply in_or_app. now left.
        -- constructor; [|constructor]. unfold wanted. rewrite Hbig.
           right. simpl. apply in_or_app. right. now left.
Qed.

Lemma sentence_loop_holds (sentences : list str) :
  Forall is_piece sentences ->
  forall (st : SentenceLoop) (seen : list str),
  Forall is_piece (current_chunk st) ->
  Forall (wanted (held st)) seen ->
  let st' := fold_left (sentence_step count_tokens title chunk_size chunk_overlap)
                       sentences st in
  Forall is_piece (current_chunk st')
  /\ Forall (wanted (held st')) (seen ++ sentences).
Proof.
  induction 1 as [|y sentences Hy _ IH]; intros st seen Hst Hseen; simpl.
  - rewrite app_nil_r. auto.
  - destruct (@sentence_step_holds st y seen Hst Hy Hseen) as [H1 H2].
    destruct (IH _ _ H1 H2) as [H3 H4].
    split; [exact H3|]. now rewrite <- app_assoc in H4.
Qed.

End Loops.

(** X6.  Nothing is dropped when a section is split: every sentence that
    fits the chunk size is contained, whole, in the content of some chunk
    of [_split_by_tokens], and every word of a sentence that does not fit
    is contained in the content of some chunk. *)
Theorem every_sentence_is_in_a_chunk (count_tokens : str -> nat) (text : str)
        (title : option str) (chunk_size chunk_overlap start : nat) :
  let result := _split_by_tokens count_tokens text title chunk_size
                                 chunk_overlap start in
  Forall (fun x => if chunk_size <? count_tokens x
                   then Forall (covered result) (PyStr.split x)
                   else covered result x)
         (_split_sentences text).
Proof.
  intros result. subst result. unfold _split_by_tokens.
  destruct (@sentence_loop_holds count_tokens title chunk_size chunk_overlap
              (_split_sentences text) (split_sentences_pieces text)
              (mkSentenceLoop [] start [] 0) [] (Forall_nil _) (Forall_nil _))
    as [H1 H2].
  simpl in H2.
  set (st := fold_left _ _ _) in *.
  eapply Forall_impl; [|exact H2]. intros x. apply wanted_impl.
  intros z [Hz|Hz].
  - destruct (current_chunk st); [exact Hz | now apply covered_app].
  - destruct (current_chunk st) as [|p buf] eqn:E; [destruct Hz|].
    rewrite <- E. apply covered_flush; now rewrite E.
Qed.

End Coverage.

(* ================================================================== *)
(** * Facts about the embedding and retrieval services *)
(* ================================================================== *)

Module EmbeddingFacts.
Import PyStrFacts Embedding.

Lemma clean_text_blank (text : str) :
  forallb is_space text = true -> _clean_text text = [].
Proof.
  intros H. unfold _clean_text.
  destruct (negb (truthy text)); [reflexivity|].
  unfold PyStr.split. rewrite (split_from_spaces _ H). simpl join.
  replace (max_chars <? length (@nil ascii)) with false; [reflexivity|].
  symmetry. apply Nat.ltb_ge. simpl. lia.
Qed.

Lemma embed_query_blank (embed_content : nat -> str -> option (list float))
      (query : str) :
  forallb is_space query = true ->
  embed_query embed_content query = Raise ValueError.
Proof.
  intros H. unfold embed_query. now rewrite (clean_text_blank _ H).
Qed.

End EmbeddingFacts.

(** ** PostgreSQL's order on floats is a total preorder *)

Module FloatOrder.
Import Retrieval.

Lemma float_ge_spec (x y : float) : float_ge x y = sf_ge (Prim2SF x) (Prim2SF y).
Proof.
  unfold float_ge, sf_ge, PrimFloat.is_nan.
  now rewrite !FloatAxioms.eqb_spec, FloatAxioms.leb_spec.
Qed.

Ltac sf_step :=
  match goal with
  | |- context [Z.compare ?a ?b] => destruct (Z.compare_spec a b)
  | |- context [Pos.compare ?a ?b] => destruct (Pos.compare_spec a b)
  end.

Ltac sf_cases :=
  unfold sf_ge, SFeqb, SFleb, SFcompare;
  try (simpl; first [tauto | congruence]);
  repeat match goal with
         | |- context [Pos.compare_cont Eq ?m ?n] =>
             change (Pos.compare_cont Eq m n) with (Pos.compare m n)
         end;
  repeat (sf_step; simpl; try solve [tauto | congruence | lia]).

Lemma sf_ge_total (a b : spec_float) : sf_ge a b = true \/ sf_ge b a = true.
Proof.
  destruct a as [[]|[]| |[] ma ea], b as [[]|[]| |[] mb eb]; sf_cases.
Qed.

Lemma sf_ge_trans (a b c : spec_float) :
  sf_ge a b = true -> sf_ge b c = true -> sf_ge a c = true.
Proof.
  destruct a as [[]|[]| |[] ma ea], b as [[]|[]| |[] mb eb],
           c as [[]|[]| |[] mc ec]; sf_cases.
Qed.

Lemma float_ge_total (x y : float) : float_ge x y = true \/ float_ge y x = true.
Proof. rewrite !float_ge_spec. apply sf_ge_total. Qed.

Lemma float_ge_trans (x y z : float) :
  float_ge x y = true -> float_ge y z = true -> float_ge x z = true.
Proof. rewrite !float_ge_spec. apply sf_ge_trans. Qed.

End FloatOrder.

Module RetrievalFacts.
Import PyStrFacts Embedding EmbeddingFacts Retrieval FloatOrder.

(** C10.  For a query that is empty or all white space, [embed_query]
    raises [ValueError] whatever the embedding API would answer, and so
    [retrieve_chunks] has that exception as its only outcome: it never
    returns chunks, for any table, scope and [top_k]. *)
Theorem blank_query_raises_value_error
        (embed_content : nat -> str -> option (list float)) (query : str) :
  forallb is_space query = true ->
  embed_query embed_content query = Raise ValueError
  /\ forall top_k_chunks table paper top_k out,
       retrieve_chunks embed_content top_k_chunks table query paper top_k out
       <-> out = Raise ValueError.
Proof.
  intros H. pose proof (embed_query_blank embed_content _ H) as E.
  split; [exact E|].
  intros top_k_chunks table paper top_k out. unfold retrieve_chunks.
  rewrite E. reflexivity.
Qed.

(** A query of three spaces, against an API that would always answer. *)
Lemma blank_query_raises_value_error_witness :
  let api := fun (_ : nat) (_ : str) => Some [1%float] in
  embed_query api (s "   ") = Raise ValueError
  /\ embed_query api [] = Raise ValueError
  /\ retrieve_chunks api default_top_k [] (s "   ") None None (Raise ValueError).
Proof.
  intros api.
  destruct (@blank_query_raises_value_error api (s "   ") eq_refl) as [H1 H2].
  destruct (@blank_query_raises_value_error api [] eq_refl) as [H3 _].
  split; [exact H1|]. split; [exact H3|].
  apply H2. reflexivity.
Defined.

(** ** The rows of the similarity statement *)

Lemma not_null_similarity (q : list float) (cs : list Candidate)
      (c : Candidate) (sim : float) :
  In (c, sim) (not_null q cs) -> In c cs /\ similarity (embedding c) q = Some sim.
Proof.
  induction cs as [|c' cs IH]; simpl; [tauto|].
  destruct (similarity (embedding c') q) as [sim'|] eqn:E.
  - intros [H|H].
    + inversion H; subst. auto.
    + destruct (IH H). auto.
  - intros H. destruct (IH H). auto.
Qed.

Lemma in_firstn {A} (n : nat) (l : list A) (x : A) :
  In x (firstn n l) -> In x l.
Proof.
  revert n. induction l as [|a l IH]; intros n; destruct n; simpl; try tauto.
  intros [H|H]; [now left | right; eapply IH, H].
Qed.

Lemma sql_rows_valid table q top_k paper rows :
  sql_rows table q top_k paper rows ->
  forall row, In row rows -> In row (valid_rows table q paper).
Proof.
  intros [sorted [Hperm [_ ->]]] row Hin.
  apply (Permutation_in _ Hperm). eapply in_firstn, Hin.
Qed.

Lemma zero_denominator_null (e q : list float) (m : float) :
  magnitude_product e q = Some m -> PrimFloat.eqb m 0%float = true ->
  similarity e q = None.
Proof.
  intros Hm Hz. unfold similarity, nullif_zero. rewrite Hm, Hz.
  destruct (dot_product e q); reflexivity.
Qed.

Lemma StronglySorted_firstn {A} (R : A -> A -> Prop) (l : list A) (n : nat) :
  StronglySorted R l -> StronglySorted R (firstn n l).
Proof.
  revert n. induction l as [|a l IH]; intros n H; destruct n; simpl;
    try constructor.
  - apply IH. now inversion H.
  - inversion H as [|? ? _ Hall]; subst.
    rewrite Forall_forall in *. intros x Hx. eapply Hall, in_firstn, Hx.
Qed.

(** ** The statement always has rows to return *)

Lemma insert_desc_perm (row : Candidate * float) (rows : list (Candidate * float)) :
  Permutation (insert_desc row rows) (row :: rows).
Proof.
  induction rows as [|r rest IH]; simpl; [reflexivity|].
  destruct (float_ge (snd row) (snd r)); [reflexivity|].
  rewrite IH. apply perm_swap.
Qed.

Lemma order_by_desc_perm (rows : list (Candidate * float)) :
  Permutation (order_by_desc rows) rows.
Proof.
  induction rows as [|r rest IH]; simpl; [reflexivity|].
  rewrite insert_desc_perm. now constructor.
Qed.

Lemma insert_desc_ordered (row : Candidate * float) (rows : list (Candidate * float)) :
  ordered_desc rows -> ordered_desc (insert_desc row rows).
Proof.
  unfold ordered_desc. induction rows as [|r rest IH]; intros H; simpl.
  - repeat constructor.
  - inversion H as [|? ? Hrest Hall]; subst.
    destruct (float_ge (snd row) (snd r)) eqn:E.
    + constructor; [exact H|]. constructor; [exact E|].
      eapply Forall_impl; [|exact Hall]. intros y Hy.
      eapply float_ge_trans; eassumption.
    + constructor; [now apply IH|].
      apply Forall_forall. intros y Hy.
      apply (Permutation_in _ (insert_desc_perm row rest)) in Hy.
      destruct Hy as [<-|Hy].
      * destruct (float_ge_total (snd row) (snd r)); congruence.
      * rewrite Forall_forall in Hall. now apply Hall.
Qed.

Lemma order_by_desc_ordered (rows : list (Candidate * float)) :
  ordered_desc (order_by_desc rows).
Proof.
  induction rows as [|r rest IH]; simpl; [constructor|].
  now apply insert_desc_ordered.
Qed.

(** The relation [sql_rows] relates every table, query vector, [k] and
    scope to some rows: those in the order that keeps earlier rows first
    among equals.  (This is a fact about the relation; the statement
    itself is aborted by PostgreSQL on an overflow or underflow of
    [float8], which [sql_rows] does not describe.) *)
Lemma stable_rows_allowed table q top_k paper :
  sql_rows table q top_k paper (stable_rows table q top_k paper).
Proof.
  exists (order_by_desc (valid_rows table q paper)).
  repeat split; [apply order_by_desc_perm | apply order_by_desc_ordered].
Qed.

(** Over an empty table the statement returns no row, so a query that
    embeds retrieves the empty list. *)
Lemma empty_table_retrieves_nothing
      (embed_content : nat -> str -> option (list float)) (top_k_chunks : nat)
      (query : str) (paper : option str) (top_k : option nat) (q : list float) :
  embed_query embed_content query = Return q ->
  forall out,
    retrieve_chunks embed_content top_k_chunks [] query paper top_k out
    <-> out = Return [].
Proof.
  intros Hq out. unfold retrieve_chunks, _vector_search, sql_rows. rewrite Hq.
  change (valid_rows [] q paper) with (@nil (Candidate * float)).
  split.
  - intros [chunks [[rows [[sorted [Hperm [_ ->]]] ->]] ->]].
    apply Permutation_sym in Hperm. apply Permutation_nil in Hperm.
    subst sorted. now rewrite firstn_nil.
  - intros ->. exists []. split; [|reflexivity].
    exists []. split; [|reflexivity].
    exists []. split; [apply perm_nil|]. split; [constructor|].
    now rewrite firstn_nil.
Qed.

Lemma example_valid_rows :
  valid_rows [cand_A; cand_B] [1%float; 0%float] None = [(cand_A, 1%float)].
Proof. vm_compute. reflexivity. Qed.

(** C4.  A candidate for which the denominator of the similarity is zero
    is in no row that the statement returns.  For the candidates
    [(A, [1,0])] and [(B, [0,0])], the query [[1,0]] and [k = 5], the one
    list that [_vector_search] can return holds one chunk: the chunk with
    the id, the content, the index and the paper of [A], and the
    similarity score 1.0. *)
Theorem zero_denominator_is_excluded :
  (forall table q top_k paper rows c m,
      sql_rows table q top_k paper rows ->
      magnitude_product (embedding c) q = Some m ->
      PrimFloat.eqb m 0%float = true ->
      ~ In c (map fst rows))
  /\ (forall chunks,
        _vector_search [cand_A; cand_B] [1%float; 0%float] 5 None chunks
        <-> chunks = [mkRetrievedChunk (s "A") (s "first chunk") None 0 1%float
                                       (Some (s "paper")) (Some (s "paper.pdf"))]).
Proof.
  split.
  - intros table q top_k paper rows c m Hrows Hm Hz Hin.
    apply in_map_iff in Hin as [[c' sim] [Hc Hin]]. simpl in Hc. subst c'.
    apply (sql_rows_valid Hrows) in Hin.
    apply not_null_similarity in Hin as [_ Hsim].
    rewrite (zero_denominator_null _ _ Hm Hz) in Hsim. discriminate.
  - intros chunks. unfold _vector_search, sql_rows.
    rewrite example_valid_rows. split.
    + intros [rows [[sorted [Hperm [_ ->]]] ->]].
      apply Permutation_sym, Permutation_length_1_inv in Hperm. subst sorted.
      reflexivity.
    + intros ->. exists [(cand_A, 1%float)]. split; [|reflexivity].
      exists [(cand_A, 1%float)]. repeat split; auto.
      repeat constructor.
Qed.

Lemma zero_denominator_is_excluded_witness :
  sql_rows [cand_A; cand_B] [1%float; 0%float] 5 None [(cand_A, 1%float)]
  /\ magnitude_product (embedding cand_B) [1%float; 0%float] = Some 0%float
  /\ ~ In cand_B (map fst [(cand_A, 1%float)]).
Proof.
  assert (H : sql_rows [cand_A; cand_B] [1%float; 0%float] 5 None
                       [(cand_A, 1%float)]).
  { exists [(cand_A, 1%float)]. rewrite example_valid_rows.
    repeat split; auto. repeat constructor. }
  split; [exact H|]. split; [reflexivity|].
  exact (proj1 zero_denominator_is_excluded _ _ _ _ _ cand_B 0%float
               H eq_refl eq_refl).
Defined.

(** C5, as amended.  Every list of rows that the statement can return is
    in descending order of similarity, has [min(k, number of valid rows)]
    rows, all of them valid, and holds every valid row when there are at
    most [k] of them.  (The order among rows of equal similarity is not
    fixed by the statement.) *)
Theorem rows_are_ordered_and_limited table q top_k paper rows :
  sql_rows table q top_k paper rows ->
  ordered_desc rows
  /\ length rows = Nat.min top_k (length (valid_rows table q paper))
  /\ (forall row, In row rows -> In row (valid_rows table q paper))
  /\ (length (valid_rows table q paper) <= top_k ->
      Permutation rows (valid_rows table q paper)).
Proof.
  intros Hrows. pose proof (sql_rows_valid Hrows) as Hvalid.
  destruct Hrows as [sorted [Hperm [Hsorted ->]]].
  repeat split.
  - apply StronglySorted_firstn, Hsorted.
  - rewrite length_firstn, (Permutation_length Hperm). reflexivity.
  - exact Hvalid.
  - intros Hle. rewrite firstn_all2; [exact Hperm|].
    now rewrite (Permutation_length Hperm).
Qed.

Lemma tie_valid_rows :
  valid_rows [cand_A; cand_A'] [1%float; 0%float] None
  = [(cand_A, 1%float); (cand_A', 1%float)].
Proof. vm_compute. reflexivity. Qed.

Lemma rows_are_ordered_and_limited_witness :
  let rows := [(cand_A, 1%float); (cand_A', 1%float)] in
  sql_rows [cand_A; cand_A'] [1%float; 0%float] 5 None rows
  /\ ordered_desc rows
  /\ length rows = 2.
Proof.
  intros rows.
  assert (H : sql_rows [cand_A; cand_A'] [1%float; 0%float] 5 None rows).
  { exists rows. rewrite tie_valid_rows. repeat split; auto.
    repeat constructor. }
  destruct (rows_are_ordered_and_limited H) as [H1 [H2 _]].
  split; [exact H|]. split; [exact H1|]. reflexivity.
Defined.

(** C5, as stated, fails on the tie: with [k = 1] the statement may
    return the later of two candidates of equal similarity, and with
    [k = 5] it may return the two in either order, so the result is not
    determined by the input. *)
Lemma tie_order_is_not_fixed :
  similarity (embedding cand_A) [1%float; 0%float]
  = similarity (embedding cand_A') [1%float; 0%float]
  /\ sql_rows [cand_A; cand_A'] [1%float; 0%float] 1 None [(cand_A', 1%float)]
  /\ sql_rows [cand_A; cand_A'] [1%float; 0%float] 5 None
              [(cand_A, 1%float); (cand_A', 1%float)]
  /\ sql_rows [cand_A; cand_A'] [1%float; 0%float] 5 None
              [(cand_A', 1%float); (cand_A, 1%float)].
Proof.
  split; [reflexivity|].
  assert (Hswap : Permutation [(cand_A', 1%float); (cand_A, 1%float)]
                              [(cand_A, 1%float); (cand_A', 1%float)])
    by apply perm_swap.
  repeat split.
  - exists [(cand_A', 1%float); (cand_A, 1%float)]. rewrite tie_valid_rows.
    repeat split; auto. repeat constructor.
  - exists [(cand_A, 1%float); (cand_A', 1%float)]. rewrite tie_valid_rows.
    repeat split; auto. repeat constructor.
  - exists [(cand_A', 1%float); (cand_A, 1%float)]. rewrite tie_valid_rows.
    repeat split; auto. repeat constructor.
Qed.

End RetrievalFacts.

(* ================================================================== *)
(** * More facts about the embedding service *)
(* ================================================================== *)

Module EmbeddingMore.
Import PyStrFacts Embedding EmbeddingFacts EmbeddingDocs ChunkingFacts.

(** ** [_clean_text] *)

Lemma max_chars_positive : 0 < max_chars.
Proof. unfold max_chars. lia. Qed.

Lemma split_from_nil (x w : str) :
  split_from w x = [] -> w = [] /\ forallb is_space x = true.
Proof.
  revert w. induction x as [|c x IH]; intros w; simpl.
  - destruct w; [auto | discriminate].
  - destruct (is_space c) eqn:E.
    + destruct w as [|d w]; [|discriminate].
      intros H. destruct (IH _ H). auto.
    + intros H. destruct (IH _ H) as [H1 _]. discriminate.
Qed.

Lemma firstn_nonempty {A} (n : nat) (l : list A) :
  0 < n -> l <> [] -> firstn n l <> [].
Proof. destruct n, l; simpl; intros; try lia; congruence. Qed.

Lemma clean_text_empty (text : str) :
  _clean_text text = [] -> forallb is_space text = true.
Proof.
  unfold _clean_text. destruct text as [|c text]; [reflexivity|].
  cbn [truthy negb].
  destruct (PyStr.split (c :: text)) as [|p ps] eqn:E.
  - intros _. apply split_from_nil in E. apply E.
  - intros H. exfalso.
    assert (Hp : p <> []).
    { pose proof (split_words (c :: text)) as Hw. rewrite E in Hw.
      inversion Hw as [|? ? [Hp _] _]. exact Hp. }
    pose proof (join_nonempty (s " ") ps Hp) as Hj.
    destruct (max_chars <? _); [|contradiction].
    now apply (firstn_nonempty max_chars_positive) in Hj.
Qed.

(** X12.  The cleaned text never has more than 25000 characters, and it
    is empty exactly when the text is empty or all white space. *)
Theorem clean_text_is_bounded_and_empty_only_for_blank (text : str) :
  length (_clean_text text) <= max_chars
  /\ (_clean_text text = [] <-> forallb is_space text = true).
Proof.
  split.
  - unfold _clean_text. destruct (negb (truthy text)); [simpl; lia|].
    destruct (max_chars <? _) eqn:E.
    + rewrite length_firstn. lia.
    + now apply Nat.ltb_ge in E.
  - split; [apply clean_text_empty | apply clean_text_blank].
Qed.

(** ** [" ".join(text.split())] *)

Lemma split_from_word (w acc y : str) :
  forallb (fun c => negb (is_space c)) w = true ->
  split_from acc (w ++ y) = split_from (rev w ++ acc) y.
Proof.
  revert acc. induction w as [|c w IH]; intros acc H; simpl; [reflexivity|].
  simpl in H. apply andb_true_iff in H as [Hc Hw].
  apply negb_true_iff in Hc. rewrite Hc, (IH _ Hw), <- app_assoc. reflexivity.
Qed.

(** Splitting the joined words gives the words back. *)
Lemma split_join (ws : list str) :
  Forall is_word ws -> PyStr.split (join (s " ") ws) = ws.
Proof.
  unfold PyStr.split. induction 1 as [|p ws [Hne Hp] _ IH]; [reflexivity|].
  destruct ws as [|q ws].
  - simpl join.
    replace (split_from [] p) with (split_from [] (p ++ []))
      by now rewrite app_nil_r.
    rewrite (@split_from_word p [] [] Hp), app_nil_r.
    simpl. destruct (rev p) eqn:E.
    + apply (f_equal (@rev ascii)) in E. rewrite rev_involutive in E.
      contradiction.
    + rewrite <- E. now rewrite rev_involutive.
  - rewrite join_cons, (@split_from_word p [] _ Hp), app_nil_r.
    change (s " ") with [" "%char]. simpl.
    destruct (rev p) eqn:E.
    + apply (f_equal (@rev ascii)) in E. rewrite rev_involutive in E.
      contradiction.
    + rewrite <- E, rev_involutive. f_equal. exact IH.
Qed.

Lemma clean_text_short (text : str) :
  length (join (s " ") (PyStr.split text)) <= max_chars ->
  _clean_text text = join (s " ") (PyStr.split text).
Proof.
  intros H. unfold _clean_text. destruct text as [|c text]; [reflexivity|].
  cbn [truthy negb]. apply Nat.ltb_ge in H. now rewrite H.
Qed.

(** X13.  For a text whose words, joined by single spaces, stay within
    the limit of 25000 characters, cleaning only normalises the white
    space: the result is the words joined by single spaces, it has no
    white space at its ends, its words are the words of the text, and
    cleaning it again changes nothing. *)
Theorem cleaning_normalises_white_space (text : str) :
  length (join (s " ") (PyStr.split text)) <= max_chars ->
  _clean_text text = join (s " ") (PyStr.split text)
  /\ strip (_clean_text text) = _clean_text text
  /\ PyStr.split (_clean_text text) = PyStr.split text
  /\ _clean_text (_clean_text text) = _clean_text text.
Proof.
  intros H. pose proof (clean_text_short text H) as E.
  assert (Hs : PyStr.split (_clean_text text) = PyStr.split text).
  { rewrite E. apply split_join, split_words. }
  repeat split.
  - exact E.
  - rewrite E. apply join_stripped.
    eapply Forall_impl; [|apply split_words]. intros w Hw.
    now apply word_is_piece.
  - exact Hs.
  - rewrite (clean_text_short (_clean_text text)); rewrite Hs; [now rewrite E | exact H].
Qed.

Lemma cleaning_normalises_white_space_witness :
  _clean_text (s "  deep   learning ") = s "deep learning"
  /\ _clean_text (_clean_text (s "  deep   learning "))
     = _clean_text (s "  deep   learning ").
Proof.
  destruct (@cleaning_normalises_white_space (s "  deep   learning "))
    as [H1 [_ [_ H4]]].
  - apply Nat.ltb_ge. reflexivity.
  - split; [exact H1 | exact H4].
Defined.

(** ** [embed_query] *)

Lemma query_attempts_outcome (api : nat -> str -> option (list float))
      (cleaned : str) (remaining : nat) :
  forall first,
  match query_attempts api remaining first cleaned with
  | Return v =>
      exists n, first <= n < first + remaining
                /\ api n cleaned = Some v
                /\ forall m, first <= m < n -> api m cleaned = None
  | Raise RuntimeError =>
      forall m, first <= m < first + remaining -> api m cleaned = None
  | Raise _ => False
  end.
Proof.
  induction remaining as [|remaining IH]; intros first; simpl.
  - intros m Hm. lia.
  - destruct (api first cleaned) as [v|] eqn:E.
    + exists first. repeat split; try lia. exact E.
    + specialize (IH (S first)).
      destruct (query_attempts api remaining (S first) cleaned) as [v|[]]; auto.
      * destruct IH as [n [Hn [Hv Hnone]]]. exists n. repeat split; try lia.
        -- exact Hv.
        -- intros m Hm. destruct (Nat.eq_dec m first) as [->|]; [exact E|].
           apply Hnone. lia.
      * intros m Hm. destruct (Nat.eq_dec m first) as [->|]; [exact E|].
        apply IH. lia.
Qed.

(** X14.  The three outcomes of [embed_query].  It raises [ValueError]
    only for a blank query, and then calls nothing.  Otherwise it sends
    the cleaned query, at most three times: it returns the embedding of
    the first attempt that succeeds, and raises [RuntimeError] only when
    attempts 0, 1 and 2 all fail.  It raises nothing else. *)
Theorem embed_query_outcomes (api : nat -> str -> option (list float))
        (query : str) :
  let cleaned := _clean_text query in
  match embed_query api query with
  | Raise ValueError => forallb is_space query = true
  | Return v =>
      forallb is_space query = false
      /\ exists n, n < 3 /\ api n cleaned = Some v
                   /\ forall m, m < n -> api m cleaned = None
  | Raise RuntimeError =>
      forallb is_space query = false
      /\ forall m, m < 3 -> api m cleaned = None
  | Raise _ => False
  end.
Proof.
  intros cleaned. unfold embed_query. fold cleaned.
  destruct cleaned as [|c cleaned'] eqn:E; cbn [truthy negb].
  - now apply clean_text_empty.
  - assert (Hink : forallb is_space query = false).
    { destruct (forallb is_space query) eqn:Hb; [|reflexivity].
      apply clean_text_blank in Hb. subst cleaned. congruence. }
    pose proof (query_attempts_outcome api (c :: cleaned') _max_retries 0) as H.
    destruct (query_attempts api _max_retries 0 (c :: cleaned')) as [v|[]]; auto.
    + destruct H as [n [Hn [Hv Hnone]]]. split; [exact Hink|].
      exists n. unfold _max_retries in Hn. repeat split; try lia; auto.
      intros m Hm. apply Hnone. lia.
    + split; [exact Hink|]. intros m Hm. apply H. unfold _max_retries. lia.
Qed.

(** ** [embed_batch] *)

Lemma firstn_plus {A} (a b : nat) (l : list A) :
  firstn (a + b) l = firstn a l ++ firstn b (skipn a l).
Proof.
  revert l. induction a as [|a IH]; intros l; simpl; [reflexivity|].
  destruct l as [|x l]; simpl; [now rewrite firstn_nil | now rewrite IH].
Qed.

(** The batches, one after the other, are the list. *)
Lemma batches_cover {A} (l : list A) (k : nat) :
  List.concat (map (fun i => firstn batch_size (skipn i l))
                   (map (fun j => j * batch_size) (seq 0 k)))
  = firstn (k * batch_size) l.
Proof.
  induction k as [|k IH]; [reflexivity|].
  rewrite seq_S, !map_app, concat_app, IH. cbn [map List.concat Nat.add].
  rewrite app_nil_r, <- firstn_plus. f_equal. lia.
Qed.

Lemma range_step_covers {A} (l : list A) :
  List.concat (map (fun i => firstn batch_size (skipn i l))
                   (range_step (length l) batch_size))
  = l.
Proof.
  unfold range_step. rewrite batches_cover. apply firstn_all2.
  unfold batch_size.
  pose proof (Nat.div_mod_eq (length l + 10 - 1) 10) as H.
  pose proof (Nat.mod_upper_bound (length l + 10 - 1) 10) as H'. lia.
Qed.

Section Batch.

Variable embedding_dim : nat.
Variable embed_documents : nat -> list str -> option (list (list float)).
Variable embed_document : nat -> str -> option (list float).

Local Abbreviation fallback_step := (fallback_step embedding_dim embed_document).
Local Abbreviation batch_step :=
  (batch_step embedding_dim embed_documents embed_document).
Local Abbreviation embed_batch :=
  (embed_batch embedding_dim embed_documents embed_document).

Lemma fallback_loop_length (batch : list str) :
  forall st,
  length (fst (fold_left fallback_step batch st))
  = length (fst st) + length batch.
Proof.
  induction batch as [|t batch IH]; intros [all calls]; simpl; [lia|].
  rewrite IH. unfold EmbeddingDocs.fallback_step.
  destruct (negb (truthy t)); simpl.
  - rewrite length_app. simpl. lia.
  - destruct (_embed_with_retry embed_document calls t) as [[emb|e] calls'];
      simpl; rewrite length_app; simpl; lia.
Qed.

Lemma batch_loop_length (cleaned : list str) (starts : list nat) :
  (forall calls batch embs,
      embed_documents calls batch = Some embs -> length embs = length batch) ->
  forall st,
  length (fst (fold_left (batch_step cleaned) starts st))
  = length (fst st)
    + length (List.concat (map (fun i => firstn batch_size (skipn i cleaned))
                               starts)).
Proof.
  intros Hapi. induction starts as [|i starts IH]; intros [all calls]; simpl;
    [lia|].
  rewrite IH, length_app. unfold EmbeddingDocs.batch_step.
  destruct (embed_documents calls _) as [embs|] eqn:E; simpl.
  - rewrite length_app, (Hapi _ _ _ E), length_map. lia.
  - rewrite fallback_loop_length. simpl. lia.
Qed.

(** X15.  One embedding per text: provided the API, when a batch call
    succeeds, returns as many vectors as the batch has texts,
    [embed_batch] returns exactly as many embeddings as it was given
    texts, whichever batches fail and whichever single texts fail in the
    fallback (a failed or empty text gets a zero vector in its place). *)
Theorem embed_batch_returns_one_vector_per_text (calls : nat) (texts : list str) :
  (forall n batch embs,
      embed_documents n batch = Some embs -> length embs = length batch) ->
  length (fst (embed_batch calls texts)) = length texts.
Proof.
  intros Hapi. unfold EmbeddingDocs.embed_batch.
  destruct texts as [|t texts]; [reflexivity|].
  rewrite (batch_loop_length _ _ Hapi), range_step_covers, length_map.
  reflexivity.
Qed.

End Batch.

(** An API whose batch call fails for every batch but the first. *)
Lemma embed_batch_returns_one_vector_per_text_witness :
  let batch_api := fun (n : nat) (batch : list str) =>
                     if n =? 0 then Some (map (fun _ => [1%float]) batch)
                     else None in
  let single_api := fun (n : nat) (_ : str) =>
                      if Nat.even n then Some [2%float] else None in
  length (fst (embed_batch 3 batch_api single_api 0
                           (repeat (s "text") 11 ++ [s "  "])))
  = 12.
Proof.
  intros batch_api single_api.
  apply (@embed_batch_returns_one_vector_per_text 3 batch_api single_api 0
           (repeat (s "text") 11 ++ [s "  "])).
  intros n batch embs. unfold batch_api.
  destruct (n =? 0); [|discriminate].
  intros H. inversion H. apply length_map.
Defined.

Section ApiDown.

Variable embedding_dim : nat.
Variable embed_documents : nat -> list str -> option (list (list float)).
Variable embed_document : nat -> str -> option (list float).

Hypothesis batch_down : forall n batch, embed_documents n batch = None.
Hypothesis single_down : forall n text, embed_document n text = None.

Lemma retry_down (remaining calls : nat) (text : str) :
  retry_from embed_document remaining calls text
  = (Raise RuntimeError, calls + remaining).
Proof.
  revert calls. induction remaining as [|r IH]; intros calls; simpl.
  - f_equal. lia.
  - rewrite single_down, IH. f_equal. lia.
Qed.

Lemma fallback_loop_down (batch : list str) :
  forall all calls,
  fold_left (fallback_step embedding_dim embed_document) batch (all, calls)
  = (all ++ repeat (zero_vector embedding_dim) (length batch),
     calls + 3 * length (filter truthy batch)).
Proof.
  induction batch as [|t batch IH]; intros all calls; simpl.
  - rewrite app_nil_r. f_equal. lia.
  - unfold _embed_with_retry. rewrite retry_down.
    destruct (truthy t); simpl; rewrite IH, <- app_assoc; simpl; f_equal.
    unfold _max_retries. lia.
Qed.

Lemma batch_loop_down (cleaned : list str) (starts : list nat) :
  forall all calls,
  let batches := List.concat (map (fun i => firstn batch_size (skipn i cleaned))
                                  starts) in
  fold_left (batch_step embedding_dim embed_documents embed_document cleaned)
            starts (all, calls)
  = (all ++ repeat (zero_vector embedding_dim) (length batches),
     calls + length starts + 3 * length (filter truthy batches)).
Proof.
  induction starts as [|i starts IH]; intros all calls;
    cbn [fold_left map List.concat length].
  - cbn [filter length repeat]. rewrite app_nil_r. f_equal. lia.
  - unfold batch_step at 2. rewrite batch_down, fallback_loop_down, IH.
    rewrite <- app_assoc, <- repeat_app, filter_app, !length_app.
    f_equal. lia.
Qed.

(** X16.  With the API down (every call failing), [embed_batch] still
    returns, with a zero vector of the configured dimension for every
    text.  It has then made one call per batch of ten and three calls for
    every text that is not blank, and none for a blank one. *)
Theorem embed_batch_with_the_api_down (calls : nat) (texts : list str) :
  embed_batch embedding_dim embed_documents embed_document calls texts
  = (repeat (zero_vector embedding_dim) (length texts),
     calls + (length texts + 9) / 10
     + 3 * length (filter (fun t => truthy (_clean_text t)) texts)).
Proof.
  unfold embed_batch. destruct texts as [|t texts]; [simpl; f_equal; lia|].
  rewrite batch_loop_down, range_step_covers, length_map.
  unfold range_step, batch_size. rewrite length_map, length_seq.
  simpl app. f_equal. f_equal; [f_equal; f_equal; lia|].
  f_equal. generalize (t :: texts). intros l.
  induction l as [|x l IH]; simpl; [reflexivity|].
  destruct (truthy (_clean_text x)); simpl; now rewrite IH.
Qed.

End ApiDown.

Lemma embed_batch_with_the_api_down_witness :
  embed_batch 2 (fun _ _ => None) (fun _ _ => None) 0
              [s "one"; s "  "; s "two words"]
  = ([[0%float; 0%float]; [0%float; 0%float]; [0%float; 0%float]], 7).
Proof.
  apply (@embed_batch_with_the_api_down 2 (fun _ _ => None) (fun _ _ => None)
           (fun _ _ => eq_refl) (fun _ _ => eq_refl) 0
           [s "one"; s "  "; s "two words"]).
Defined.

(** ** One text *)

Section Text.

Variable embedding_dim : nat.
Variable embed_documents : nat -> list str -> option (list (list float)).
Variable embed_document : nat -> str -> option (list float).

Lemma embed_batch_length (calls : nat) (texts : list str) :
  (forall n batch embs,
      embed_documents n batch = Some embs -> length embs = length batch) ->
  length (fst (embed_batch embedding_dim embed_documents embed_document calls texts))
  = length texts.
Proof.
  intros Hapi. unfold embed_batch.
  destruct texts as [|t texts]; [reflexivity|].
  rewrite (@batch_loop_length embedding_dim embed_documents embed_document _ _ Hapi),
    range_step_covers, length_map.
  reflexivity.
Qed.

Lemma embed_batch_down (calls : nat) (texts : list str) :
  (forall n batch, embed_documents n batch = None) ->
  (forall n text, embed_document n text = None) ->
  fst (embed_batch embedding_dim embed_documents embed_document calls texts)
  = repeat (zero_vector embedding_dim) (length texts).
Proof.
  intros Hb Hs. unfold embed_batch.
  destruct texts as [|t texts]; [reflexivity|].
  rewrite (@batch_loop_down embedding_dim embed_documents embed_document Hb Hs),
    range_step_covers, length_map.
  reflexivity.
Qed.

(** X29.  [embed_text] returns a vector and raises nothing: provided
    the API, when a batch call succeeds, returns as many vectors as the
    batch has texts, [embeddings[0]] exists for every text, blank or
    not; and when every call of the API fails, the vector returned is
    the zero vector (no [RuntimeError] reaches the caller). *)
Theorem embed_text_returns_a_vector (calls : nat) (text : str) :
  (forall n batch embs,
      embed_documents n batch = Some embs -> length embs = length batch) ->
  exists v,
    fst (embed_text embedding_dim embed_documents embed_document calls text)
    = Some v
    /\ ((forall n batch, embed_documents n batch = None) ->
        (forall n t, embed_document n t = None) ->
        v = zero_vector embedding_dim).
Proof.
  intros Hapi. unfold embed_text.
  pose proof (@embed_batch_length calls [text] Hapi) as Hlen.
  pose proof (@embed_batch_down calls [text]) as Hdown.
  destruct (embed_batch embedding_dim embed_documents embed_document calls [text])
    as [embeddings calls'].
  simpl in Hlen, Hdown.
  destruct embeddings as [|v [|v' rest]]; try discriminate.
  exists v. split; [reflexivity|].
  intros Hb Hs. specialize (Hdown Hb Hs). now inversion Hdown.
Qed.

End Text.

(** With the API down, a text gets the zero vector. *)
Lemma embed_text_returns_a_vector_witness :
  fst (embed_text 2 (fun _ _ => None) (fun _ _ => None) 0 (s "Some text."))
  = Some (zero_vector 2).
Proof.
  destruct (@embed_text_returns_a_vector 2 (fun _ _ => None) (fun _ _ => None)
              0 (s "Some text."))
    as [v [Hv Hzero]].
  - intros n batch embs H. discriminate H.
  - rewrite Hv, (Hzero (fun _ _ => eq_refl) (fun _ _ => eq_refl)). reflexivity.
Defined.

End EmbeddingMore.

(* ================================================================== *)
(** * More facts about the similarity statement *)
(* ================================================================== *)

Module RetrievalMore.
Import PyStrFacts Embedding EmbeddingDocs Retrieval FloatOrder RetrievalFacts.

Lemma vector_search_rows table q top_k paper chunks :
  _vector_search table q top_k paper chunks ->
  forall ch, In ch chunks ->
  exists c sim, ch = to_chunk (c, sim)
                /\ In c table
                /\ paper_filter paper c = true
                /\ similarity (embedding c) q = Some sim.
Proof.
  intros [rows [Hrows ->]] ch Hch.
  apply in_map_iff in Hch as [[c sim] [<- Hin]].
  apply (sql_rows_valid Hrows) in Hin.
  apply not_null_similarity in Hin as [Hc Hsim].
  apply filter_In in Hc as [Hc Hf].
  exists c, sim. auto.
Qed.

(** X17.  A search scoped to a paper returns chunks of that paper only:
    with a non-empty [paper_id], every chunk that [_vector_search]
    returns comes from a row of the table with that paper id, and carries
    it. *)
Theorem scoped_search_stays_in_the_paper table q top_k (x : ascii) (p : str)
        chunks :
  _vector_search table q top_k (Some (x :: p)) chunks ->
  Forall (fun ch => paper_id ch = Some (x :: p)
                    /\ exists c, In c table /\ c_paper_id c = x :: p
                                 /\ chunk_id ch = c_id c)
         chunks.
Proof.
  intros H. apply Forall_forall. intros ch Hch.
  destruct (vector_search_rows H ch Hch) as [c [sim [-> [Hc [Hf _]]]]].
  simpl in Hf. destruct (list_eq_dec ascii_dec (c_paper_id c) (x :: p)) as [E|];
    [|discriminate].
  simpl. split; [now rewrite E|]. exists c. auto.
Qed.

Lemma scoped_search_stays_in_the_paper_witness :
  _vector_search [cand_empty; cand_A; cand_B] [1%float; 0%float] 5
                 (Some (s "paper")) [to_chunk (cand_A, 1%float)]
  /\ Forall (fun ch => paper_id ch = Some (s "paper")
                       /\ exists c, In c [cand_empty; cand_A; cand_B]
                                    /\ c_paper_id c = s "paper"
                                    /\ chunk_id ch = c_id c)
            [to_chunk (cand_A, 1%float)].
Proof.
  assert (H : _vector_search [cand_empty; cand_A; cand_B] [1%float; 0%float] 5
                             (Some (s "paper")) [to_chunk (cand_A, 1%float)]).
  { exists [(cand_A, 1%float)]. split; [|reflexivity].
    exists [(cand_A, 1%float)].
    split; [vm_compute; apply Permutation_refl|].
    split; [repeat constructor | reflexivity]. }
  split; [exact H|].
  exact (@scoped_search_stays_in_the_paper
           [cand_empty; cand_A; cand_B] [1%float; 0%float] 5
           "p"%char (s "aper") [to_chunk (cand_A, 1%float)] H).
Defined.

(** ** Vectors without components *)

Lemma similarity_empty_query (e : list float) : similarity e [] = None.
Proof.
  unfold similarity, dot_product. rewrite combine_nil. reflexivity.
Qed.

Lemma similarity_empty_embedding (q : list float) : similarity [] q = None.
Proof. reflexivity. Qed.

Lemma not_null_empty_query (cs : list Candidate) : not_null [] cs = [].
Proof.
  induction cs as [|c cs IH]; simpl; [reflexivity|].
  now rewrite similarity_empty_query.
Qed.

(** X18.  A vector without components compares with nothing: with an
    empty query vector the statement returns no row at all, and a
    candidate whose embedding is empty is in no row it returns, whatever
    the query. *)
Theorem empty_vectors_match_nothing table q top_k paper rows :
  sql_rows table q top_k paper rows ->
  (q = [] -> rows = [])
  /\ (forall c, embedding c = [] -> ~ In c (map fst rows)).
Proof.
  intros Hrows. split.
  - intros ->. destruct Hrows as [sorted [Hperm [_ ->]]].
    unfold valid_rows in Hperm. rewrite not_null_empty_query in Hperm.
    apply Permutation_sym in Hperm. apply Permutation_nil in Hperm.
    subst sorted. apply firstn_nil.
  - intros c Hc Hin.
    apply in_map_iff in Hin as [[c' sim] [Heq Hin]]. simpl in Heq. subst c'.
    apply (sql_rows_valid Hrows) in Hin.
    apply not_null_similarity in Hin as [_ Hsim].
    rewrite Hc in Hsim. discriminate.
Qed.

Lemma empty_vectors_match_nothing_witness :
  sql_rows [cand_empty; cand_A] [1%float; 0%float] 5 None [(cand_A, 1%float)]
  /\ ~ In cand_empty (map fst [(cand_A, 1%float)]).
Proof.
  assert (H : sql_rows [cand_empty; cand_A] [1%float; 0%float] 5 None
                       [(cand_A, 1%float)]).
  { exists [(cand_A, 1%float)].
    split; [vm_compute; apply Permutation_refl|].
    split; [repeat constructor | reflexivity]. }
  split; [exact H|].
  exact (proj2 (@empty_vectors_match_nothing _ _ _ _ _ H) cand_empty eq_refl).
Defined.

(** ** The zero vector that stands for a failed embedding *)

Lemma sum_of_zeros (n : nat) :
  fold_left PrimFloat.add (repeat 0%float n) 0%float = 0%float.
Proof. induction n as [|n IH]; simpl; [reflexivity | exact IH]. Qed.

Lemma sum_squares_zero_vector (n : nat) :
  sum_squares (zero_vector (S n)) = Some 0%float.
Proof.
  unfold sum_squares, zero_vector. simpl. f_equal.
  rewrite map_repeat. apply sum_of_zeros.
Qed.

(** Zero times a finite float is a zero. *)
Lemma zero_times_finite (z : float) :
  finite_float z = true -> PrimFloat.eqb (PrimFloat.mul 0%float z) 0%float = true.
Proof.
  unfold finite_float. intros H.
  rewrite FloatAxioms.eqb_spec, FloatAxioms.mul_spec.
  change (Prim2SF 0%float) with (S754_zero false).
  destruct (Prim2SF z) as [sz|sz| |sz m e]; try discriminate; reflexivity.
Qed.

(** X20.  A chunk stored with the zero vector (what [embed_batch] puts
    in place of an embedding that failed) is never retrieved: for every
    query vector whose magnitude is a finite number, a candidate whose
    embedding is a zero vector is in no row that the statement returns. *)
Theorem zero_vector_chunks_are_never_retrieved table q top_k paper rows
        (c : Candidate) (dim : nat) :
  sql_rows table q top_k paper rows ->
  embedding c = zero_vector dim ->
  (forall y, sum_squares q = Some y -> finite_float (PrimFloat.sqrt y) = true) ->
  ~ In c (map fst rows).
Proof.
  intros Hrows Hc Hq Hin.
  apply in_map_iff in Hin as [[c' sim] [Heq Hin]]. simpl in Heq. subst c'.
  apply (sql_rows_valid Hrows) in Hin.
  apply not_null_similarity in Hin as [_ Hsim].
  rewrite Hc in Hsim. destruct dim as [|dim]; [discriminate|].
  unfold similarity, magnitude_product in Hsim.
  rewrite sum_squares_zero_vector in Hsim.
  destruct (sum_squares q) as [y|] eqn:Ey.
  - change (PrimFloat.sqrt 0%float) with 0%float in Hsim.
    unfold nullif_zero in Hsim.
    rewrite (zero_times_finite _ (Hq y eq_refl)) in Hsim.
    destruct (dot_product _ _); discriminate.
  - destruct (dot_product _ _); discriminate.
Qed.

Lemma zero_vector_chunks_are_never_retrieved_witness :
  sql_rows [cand_A; cand_B] [1%float; 0%float] 5 None [(cand_A, 1%float)]
  /\ embedding cand_B = zero_vector 2
  /\ ~ In cand_B (map fst [(cand_A, 1%float)]).
Proof.
  assert (H : sql_rows [cand_A; cand_B] [1%float; 0%float] 5 None
                       [(cand_A, 1%float)]).
  { exists [(cand_A, 1%float)].
    split; [vm_compute; apply Permutation_refl|].
    split; [repeat constructor | reflexivity]. }
  split; [exact H|]. split; [reflexivity|].
  apply (@zero_vector_chunks_are_never_retrieved
           [cand_A; cand_B] [1%float; 0%float] 5 None [(cand_A, 1%float)]
           cand_B 2 H eq_refl).
  intros y Hy. inversion Hy. reflexivity.
Defined.

End RetrievalMore.

(* ================================================================== *)
(** * Facts about the answer cache gate *)
(* ================================================================== *)

Module AskFacts.
Import Retrieval AskQuestions.

Section Page.

Variable retrieve : nat -> str -> result (list RetrievedChunk).
Variable compress : nat -> list str -> str -> str.
Variable generate : nat -> str -> str -> list str -> Answer.

Lemma str_eqb_refl (a : str) : str_eqb a a = true.
Proof. unfold str_eqb. destruct (list_eq_dec ascii_dec a a); congruence. Qed.

Lemma rows_for_question (q : str) (table : list QueryCache) :
  Forall (fun r => question r = q) (rows_for q table).
Proof.
  apply Forall_forall. intros r Hr. apply filter_In in Hr as [_ Hr].
  unfold str_eqb in Hr. destruct (list_eq_dec ascii_dec (question r) q);
    [assumption | discriminate].
Qed.

(** Storing an answer for a question without a row leaves exactly one. *)
Lemma rows_for_after_store (q ans : str) (ids papers : list str) (primary : str)
      (table : list QueryCache) :
  rows_for q table = [] ->
  rows_for q (table ++ [mkQueryCache primary q ans (ids, papers)])
  = [mkQueryCache primary q ans (ids, papers)].
Proof.
  intros H. unfold rows_for in *. rewrite filter_app, H. simpl.
  now rewrite str_eqb_refl.
Qed.

Lemma nodup_nonempty (l : list str) :
  l <> [] -> nodup (list_eq_dec ascii_dec) l <> [].
Proof.
  destruct l as [|x l]; [congruence|]. intros _ E.
  assert (H : In x (nodup (list_eq_dec ascii_dec) (x :: l)))
    by (apply nodup_In; now left).
  rewrite E in H. exact H.
Qed.

(** A hit leaves the world as it is. *)
Lemma answer_question_hit (q : str) (w : World) (row : QueryCache) :
  rows_for q (query_cache w) = [row] ->
  answer_question retrieve compress generate q w
  = (Return (mkReply (answer row) true (s "high") []), w).
Proof.
  intros H. unfold answer_question, bind, get_cached_answer. rewrite H.
  reflexivity.
Qed.

(** A miss that retrieves nothing stores nothing. *)
Lemma answer_question_nothing_found (q : str) (w : World) :
  rows_for q (query_cache w) = [] ->
  retrieve (retrievals w) q = Return [] ->
  answer_question retrieve compress generate q w
  = (Return (mkReply not_found_answer false (s "low") []),
     mkWorld (query_cache w) (S (retrievals w)) (compressions w) (generations w)).
Proof.
  intros H Hr. unfold answer_question, bind, get_cached_answer, call_retrieve.
  rewrite H, Hr. reflexivity.
Qed.

(** A miss whose retrieval raises (a blank question, for one) stores
    nothing either, and the exception goes through. *)
Lemma answer_question_retrieval_raises (q : str) (w : World) (e : exn) :
  rows_for q (query_cache w) = [] ->
  retrieve (retrievals w) q = Raise e ->
  answer_question retrieve compress generate q w
  = (Raise e,
     mkWorld (query_cache w) (S (retrievals w)) (compressions w) (generations w)).
Proof.
  intros H Hr. unfold answer_question, bind, get_cached_answer, call_retrieve.
  rewrite H, Hr. reflexivity.
Qed.

End Page.

(** C6, as amended.  For a question without a cached row: when the first
    call retrieves at least one chunk (one of them carrying a paper id),
    it runs retrieval, compression and generation once each and stores the
    answer; the second call with the same question string then returns
    that answer marked as cached, with confidence "high" and no sources,
    and invokes none of the three services: the world after it is the
    world before it. *)
Theorem second_ask_is_a_cache_hit
        (retrieve : nat -> str -> result (list RetrievedChunk))
        (compress : nat -> list str -> str -> str)
        (generate : nat -> str -> str -> list str -> Answer)
        (q : str) (w : World) (found : list RetrievedChunk) :
  rows_for q (query_cache w) = [] ->
  retrieve (retrievals w) q = Return found ->
  truthy_paper_ids found <> [] ->
  exists reply w1,
    answer_question retrieve compress generate q w = (Return reply, w1)
    /\ cached reply = false
    /\ retrievals w1 = S (retrievals w)
    /\ compressions w1 = S (compressions w)
    /\ generations w1 = S (generations w)
    /\ answer_question retrieve compress generate q w1
       = (Return (mkReply (reply_answer reply) true (s "high") []), w1).
Proof.
  intros Hmiss Hfound Hpaper.
  destruct found as [|c cs]; [now contradiction Hpaper|].
  pose proof (nodup_nonempty Hpaper) as Hids.
  unfold answer_question at 1.
  unfold bind, get_cached_answer, call_retrieve. rewrite Hmiss, Hfound.
  cbn [query_cache retrievals compressions generations
       call_compress call_generate].
  unfold cache_answer. cbn [query_cache retrievals compressions generations].
  destruct (nodup (list_eq_dec ascii_dec) (truthy_paper_ids (c :: cs)))
    as [|primary others] eqn:E; [congruence|].
  cbn [ret].
  eexists. eexists. split; [reflexivity|].
  repeat split.
  erewrite answer_question_hit
    by (cbn [query_cache]; apply rows_for_after_store, Hmiss).
  reflexivity.
Qed.

Lemma second_ask_is_a_cache_hit_witness :
  exists reply w1,
    answer_question (fun _ _ => Return [one_chunk]) echo_compress echo_generate
                    (s "What?") fresh = (Return reply, w1)
    /\ cached reply = false
    /\ retrievals w1 = 1 /\ compressions w1 = 1 /\ generations w1 = 1
    /\ answer_question (fun _ _ => Return [one_chunk]) echo_compress echo_generate
                       (s "What?") w1
       = (Return (mkReply (reply_answer reply) true (s "high") []), w1).
Proof.
  apply (@second_ask_is_a_cache_hit
           (fun _ _ => Return [one_chunk]) echo_compress echo_generate
           (s "What?") fresh [one_chunk]).
  - reflexivity.
  - reflexivity.
  - discriminate.
Defined.

(** C6, as stated, fails when retrieval finds nothing: nothing is stored,
    so the second call with the same question runs retrieval again and is
    not a cache hit; two retrievals across the two calls. *)
Lemma nothing_found_is_not_cached :
  let ask := answer_question (fun _ _ => Return []) echo_compress echo_generate
                             (s "What?") in
  let w1 := mkWorld [] 1 0 0 in
  let w2 := mkWorld [] 2 0 0 in
  ask fresh = (Return (mkReply not_found_answer false (s "low") []), w1)
  /\ ask w1 = (Return (mkReply not_found_answer false (s "low") []), w2)
  /\ retrievals w2 = 2.
Proof. repeat split. Qed.

(** C7, as amended.  When two or more rows hold the question, the
    look-up raises [MultipleResultsFound]; [answer_question] does not
    catch it, so it raises too, before any service is invoked. *)
Theorem duplicate_rows_raise
        (retrieve : nat -> str -> result (list RetrievedChunk))
        (compress : nat -> list str -> str -> str)
        (generate : nat -> str -> str -> list str -> Answer)
        (q : str) (w : World) :
  2 <= length (rows_for q (query_cache w)) ->
  get_cached_answer q w = (Raise MultipleResultsFound, w)
  /\ answer_question retrieve compress generate q w
     = (Raise MultipleResultsFound, w).
Proof.
  intros H. unfold answer_question, bind, get_cached_answer.
  destruct (rows_for q (query_cache w)) as [|r1 [|r2 rest]]; simpl in H;
    try lia.
  split; reflexivity.
Qed.

Lemma duplicate_rows_raise_witness :
  get_cached_answer (s "What?") twice_cached
  = (Raise MultipleResultsFound, twice_cached)
  /\ answer_question (fun _ _ => Return [one_chunk]) echo_compress echo_generate
                     (s "What?") twice_cached
     = (Raise MultipleResultsFound, twice_cached).
Proof.
  apply (@duplicate_rows_raise (fun _ _ => Return [one_chunk]) echo_compress
                               echo_generate (s "What?") twice_cached).
  vm_compute. repeat constructor.
Defined.

(** C7, as stated, fails: with two rows for the question the look-up
    returns neither of them. *)
Lemma duplicate_rows_are_not_tolerated :
  length (rows_for (s "What?") (query_cache twice_cached)) = 2
  /\ forall hit w', get_cached_answer (s "What?") twice_cached <> (Return hit, w').
Proof.
  split; [reflexivity|]. intros hit w'. vm_compute. discriminate.
Qed.

End AskFacts.

(* ================================================================== *)
(** * More facts about the answer cache gate *)
(* ================================================================== *)

Module AskMore.
Import Retrieval AskQuestions AskFacts.

Lemma str_eqb_neq (a b : str) : a <> b -> str_eqb a b = false.
Proof. intros H. unfold str_eqb. destruct (list_eq_dec ascii_dec a b); congruence. Qed.

Lemma rows_for_app (q : str) (t1 t2 : list QueryCache) :
  rows_for q (t1 ++ t2) = rows_for q t1 ++ rows_for q t2.
Proof. apply filter_app. Qed.

Lemma rows_for_one (q : str) (row : QueryCache) :
  rows_for q [row] = if str_eqb (question row) q then [row] else [].
Proof. reflexivity. Qed.

(** X8.  Store, then look up: after [cache_answer] has stored an answer
    for a question that had no row, [get_cached_answer] returns that
    answer with the first paper id, and the look-up of every other
    question finds the rows it found before. *)
Theorem stored_answer_is_found (q ans : str) (ids : list str) (primary : str)
        (others : list str) (w : World) :
  rows_for q (query_cache w) = [] ->
  let w' := snd (cache_answer q ans ids (primary :: others) w) in
  get_cached_answer q w' = (Return (Some (ans, primary)), w')
  /\ forall q', q' <> q ->
       rows_for q' (query_cache w') = rows_for q' (query_cache w).
Proof.
  intros Hmiss w'. subst w'. simpl. split.
  - unfold get_cached_answer. cbn [query_cache].
    now rewrite (rows_for_after_store q ans ids (primary :: others) primary
                                      (query_cache w) Hmiss).
  - intros q' Hq. rewrite rows_for_app, rows_for_one. cbn [question].
    rewrite (str_eqb_neq (fun E => Hq (eq_sym E))). apply app_nil_r.
Qed.

Lemma stored_answer_is_found_witness :
  let w' := snd (cache_answer (s "What?") (s "This.") [s "c1"] [s "p1"] fresh) in
  get_cached_answer (s "What?") w' = (Return (Some (s "This.", s "p1")), w')
  /\ forall q', q' <> s "What?" ->
       rows_for q' (query_cache w') = rows_for q' (query_cache fresh).
Proof.
  apply (@stored_answer_is_found (s "What?") (s "This.") [s "c1"] (s "p1") []
                                 fresh).
  reflexivity.
Defined.

(** X9.  [cache_answer] never looks for an existing row: storing twice
    for the same question leaves (at least) two rows for it, and from
    then on every look-up of that question raises
    [MultipleResultsFound]. *)
Theorem storing_twice_breaks_the_lookup (q a1 a2 : str) (ids1 ids2 : list str)
        (p1 p2 : str) (ps1 ps2 : list str) (w : World) :
  let w1 := snd (cache_answer q a1 ids1 (p1 :: ps1) w) in
  let w2 := snd (cache_answer q a2 ids2 (p2 :: ps2) w1) in
  2 <= length (rows_for q (query_cache w2))
  /\ get_cached_answer q w2 = (Raise MultipleResultsFound, w2).
Proof.
  intros w1 w2. subst w1 w2. simpl.
  assert (H : 2 <= length (rows_for q
                ((query_cache w ++ [mkQueryCache p1 q a1 (ids1, p1 :: ps1)])
                 ++ [mkQueryCache p2 q a2 (ids2, p2 :: ps2)]))).
  { rewrite !rows_for_app, !rows_for_one. cbn [question].
    rewrite !str_eqb_refl, !length_app. simpl. lia. }
  split; [exact H|].
  unfold get_cached_answer. cbn [query_cache].
  destruct (rows_for q _) as [|r1 [|r2 rest]]; simpl in H; try lia.
  reflexivity.
Qed.

(** ** One call of [answer_question] *)

Section OneCall.

Variable retrieve : nat -> str -> result (list RetrievedChunk).
Variable compress : nat -> list str -> str -> str.
Variable generate : nat -> str -> str -> list str -> Answer.

(** The table after a call: as before, or one row longer, and then the
    question had no row and the new row is for it. *)
Lemma answer_question_table (q : str) (w : World) :
  let w' := snd (answer_question retrieve compress generate q w) in
  query_cache w' = query_cache w
  \/ (rows_for q (query_cache w) = []
      /\ exists row, question row = q
                     /\ query_cache w' = query_cache w ++ [row]).
Proof.
  unfold answer_question, bind, get_cached_answer.
  destruct (rows_for q (query_cache w)) as [|r1 [|r2 rest]] eqn:E; simpl;
    [|now left|now left].
  unfold call_retrieve.
  destruct (retrieve (retrievals w) q) as [[|c cs]|e]; simpl; [now left| |now left].
  unfold cache_answer. cbn [query_cache retrievals compressions generations].
  destruct (nodup _ _) as [|primary others]; simpl; [now left|].
  right. split; [reflexivity|]. eexists. split; [|reflexivity]. reflexivity.
Qed.

Lemma answer_question_keeps_unique (q : str) (w : World) :
  unique_questions (query_cache w) ->
  unique_questions (query_cache (snd (answer_question retrieve compress generate q w))).
Proof.
  intros Hu. destruct (answer_question_table q w) as [->|[Hmiss [row [Hq ->]]]];
    [exact Hu|].
  intros q'. rewrite rows_for_app, rows_for_one, length_app.
  destruct (str_eqb (question row) q') eqn:E.
  - unfold str_eqb in E.
    destruct (list_eq_dec ascii_dec (question row) q') as [Heq|]; [|discriminate].
    rewrite <- Heq, Hq, Hmiss. simpl. lia.
  - simpl. pose proof (Hu q'). lia.
Qed.

(** X10.  Asked one question after the other, starting from an empty
    table, [answer_question] never leaves two rows for one question,
    whatever the services answer or raise; so the look-up of the cache
    never raises [MultipleResultsFound] in such a run. *)
Theorem asking_in_turn_keeps_one_row_per_question (questions : list str) :
  let w := ask_all retrieve compress generate questions fresh in
  unique_questions (query_cache w)
  /\ forall q, fst (get_cached_answer q w) <> Raise MultipleResultsFound.
Proof.
  assert (H : forall w0, unique_questions (query_cache w0) ->
                         unique_questions
                           (query_cache (ask_all retrieve compress generate
                                                 questions w0))).
  { induction questions as [|q rest IH]; intros w0 H0; simpl; [exact H0|].
    apply IH, answer_question_keeps_unique, H0. }
  intros w. assert (Hu : unique_questions (query_cache w)).
  { apply H. intros q. simpl. lia. }
  split; [exact Hu|].
  intros q. unfold get_cached_answer. pose proof (Hu q) as Hq.
  destruct (rows_for q (query_cache w)) as [|r1 [|r2 rest]]; simpl in *;
    try discriminate. lia.
Qed.

(** X11.  One call of [answer_question] invokes retrieval at most once,
    and compression and generation at most once each and only together
    and only after a retrieval; it invokes none of them when the question
    has a row.  It adds at most one row, for the question asked, and only
    when the question had none. *)
Theorem one_call_does_at_most_one_of_each (q : str) (w : World) :
  let w' := snd (answer_question retrieve compress generate q w) in
  (retrievals w' = retrievals w \/ retrievals w' = S (retrievals w))
  /\ ((compressions w' = compressions w /\ generations w' = generations w)
      \/ (compressions w' = S (compressions w)
          /\ generations w' = S (generations w)
          /\ retrievals w' = S (retrievals w)))
  /\ (rows_for q (query_cache w) <> [] -> w' = w)
  /\ (query_cache w' = query_cache w
      \/ (rows_for q (query_cache w) = []
          /\ exists row, question row = q
                         /\ query_cache w' = query_cache w ++ [row])).
Proof.
  intros w'. split; [|split; [|split]].
  4: apply answer_question_table.
  all: subst w'; unfold answer_question, bind, get_cached_answer.
  all: destruct (rows_for q (query_cache w)) as [|r1 [|r2 rest]] eqn:E; simpl;
    auto; try congruence.
  all: unfold call_retrieve;
    destruct (retrieve (retrievals w) q) as [[|c cs]|e]; simpl; auto.
  all: unfold cache_answer; cbn [query_cache retrievals compressions generations];
    destruct (nodup _ _) as [|primary others]; simpl; auto.
Qed.

End OneCall.

End AskMore.

(* ================================================================== *)
(** * Facts about the generation service *)
(* ================================================================== *)

Module GenerationFacts.
Import PyStrFacts Retrieval AskQuestions AskFacts Coverage Generation.

Lemma starts_with_spec (p x : str) :
  starts_with p x = true <-> exists q, x = p ++ q.
Proof.
  revert x. induction p as [|a p IH]; intros x; simpl.
  - split; [intros _; now exists x | reflexivity].
  - destruct x as [|b x].
    + split; [discriminate | intros [q H]; discriminate].
    + rewrite andb_true_iff, Ascii.eqb_eq, IH. split.
      * intros [-> [q ->]]. now exists q.
      * intros [q H]. inversion H. split; [reflexivity | now exists q].
Qed.

(** [p in x] holds exactly when [p] is a piece of [x]. *)
Lemma contains_spec (p x : str) : contains p x = true <-> infix p x.
Proof.
  induction x as [|c x IH]; simpl.
  - rewrite orb_false_r, starts_with_spec. split.
    + intros [q H]. exists [], q. exact H.
    + intros [a [b H]]. destruct a as [|c a]; [now exists b | discriminate].
  - rewrite orb_true_iff, starts_with_spec, IH. split.
    + intros [[q H] | [a [b H]]].
      * exists [], q. exact H.
      * exists (c :: a), b. simpl. now f_equal.
    + intros [a [b H]]. destruct a as [|c' a]; simpl in H.
      * left. now exists b.
      * right. inversion H. now exists a, b.
Qed.

Lemma infix_trans (x y z : str) : infix x y -> infix y z -> infix x z.
Proof.
  intros [a [b ->]] [c [d ->]]. exists (c ++ a), (b ++ d).
  now rewrite <- !app_assoc.
Qed.

Lemma lower_str_app (x y : str) : lower_str (x ++ y) = lower_str x ++ lower_str y.
Proof. apply map_app. Qed.

(** Lower-casing changes no white space and makes none. *)
Lemma lower_keeps_space (c : ascii) : is_space (lower_char c) = is_space c.
Proof. destruct c as [[] [] [] [] [] [] [] []]; reflexivity. Qed.

Lemma lower_lstrip (x : str) : lower_str (lstrip x) = lstrip (lower_str x).
Proof.
  induction x as [|c x IH]; simpl; [reflexivity|].
  rewrite lower_keeps_space. destruct (is_space c); [exact IH | reflexivity].
Qed.

Lemma lower_strip (x : str) : lower_str (strip x) = strip (lower_str x).
Proof.
  unfold strip, rstrip, lower_str.
  rewrite map_rev. fold (lower_str (lstrip (rev (lstrip x)))).
  rewrite lower_lstrip. unfold lower_str. rewrite map_rev.
  fold (lower_str (lstrip x)). now rewrite lower_lstrip.
Qed.

Lemma lstrip_keeps (p x q : str) :
  x <> [] -> starts_ink x -> exists p', lstrip (p ++ x ++ q) = p' ++ x ++ q.
Proof.
  intros Hx Hs. induction p as [|c p IH]; simpl.
  - destruct x as [|c x]; [congruence|]. simpl in *. rewrite Hs. now exists [].
  - destruct (is_space c); [exact IH | now exists (c :: p)].
Qed.

(** A piece that begins and ends with a visible character survives
    [strip]. *)
Lemma strip_keeps_infix (x y : str) :
  x <> [] -> starts_ink x -> ends_ink x -> infix x y -> infix x (strip y).
Proof.
  intros Hx Hs He [p [q ->]].
  destruct (lstrip_keeps p q Hx Hs) as [p' Hl].
  unfold strip, rstrip. rewrite Hl, !rev_app_distr, <- app_assoc.
  assert (Hr : rev x <> []).
  { intros E. apply Hx. rewrite <- (rev_involutive x), E. reflexivity. }
  destruct (lstrip_keeps (rev q) (rev p') Hr He) as [q' ->].
  exists p', (rev q').
  rewrite !rev_app_distr, rev_involutive, rev_involutive, <- app_assoc.
  reflexivity.
Qed.

Lemma phrases_found_in_more (phrases : list str) (x pre post : str) :
  existsb (fun phrase => contains phrase x) phrases = true ->
  existsb (fun phrase => contains phrase (pre ++ x ++ post)) phrases = true.
Proof.
  rewrite !existsb_exists. intros [phrase [Hin H]]. exists phrase.
  split; [exact Hin|]. apply contains_spec. apply contains_spec in H.
  apply infix_app_l, infix_app_r, H.
Qed.

(** X21.  Text around an answer never raises its confidence: whatever
    is put before and after an answer, the label of the longer text
    expresses at least as much doubt as the label of the answer
    ("not_found" stays "not_found", and "medium" does not become
    "high"). *)
Theorem more_text_never_raises_the_confidence (answer pre post : str) :
  doubt (_assess_confidence answer)
  <= doubt (_assess_confidence (pre ++ answer ++ post)).
Proof.
  unfold _assess_confidence. rewrite !lower_str_app.
  pose proof (@phrases_found_in_more not_found_phrases (lower_str answer)
                (lower_str pre) (lower_str post)) as Hn.
  pose proof (@phrases_found_in_more uncertain_phrases (lower_str answer)
                (lower_str pre) (lower_str post)) as Hu.
  destruct (existsb _ not_found_phrases).
  - rewrite (Hn eq_refl). apply Nat.le_refl.
  - destruct (existsb _ uncertain_phrases).
    + rewrite (Hu eq_refl).
      destruct (existsb _ not_found_phrases); vm_compute; lia.
    + destruct (existsb _ not_found_phrases); [vm_compute; lia|].
      destruct (existsb _ uncertain_phrases); vm_compute; lia.
Qed.

Lemma prompt_quotes_the_sentence (context question : str) :
  infix ([dq] ++ instructed_sentence ++ [dq]) (_build_qa_prompt context question).
Proof.
  unfold _build_qa_prompt. do 7 apply infix_app_l.
  match goal with |- infix _ (_ ++ _ ++ _ ++ ?rest) => exists [], rest end.
  now rewrite <- !app_assoc.
Qed.

(** X22.  The refusal the prompt asks for is recognised: the question
    prompt quotes the sentence to answer with when the context has no
    answer, and a response that contains this sentence, in whatever
    letter case and with whatever text around it, makes
    [answer_question] return the confidence "not_found". *)
Theorem the_instructed_refusal_is_labelled_not_found
        (generate_content : str -> str + str) (context question : str)
        (ids : list str) (response pre post : str) :
  generate_content (_build_qa_prompt context question) = inl response ->
  lower_str response = pre ++ lower_str instructed_sentence ++ post ->
  infix ([dq] ++ instructed_sentence ++ [dq]) (_build_qa_prompt context question)
  /\ confidence (Generation.answer_question generate_content context question ids)
     = s "not_found".
Proof.
  intros Hgen Hresp. split; [apply prompt_quotes_the_sentence|].
  unfold Generation.answer_question. rewrite Hgen. cbn [confidence].
  unfold _assess_confidence. rewrite lower_strip, Hresp.
  assert (H : existsb (fun phrase =>
                         contains phrase
                                  (strip (pre ++ lower_str instructed_sentence ++ post)))
                      not_found_phrases = true).
  { apply existsb_exists. exists (s "not present").
    split; [left; reflexivity|]. apply contains_spec.
    apply infix_trans with (y := lower_str instructed_sentence).
    - apply contains_spec. vm_compute. reflexivity.
    - apply strip_keeps_infix.
      + vm_compute. discriminate.
      + vm_compute. reflexivity.
      + vm_compute. reflexivity.
      + now exists pre, post. }
  rewrite H. reflexivity.
Qed.

Lemma the_instructed_refusal_is_labelled_not_found_witness :
  let reply :=
    s "  THIS information is NOT PRESENT in the provided paper sections. Sorry.  " in
  infix ([dq] ++ instructed_sentence ++ [dq])
        (_build_qa_prompt (s "Some context.") (s "What is the result?"))
  /\ confidence (Generation.answer_question (fun _ => inl reply) (s "Some context.")
                                            (s "What is the result?") [s "c1"])
     = s "not_found".
Proof.
  intros reply.
  apply (@the_instructed_refusal_is_labelled_not_found
           (fun _ => inl reply) (s "Some context.") (s "What is the result?")
           [s "c1"] reply (s "  ") (s " sorry.  ")).
  - reflexivity.
  - vm_compute. reflexivity.
Defined.

(** X23.  A failed generation is cached and then served as certain.
    When the question has no row, retrieval finds chunks of a paper and
    the call of the model fails with message [e], the page replies with
    the apology and the confidence "not_found", stores the apology as
    the answer, and replies to the same question asked again with the
    stored apology, marked as cached and with confidence "high". *)
Theorem a_failed_generation_is_cached_and_served_as_high
        (retrieve : nat -> str -> result (list RetrievedChunk))
        (compress : nat -> list str -> str -> str)
        (generate_content : nat -> str -> str + str)
        (q : str) (w : World) (found : list RetrievedChunk) (e : str) :
  rows_for q (query_cache w) = [] ->
  retrieve (retrievals w) q = Return found ->
  truthy_paper_ids found <> [] ->
  (forall prompt, generate_content (generations w) prompt = inr e) ->
  let ask :=
    AskQuestions.answer_question
      retrieve compress
      (fun n => Generation.answer_question (generate_content n)) in
  exists reply w1,
    ask q w = (Return reply, w1)
    /\ reply_answer reply = apology ++ e
    /\ reply_confidence reply = s "not_found"
    /\ cached reply = false
    /\ ask q w1 = (Return (mkReply (apology ++ e) true (s "high") []), w1).
Proof.
  intros Hmiss Hfound Hpaper Hfail ask. unfold ask.
  destruct found as [|c cs]; [now contradiction Hpaper|].
  pose proof (nodup_nonempty Hpaper) as Hids.
  unfold AskQuestions.answer_question at 1.
  unfold bind, get_cached_answer, call_retrieve. rewrite Hmiss, Hfound.
  cbn [query_cache retrievals compressions generations
       call_compress call_generate].
  unfold Generation.answer_question at 1 2 3. rewrite Hfail.
  unfold cache_answer. cbn [query_cache retrievals compressions generations text].
  destruct (nodup (list_eq_dec ascii_dec) (truthy_paper_ids (c :: cs)))
    as [|primary others] eqn:E; [congruence|].
  cbn [ret confidence].
  eexists. eexists. split; [reflexivity|].
  repeat split.
  erewrite answer_question_hit
    by (cbn [query_cache]; apply rows_for_after_store, Hmiss).
  reflexivity.
Qed.

Lemma a_failed_generation_is_cached_and_served_as_high_witness :
  let ask :=
    AskQuestions.answer_question
      (fun _ _ => Return [one_chunk]) echo_compress
      (fun _ => Generation.answer_question (fun _ => inr (s "quota exceeded"))) in
  exists reply w1,
    ask (s "What?") fresh = (Return reply, w1)
    /\ reply_answer reply = apology ++ s "quota exceeded"
    /\ reply_confidence reply = s "not_found"
    /\ cached reply = false
    /\ ask (s "What?") w1
       = (Return (mkReply (apology ++ s "quota exceeded") true (s "high") []), w1).
Proof.
  apply (@a_failed_generation_is_cached_and_served_as_high
           (fun _ _ => Return [one_chunk]) echo_compress
           (fun _ _ => inr (s "quota exceeded")) (s "What?") fresh [one_chunk]
           (s "quota exceeded")).
  - reflexivity.
  - reflexivity.
  - discriminate.
  - reflexivity.
Defined.

End GenerationFacts.

(* ================================================================== *)
(** * Facts about the summary cache *)
(* ================================================================== *)

Module SummaryFacts.
Import AskQuestions AskFacts Summaries.

Lemma str_eqb_eq (a b : str) : str_eqb a b = true <-> a = b.
Proof.
  unfold str_eqb. destruct (list_eq_dec ascii_dec a b); split; congruence.
Qed.

Lemma is_for_spec (paper type : str) (r : Summary) :
  is_for paper type r = true <-> sm_paper_id r = paper /\ summary_type r = type.
Proof. unfold is_for. now rewrite andb_true_iff, !str_eqb_eq. Qed.

Lemma filter_map_commute {A} (f : A -> bool) (g : A -> A) (l : list A) :
  (forall a, f (g a) = f a) -> filter f (map g l) = map g (filter f l).
Proof.
  intros H. induction l as [|a l IH]; simpl; [reflexivity|].
  rewrite H. destruct (f a); simpl; now rewrite IH.
Qed.

Lemma map_unchanged {A} (g : A -> A) (l : list A) :
  (forall a, In a l -> g a = a) -> map g l = l.
Proof.
  intros H. induction l as [|a l IH]; simpl; [reflexivity|].
  rewrite H by now left. f_equal. apply IH. intros b Hb. apply H. now right.
Qed.

Section Save.

Variables paper type content : str.

(** The update of [save_summary], row by row. *)
Local Abbreviation rewritten :=
  (fun r => if is_for paper type r
            then mkSummary (sm_paper_id r) (summary_type r) content
            else r).

Lemma rewritten_key (paper' type' : str) (r : Summary) :
  is_for paper' type' (rewritten r) = is_for paper' type' r.
Proof. cbv beta. destruct (is_for paper type r); reflexivity. Qed.

(** After a save there is one row for the paper and the type, and it
    has the content saved. *)
Lemma save_lookup_same (table : list Summary) :
  length (filter (is_for paper type) table) <= 1 ->
  filter (is_for paper type) (snd (save_summary paper type content table))
  = [mkSummary paper type content].
Proof.
  intros Hu. unfold save_summary.
  destruct (filter (is_for paper type) table) as [|r [|r' rest]] eqn:E;
    cbn [snd]; [| |simpl in Hu; lia].
  - rewrite filter_app, E. simpl. unfold is_for. simpl.
    now rewrite !str_eqb_refl.
  - rewrite filter_map_commute by (intros a; apply rewritten_key).
    rewrite E. simpl.
    assert (Hr : is_for paper type r = true).
    { assert (Hin : In r (filter (is_for paper type) table))
        by (rewrite E; now left).
      now apply filter_In in Hin. }
    rewrite Hr. apply is_for_spec in Hr as [-> ->]. reflexivity.
Qed.

(** A save leaves the rows of every other paper or type alone. *)
Lemma save_lookup_other (paper' type' : str) (table : list Summary) :
  (paper', type') <> (paper, type) ->
  filter (is_for paper' type') (snd (save_summary paper type content table))
  = filter (is_for paper' type') table.
Proof.
  intros Hne. unfold save_summary.
  destruct (filter (is_for paper type) table) as [|r [|r' rest]] eqn:E;
    cbn [snd]; [| |reflexivity].
  - rewrite filter_app. simpl.
    destruct (is_for paper' type' (mkSummary paper type content)) eqn:H.
    + apply is_for_spec in H as [H1 H2]. simpl in H1, H2. congruence.
    + apply app_nil_r.
  - rewrite filter_map_commute by (intros a; apply rewritten_key).
    apply map_unchanged. intros a Ha. apply filter_In in Ha as [_ Ha].
    destruct (is_for paper type a) eqn:H; [|reflexivity].
    apply is_for_spec in Ha as [H1 H2]. apply is_for_spec in H as [H3 H4].
    congruence.
Qed.

Lemma save_returns (table : list Summary) :
  length (filter (is_for paper type) table) <= 1 ->
  fst (save_summary paper type content table) = Return tt.
Proof.
  intros Hu. unfold save_summary.
  destruct (filter (is_for paper type) table) as [|r [|r' rest]];
    [reflexivity | reflexivity | simpl in Hu; lia].
Qed.

Lemma save_length (table : list Summary) :
  length (snd (save_summary paper type content table))
  = length table + (1 - length (filter (is_for paper type) table)).
Proof.
  unfold save_summary.
  destruct (filter (is_for paper type) table) as [|r [|r' rest]]; cbn [snd].
  - rewrite length_app. reflexivity.
  - rewrite length_map. simpl. lia.
  - simpl. lia.
Qed.

Lemma save_keeps_unique (table : list Summary) :
  unique_summaries table ->
  unique_summaries (snd (save_summary paper type content table)).
Proof.
  intros Hu paper' type'.
  destruct (list_eq_dec ascii_dec paper' paper) as [->|Hp].
  - destruct (list_eq_dec ascii_dec type' type) as [->|Ht].
    + rewrite save_lookup_same by apply Hu. simpl. lia.
    + rewrite save_lookup_other by congruence. apply Hu.
  - rewrite save_lookup_other by congruence. apply Hu.
Qed.

End Save.

(** X24.  Saving is an upsert.  When the table has at most one summary
    of the type for the paper, [save_summary] returns, the summary read
    back for the paper and the type is the content saved, the summaries
    read for every other paper or type are as before, and the table has
    one more row exactly when there was none for the paper and the
    type. *)
Theorem a_saved_summary_is_read_back (paper type content : str)
        (table : list Summary) :
  length (filter (is_for paper type) table) <= 1 ->
  let saved := save_summary paper type content table in
  fst saved = Return tt
  /\ get_cached_summary paper type (snd saved) = Return (Some content)
  /\ (forall paper' type',
         (paper', type') <> (paper, type) ->
         get_cached_summary paper' type' (snd saved)
         = get_cached_summary paper' type' table)
  /\ length (snd saved)
     = length table + (1 - length (filter (is_for paper type) table)).
Proof.
  intros Hu saved. unfold saved. split; [now apply save_returns|].
  split; [|split].
  - unfold get_cached_summary. now rewrite save_lookup_same.
  - intros paper' type' Hne. unfold get_cached_summary.
    now rewrite save_lookup_other.
  - apply save_length.
Qed.

Lemma a_saved_summary_is_read_back_witness :
  let table := [mkSummary (s "p1") (s "abstract") (s "Old.");
                mkSummary (s "p1") (s "sections") (s "Parts.")] in
  let saved := save_summary (s "p1") (s "abstract") (s "New.") table in
  fst saved = Return tt
  /\ get_cached_summary (s "p1") (s "abstract") (snd saved) = Return (Some (s "New."))
  /\ (forall paper' type',
         (paper', type') <> (s "p1", s "abstract") ->
         get_cached_summary paper' type' (snd saved)
         = get_cached_summary paper' type' table)
  /\ length (snd saved) = 2 + (1 - 1).
Proof.
  intros table.
  apply (@a_saved_summary_is_read_back (s "p1") (s "abstract") (s "New.") table).
  vm_compute. lia.
Defined.

Lemma save_all_lookup (paper type : str) (saves : list (str * str * str)) :
  forall table,
  unique_summaries table ->
  filter (is_for paper type) (save_all saves table)
  = match last_saved paper type saves with
    | Some content => [mkSummary paper type content]
    | None => filter (is_for paper type) table
    end.
Proof.
  induction saves as [|[[p1 t1] c1] rest IH]; intros table Hu; simpl;
    [reflexivity|].
  rewrite IH by now apply save_keeps_unique.
  destruct (last_saved paper type rest); [reflexivity|].
  destruct (str_eqb p1 paper) eqn:Ep; simpl.
  - destruct (str_eqb t1 type) eqn:Et.
    + apply str_eqb_eq in Ep, Et. subst. apply save_lookup_same, Hu.
    + apply save_lookup_other. intros E. inversion E. subst.
      now rewrite str_eqb_refl in Et.
  - apply save_lookup_other. intros E. inversion E. subst.
    now rewrite str_eqb_refl in Ep.
Qed.

Lemma save_all_keeps_unique (saves : list (str * str * str)) :
  forall table, unique_summaries table -> unique_summaries (save_all saves table).
Proof.
  induction saves as [|[[p1 t1] c1] rest IH]; intros table Hu; simpl;
    [exact Hu|].
  now apply IH, save_keeps_unique.
Qed.

(** X25.  The last save wins.  After any run of saves that starts from
    an empty table, no paper has two summaries of one type, and the
    summary read for a paper and a type is the content of the last save
    for them, or nothing when there was none: the look-up never raises
    [MultipleResultsFound] in such a run. *)
Theorem the_last_saved_summary_is_read (saves : list (str * str * str)) :
  unique_summaries (save_all saves [])
  /\ forall paper type,
       get_cached_summary paper type (save_all saves [])
       = Return (last_saved paper type saves).
Proof.
  assert (H0 : unique_summaries []) by (intros p t; simpl; lia).
  split; [now apply save_all_keeps_unique|].
  intros paper type. unfold get_cached_summary.
  rewrite save_all_lookup by exact H0.
  destruct (last_saved paper type saves); reflexivity.
Qed.

End SummaryFacts.

(* ================================================================== *)
(** * Facts about the upload of a paper *)
(* ================================================================== *)

Module UploadFacts.
Import Chunking Embedding EmbeddingDocs EmbeddingMore Upload.

Lemma map_fst_combine {A B} (l : list A) (l' : list B) :
  length l <= length l' -> map fst (combine l l') = l.
Proof.
  revert l'. induction l as [|a l IH]; intros [|b l'] H; simpl in *;
    [reflexivity | reflexivity | lia |].
  f_equal. apply IH. lia.
Qed.

Lemma combine_repeat {A B} (l : list A) (b : B) :
  combine l (repeat b (length l)) = map (fun a => (a, b)) l.
Proof. induction l as [|a l IH]; simpl; [reflexivity | now rewrite IH]. Qed.

Section Api.

Variable count_tokens : str -> nat.
Variable settings : Settings.
Variable embedding_dim : nat.
Variable embed_documents : nat -> list str -> option (list (list float)).
Variable embed_document : nat -> str -> option (list float).

Local Abbreviation process_pdf :=
  (process_pdf count_tokens settings embedding_dim embed_documents embed_document).
Local Abbreviation chunks_of :=
  (fun raw_text => chunk_text count_tokens settings raw_text None None).

(** X26.  No chunk is lost on the way to the data base: provided the
    API, when a batch call succeeds, returns as many vectors as the
    batch has texts, the loop over [zip(chunks, embeddings)] stores
    every chunk of the text, in order, each with one embedding,
    whichever calls of the API fail. *)
Theorem every_chunk_is_stored_with_an_embedding (raw_text : str) :
  (forall n batch embs,
      embed_documents n batch = Some embs -> length embs = length batch) ->
  map fst (process_pdf raw_text) = chunks_of raw_text.
Proof.
  intros Hapi. unfold Upload.process_pdf. apply map_fst_combine.
  rewrite (@embed_batch_length embedding_dim embed_documents embed_document _ _ Hapi),
    length_map. apply Nat.le_refl.
Qed.

(** X27.  An upload while the API is down goes through and stores
    nothing to search by: when every call of the API fails,
    [process_pdf] stores every chunk of the text with the zero vector as
    its embedding. *)
Theorem an_upload_with_the_api_down_stores_zero_vectors (raw_text : str) :
  (forall n batch, embed_documents n batch = None) ->
  (forall n text, embed_document n text = None) ->
  process_pdf raw_text
  = map (fun c => (c, zero_vector embedding_dim)) (chunks_of raw_text).
Proof.
  intros Hb Hs. unfold Upload.process_pdf.
  rewrite (@embed_batch_down embedding_dim embed_documents embed_document _ _ Hb Hs),
    length_map. apply combine_repeat.
Qed.

End Api.

Lemma every_chunk_is_stored_with_an_embedding_witness :
  map fst (process_pdf ink_count default_settings 1 unit_batch_api
                       (fun _ _ => None) three_sentences)
  = chunk_text ink_count default_settings three_sentences None None.
Proof.
  apply (@every_chunk_is_stored_with_an_embedding
           ink_count default_settings 1 unit_batch_api (fun _ _ => None)
           three_sentences).
  intros n batch embs H. inversion H. apply length_map.
Defined.

Lemma an_upload_with_the_api_down_stores_zero_vectors_witness :
  process_pdf ink_count default_settings 2 (fun _ _ => None) (fun _ _ => None)
              three_sentences
  = map (fun c => (c, [0%float; 0%float]))
        (chunk_text ink_count default_settings three_sentences None None).
Proof.
  apply (@an_upload_with_the_api_down_stores_zero_vectors
           ink_count default_settings 2 (fun _ _ => None) (fun _ _ => None)
           three_sentences (fun _ _ => eq_refl) (fun _ _ => eq_refl)).
Defined.

End UploadFacts.
